(** * simplex-noise: a shallow embedding of [src/simplex_noise.c]

    The engine is a process-wide singleton in the C source: a permutation
    table, the state of four pseudo-random generators, a configuration
    record, a (never consulted) cache and a few counters.  Here the
    singleton is the record [engine]; every C function that touches it
    takes the engine as an argument and returns the new one.

    - C [int] / [uint32_t] / [uint64_t] are [Z] with the wrap-around written
      out ([s32], [u32], [u64]);
    - C [double] is Rocq's primitive binary64 [float], whose operations are
      the IEEE-754 ones (round to nearest even);
    - C arrays are lists read and written by index;
    - [time(NULL)] is the argument [now] of the functions that may read
      the clock. *)

From Stdlib Require Import ZArith Lia Bool String Floats.
From stdpp Require Import base tactics option list.

Set Warnings "-inexact-float".
Local Open Scope Z_scope.

(** ** Machine integers *)

Definition u32 (z : Z) : Z := z mod 2 ^ 32.
Definition u64 (z : Z) : Z := z mod 2 ^ 64.
Definition INT_MIN : Z := - 2 ^ 31.
Definition INT_MAX : Z := 2 ^ 31 - 1.
(** Two's complement wrap-around of a signed 32-bit [int]. *)
Definition s32 (z : Z) : Z := (z + 2 ^ 31) mod 2 ^ 32 - 2 ^ 31.

(** ** C arrays as lists *)

(** [a[i]]; the model reads 0 where C would read out of bounds. *)
Definition rd (a : list Z) (i : Z) : Z := default 0 (a !! Z.to_nat i).
(** [a[i] = v]. *)
Definition wr {A} (a : list A) (i : Z) (v : A) : list A := <[Z.to_nat i := v]> a.

(** [for (i = start; i < start + n; i++) body(i)] *)
Fixpoint for_up {T} (n : nat) (start : Z) (body : Z -> T -> T) (s : T) : T :=
  match n with
  | O => s
  | S n' => for_up n' (start + 1) body (body start s)
  end.

(** ** PRNG state ([static struct prng_state]) *)

Record prng_state_t := mk_prng_state {
  lcg_state : Z;
  mersenne_state : list Z;
  mersenne_index : Z;
  xorshift_state : list Z;
  pcg_state : Z;
  pcg_inc : Z
}.

Definition SIMPLEX_PRG_LINEAR_CONGRUENTIAL : Z := 0.
Definition SIMPLEX_PRG_MERSENNE_TWISTER : Z := 1.
Definition SIMPLEX_PRG_XORSHIFT : Z := 2.
Definition SIMPLEX_PRG_PCG : Z := 3.
Definition SIMPLEX_PRG_CUSTOM : Z := 4.
Definition SIMPLEX_PRG_COUNT : Z := 5.

Definition lcg_next (ps : prng_state_t) : Z * prng_state_t :=
  let s := u32 (lcg_state ps * 1103515245 + 12345) in
  (s, mk_prng_state s (mersenne_state ps) (mersenne_index ps)
        (xorshift_state ps) (pcg_state ps) (pcg_inc ps)).

Definition mersenne_init_loop (seed : Z) (ms : list Z) : list Z :=
  for_up 623 1
    (fun i ms =>
       let prev := rd ms (i - 1) in
       wr ms i (Z.land (u32 (1812433253 * Z.lxor prev (Z.shiftr prev 30) + i)) 4294967295))
    (wr ms 0 seed).

Definition mersenne_init (seed : Z) (ps : prng_state_t) : prng_state_t :=
  mk_prng_state (lcg_state ps) (mersenne_init_loop seed (mersenne_state ps)) 0
    (xorshift_state ps) (pcg_state ps) (pcg_inc ps).

Definition mersenne_generate_loop (ms : list Z) : list Z :=
  for_up 624 0
    (fun i ms =>
       let y := u32 (Z.land (rd ms i) 2147483648
                     + Z.land (rd ms ((i + 1) mod 624)) 2147483647) in
       let ms := wr ms i (Z.lxor (rd ms ((i + 397) mod 624)) (Z.shiftr y 1)) in
       if negb (y mod 2 =? 0) then wr ms i (Z.lxor (rd ms i) 2567483615) else ms)
    ms.

Definition mersenne_generate (ps : prng_state_t) : prng_state_t :=
  mk_prng_state (lcg_state ps) (mersenne_generate_loop (mersenne_state ps))
    (mersenne_index ps) (xorshift_state ps) (pcg_state ps) (pcg_inc ps).

Definition mersenne_next (ps : prng_state_t) : Z * prng_state_t :=
  let ps := if mersenne_index ps =? 0 then mersenne_generate ps else ps in
  let y := rd (mersenne_state ps) (mersenne_index ps) in
  let y := Z.lxor y (Z.shiftr y 11) in
  let y := Z.lxor y (Z.land (u32 (Z.shiftl y 7)) 2636928640) in
  let y := Z.lxor y (Z.land (u32 (Z.shiftl y 15)) 4022730752) in
  let y := Z.lxor y (Z.shiftr y 18) in
  (y, mk_prng_state (lcg_state ps) (mersenne_state ps)
        (Z.rem (s32 (mersenne_index ps + 1)) 624)
        (xorshift_state ps) (pcg_state ps) (pcg_inc ps)).

Definition xorshift_init (seed : Z) (ps : prng_state_t) : prng_state_t :=
  let xs := wr (xorshift_state ps) 0 seed in
  let xs := wr xs 1 (Z.lxor seed 1311768467463790320) in
  let xs := wr xs 2 (Z.lxor seed 18364758544493064720) in
  let xs := wr xs 3 (Z.lxor seed 1393753992385309920) in
  mk_prng_state (lcg_state ps) (mersenne_state ps) (mersenne_index ps)
    xs (pcg_state ps) (pcg_inc ps).

Definition xorshift_next (ps : prng_state_t) : Z * prng_state_t :=
  let xs := xorshift_state ps in
  let t := rd xs 0 in
  let s := rd xs 3 in
  let xs := wr xs 0 (rd xs 1) in
  let xs := wr xs 1 (rd xs 2) in
  let xs := wr xs 2 s in
  let t := Z.lxor t (u64 (Z.shiftl t 11)) in
  let t := Z.lxor t (Z.shiftr t 8) in
  let xs := wr xs 3 (Z.lxor (Z.lxor t s) (Z.shiftr s 19)) in
  (rd xs 3, mk_prng_state (lcg_state ps) (mersenne_state ps) (mersenne_index ps)
              xs (pcg_state ps) (pcg_inc ps)).

Definition pcg_next (ps : prng_state_t) : Z * prng_state_t :=
  let oldstate := pcg_state ps in
  let newstate := u64 (oldstate * 6364136223846793005 + pcg_inc ps) in
  let xorshifted := u32 (Z.shiftr (Z.lxor (Z.shiftr oldstate 18) oldstate) 27) in
  let rot := u32 (Z.shiftr oldstate 59) in
  (Z.lor (Z.shiftr xorshifted rot)
         (u32 (Z.shiftl xorshifted (Z.land (u32 (- rot)) 31))),
   mk_prng_state (lcg_state ps) (mersenne_state ps) (mersenne_index ps)
     (xorshift_state ps) newstate (pcg_inc ps)).

Definition pcg_init (seed : Z) (ps : prng_state_t) : prng_state_t :=
  let ps := mk_prng_state (lcg_state ps) (mersenne_state ps) (mersenne_index ps)
              (xorshift_state ps) 0 (Z.lor (u64 (Z.shiftl seed 1)) 1) in
  let ps := snd (pcg_next ps) in
  let ps := mk_prng_state (lcg_state ps) (mersenne_state ps) (mersenne_index ps)
              (xorshift_state ps) (u64 (pcg_state ps + seed)) (pcg_inc ps) in
  snd (pcg_next ps).

(** [switch (global_config.prng_type)]; an unknown selector falls back to
    the LCG. *)
Definition prng_next (ty : Z) (ps : prng_state_t) : Z * prng_state_t :=
  if ty =? SIMPLEX_PRG_LINEAR_CONGRUENTIAL then lcg_next ps
  else if ty =? SIMPLEX_PRG_MERSENNE_TWISTER then mersenne_next ps
  else if ty =? SIMPLEX_PRG_XORSHIFT then
         let '(v, ps') := xorshift_next ps in (u32 v, ps')
  else if ty =? SIMPLEX_PRG_PCG then pcg_next ps
  else lcg_next ps.

Definition prng_init (ty : Z) (seed : Z) (ps : prng_state_t) : prng_state_t :=
  let set_lcg := mk_prng_state seed (mersenne_state ps) (mersenne_index ps)
                   (xorshift_state ps) (pcg_state ps) (pcg_inc ps) in
  if ty =? SIMPLEX_PRG_LINEAR_CONGRUENTIAL then set_lcg
  else if ty =? SIMPLEX_PRG_MERSENNE_TWISTER then mersenne_init seed ps
  else if ty =? SIMPLEX_PRG_XORSHIFT then xorshift_init seed ps
  else if ty =? SIMPLEX_PRG_PCG then pcg_init seed ps
  else set_lcg.

(** ** Configuration ([simplex_config_t]) and statistics *)

Abbreviation double := float.

Record simplex_config_t := mk_config {
  prng_type : Z;
  noise_variant : Z;
  interp_type : Z;
  precision : Z;
  seed : Z;
  enable_simd : Z;
  enable_caching : Z;
  enable_profiling : Z;
  persistence : double;
  lacunarity : double;
  octaves : Z;
  frequency : double;
  amplitude : double;
  offset : double;
  scale : double;
  config_file : string;
  output_file : string;
  verbose_mode : Z;
  debug_mode : Z;
  auto_save : Z;
  validate_inputs : Z;
  cache_size_mb : double;
  max_threads : Z;
  chunk_size : Z;
  memory_limit_mb : double
}.

Definition set_seed (c : simplex_config_t) (s : Z) : simplex_config_t :=
  mk_config (prng_type c) (noise_variant c) (interp_type c) (precision c) s
    (enable_simd c) (enable_caching c) (enable_profiling c) (persistence c)
    (lacunarity c) (octaves c) (frequency c) (amplitude c) (offset c) (scale c)
    (config_file c) (output_file c) (verbose_mode c) (debug_mode c) (auto_save c)
    (validate_inputs c) (cache_size_mb c) (max_threads c) (chunk_size c)
    (memory_limit_mb c).

Definition set_enable_caching (c : simplex_config_t) (b : Z) : simplex_config_t :=
  mk_config (prng_type c) (noise_variant c) (interp_type c) (precision c) (seed c)
    (enable_simd c) b (enable_profiling c) (persistence c)
    (lacunarity c) (octaves c) (frequency c) (amplitude c) (offset c) (scale c)
    (config_file c) (output_file c) (verbose_mode c) (debug_mode c) (auto_save c)
    (validate_inputs c) (cache_size_mb c) (max_threads c) (chunk_size c)
    (memory_limit_mb c).

Definition set_prng_type (c : simplex_config_t) (ty : Z) : simplex_config_t :=
  mk_config ty (noise_variant c) (interp_type c) (precision c) (seed c)
    (enable_simd c) (enable_caching c) (enable_profiling c) (persistence c)
    (lacunarity c) (octaves c) (frequency c) (amplitude c) (offset c) (scale c)
    (config_file c) (output_file c) (verbose_mode c) (debug_mode c) (auto_save c)
    (validate_inputs c) (cache_size_mb c) (max_threads c) (chunk_size c)
    (memory_limit_mb c).

Definition simplex_get_default_config : simplex_config_t :=
  {| prng_type := SIMPLEX_PRG_PCG;
     noise_variant := 0;
     interp_type := 3;
     precision := 1;
     seed := 0;
     enable_simd := 0;
     enable_caching := 1;
     enable_profiling := 0;
     persistence := 0.5;
     lacunarity := 2.0;
     octaves := 4;
     frequency := 1.0;
     amplitude := 1.0;
     offset := 0.0;
     scale := 1.0;
     config_file := EmptyString;
     output_file := EmptyString;
     verbose_mode := 0;
     debug_mode := 0;
     auto_save := 0;
     validate_inputs := 1;
     cache_size_mb := 16.0;
     max_threads := 1;
     chunk_size := 1024;
     memory_limit_mb := 256.0 |}.

Record simplex_perf_stats_t := mk_perf_stats {
  perf_generation_time : double;
  perf_memory_used : Z;
  perf_cache_hits : Z;
  perf_cache_misses : Z;
  perf_function_calls : Z;
  perf_average_execution_time : double
}.

(** [memset(&perf_stats, 0, sizeof(perf_stats))] *)
Definition perf_stats_zero : simplex_perf_stats_t :=
  mk_perf_stats 0 0 0 0 0 0.

(** One slot of [noise_cache]. *)
Record cache_entry := mk_cache_entry {
  ce_x : double; ce_y : double; ce_z : double; ce_w : double;
  ce_result : double;
  ce_valid : Z
}.

Definition CACHE_SIZE : Z := 1024.

(** ** The global engine state *)

Record engine := mk_engine {
  perm : list Z;
  initialized : Z;
  global_config : simplex_config_t;
  perf_stats : simplex_perf_stats_t;
  prng_state : prng_state_t;
  noise_cache : list cache_entry;
  cache_enabled : Z;
  cache_hits : Z;
  cache_misses : Z;
  profiling_enabled : Z;
  function_call_count : Z
}.

(** The statics as the C runtime zero-initialises them at program start. *)
Definition engine_zero : engine :=
  {| perm := replicate 512 0;
     initialized := 0;
     global_config :=
       mk_config 0 0 0 0 0 0 0 0 0 0 0 0 0 0 0 EmptyString EmptyString 0 0 0 0 0 0 0 0;
     perf_stats := perf_stats_zero;
     prng_state := mk_prng_state 0 (replicate 624 0) 0 (replicate 4 0) 0 0;
     noise_cache := replicate 1024 (mk_cache_entry 0 0 0 0 0 0);
     cache_enabled := 0;
     cache_hits := 0;
     cache_misses := 0;
     profiling_enabled := 0;
     function_call_count := 0 |}.

(** The array bounds every reachable engine state satisfies. *)
Definition wf_engine (st : engine) : Prop :=
  length (perm st) = 512%nat /\
  length (mersenne_state (prng_state st)) = 624%nat /\
  length (xorshift_state (prng_state st)) = 4%nat /\
  length (noise_cache st) = 1024%nat.

(** ** Initialisation *)

(** [for (i = 0; i < 256; i++) perm[i] = i;] *)
Definition perm_identity (p : list Z) : list Z :=
  for_up 256 0 (fun i p => wr p i i) p.

(** The Fisher-Yates loop [for (i = n; i > 0; i--)]: draw
    [j = prng_next() % (i + 1)] and swap [perm[i]] with [perm[j]]. *)
Fixpoint shuffle (n : nat) (ty : Z) (ps : prng_state_t) (p : list Z)
  : list Z * prng_state_t :=
  match n with
  | O => (p, ps)
  | S n' =>
      let i := Z.of_nat n in
      let '(r, ps') := prng_next ty ps in
      let j := u32 r mod u32 (i + 1) in
      let temp := rd p i in
      let p := wr p i (rd p j) in
      let p := wr p j temp in
      shuffle n' ty ps' p
  end.

(** [for (i = 0; i < 256; i++) perm[256 + i] = perm[i];] *)
Definition perm_duplicate (p : list Z) : list Z :=
  for_up 256 0 (fun i p => wr p (256 + i) (rd p i)) p.

(** [for (i = 0; i < CACHE_SIZE; i++) noise_cache[i].valid = 0;] *)
Definition cache_invalidate (c : list cache_entry) : list cache_entry :=
  for_up 1024 0
    (fun i c =>
       match c !! Z.to_nat i with
       | Some e => wr c i (mk_cache_entry (ce_x e) (ce_y e) (ce_z e) (ce_w e)
                             (ce_result e) 0)
       | None => c
       end) c.

(** [simplex_noise_init_advanced]: [None] is the null pointer.  [now] is
    what [time(NULL)] returns, read only when the seed is 0.  The [seed]
    field is a [uint32_t], so the copy [global_config = *config] holds it
    reduced modulo 2^32. *)
Definition simplex_noise_init_advanced (now : Z) (st : engine)
    (config : option simplex_config_t) : Z * engine :=
  match config with
  | None => (-1, st)
  | Some cfg =>
      let cfg := set_seed cfg (u32 (seed cfg)) in
      let cfg := if seed cfg =? 0 then set_seed cfg (u32 now) else cfg in
      let ps := prng_init (prng_type cfg) (seed cfg) (prng_state st) in
      let p := perm_identity (perm st) in
      let '(p, ps) := shuffle 255 (prng_type cfg) ps p in
      let p := perm_duplicate p in
      let enabled := negb (enable_caching cfg =? 0) in
      (0, {| perm := p;
             initialized := 1;
             global_config := cfg;
             perf_stats := perf_stats_zero;
             prng_state := ps;
             noise_cache := if enabled then cache_invalidate (noise_cache st)
                            else noise_cache st;
             cache_enabled := if enabled then 1 else cache_enabled st;
             cache_hits := cache_hits st;
             cache_misses := cache_misses st;
             profiling_enabled := enable_profiling cfg;
             function_call_count := 0 |})
  end.

(** [simplex_noise_init(seed)]: the default configuration with the seed. *)
Definition simplex_noise_init (now : Z) (st : engine) (s : Z) : engine :=
  snd (simplex_noise_init_advanced now st
         (Some (set_seed simplex_get_default_config s))).

(** [simplex_set_caching] *)
Definition simplex_set_caching (st : engine) (enable : Z) : Z * engine :=
  let b := if enable =? 0 then 0 else 1 in
  (0, {| perm := perm st;
         initialized := initialized st;
         global_config := set_enable_caching (global_config st) b;
         perf_stats := perf_stats st;
         prng_state := prng_state st;
         noise_cache := noise_cache st;
         cache_enabled := b;
         cache_hits := cache_hits st;
         cache_misses := cache_misses st;
         profiling_enabled := profiling_enabled st;
         function_call_count := function_call_count st |}).

(** ** Floating point helpers *)

(** [(double)i] for an [int]: exact, every 32-bit integer is a double. *)
Definition double_of_int (i : Z) : double :=
  SF2Prim (binary_normalize prec emax i 0 false).

(** The integral part of a finite double (rounding towards zero). *)
Definition trunc_double (x : double) : option Z :=
  match Prim2SF x with
  | S754_zero _ => Some 0
  | S754_finite s m e =>
      Some (cond_Zopp s (match e with
                         | Zneg k => Z.shiftr (Zpos m) (Zpos k)
                         | _ => Z.shiftl (Zpos m) e
                         end))
  | _ => None
  end.

(** [fabs] *)
Definition fabs (x : double) : double := PrimFloat.abs x.

(** * Binary64 arithmetic

    What [+], [-] and [*] do on doubles, as functions on integers.  A
    double is measured in units of [2 ^ -1074] (its [rank], an integer);
    the exact sum or product of two doubles is rounded by [Rs], a monotone
    function on [Z] that is read off [SpecFloat.binary_round_aux].  This is
    what the zero-strength domain warp needs: that the kernel never
    overflows, and what it does with the sign of a zero. *)

Module Binary64.

(** ** Shifting a mantissa right, one bit at a time *)

Lemma iter_pos_nat {A} (f : A -> A) (p : positive) (x : A) :
  SpecFloat.iter_pos f p x = Nat.iter (Pos.to_nat p) f x.
Proof.
  revert x. induction p as [p IH|p IH|]; intros x; cbn [SpecFloat.iter_pos].
  - rewrite !IH, Pos2Nat.inj_xI. cbn [Nat.iter].
    rewrite <- Nat.iter_succ_r. rewrite <- Nat.iter_add.
    f_equal. lia.
  - rewrite !IH, Pos2Nat.inj_xO. rewrite <- Nat.iter_add. f_equal. lia.
  - reflexivity.
Qed.

Lemma shr_1_spec (m : Z) (r s : bool) :
  0 <= m ->
  shr_1 (Build_shr_record m r s) = Build_shr_record (m / 2) (Z.odd m) (r || s).
Proof.
  intros Hm. destruct m as [|[p|p|]|p]; try lia; cbn [shr_1].
  - reflexivity.
  - assert (Z.pos p~1 / 2 = Z.pos p) as ->; [|done].
    rewrite Pos2Z.inj_xI. symmetry. apply (Z.div_unique _ _ _ 1); lia.
  - assert (Z.pos p~0 / 2 = Z.pos p) as ->; [|done].
    rewrite Pos2Z.inj_xO. symmetry. apply (Z.div_unique _ _ _ 0); lia.
  - reflexivity.
Qed.

(** What [k] steps leave: the quotient, and in the two flags where the
    remainder stands with respect to the half. *)
Definition shr_inv (m : Z) (k : nat) (mrs : shr_record) : Prop :=
  let p2 := 2 ^ Z.of_nat k in
  shr_m mrs = m / p2 /\
  (shr_r mrs = true <-> p2 <= 2 * (m mod p2)) /\
  (shr_s mrs = true <-> (m mod p2 <> 0 /\ 2 * (m mod p2) <> p2)).

Lemma div_mod_double (m p2 : Z) :
  0 < p2 ->
  m / (2 * p2) = (m / p2) / 2 /\
  m mod (2 * p2) = m mod p2 + p2 * ((m / p2) mod 2).
Proof.
  intros Hp.
  pose proof (Z.div_mod m p2 ltac:(lia)) as H1.
  pose proof (Z.mod_pos_bound m p2 Hp) as H2.
  pose proof (Z.div_mod (m / p2) 2 ltac:(lia)) as H3.
  pose proof (Z.mod_pos_bound (m / p2) 2 ltac:(lia)) as H4.
  set (a := m / p2) in *. set (r := m mod p2) in *.
  set (a' := a / 2) in *. set (b := a mod 2) in *.
  assert (m = (2 * p2) * a' + (r + p2 * b)) as Hm by nia.
  split.
  - symmetry. apply (Z.div_unique _ _ _ (r + p2 * b)); [nia|exact Hm].
  - symmetry. apply (Z.mod_unique _ _ a'); [nia|exact Hm].
Qed.

Lemma shr_inv_step (m : Z) (k : nat) (mrs : shr_record) :
  0 <= m -> shr_inv m k mrs -> shr_inv m (S k) (shr_1 mrs).
Proof.
  intros Hm. unfold shr_inv. cbv zeta.
  rewrite Nat2Z.inj_succ, Z.pow_succ_r by lia.
  set (p2 := 2 ^ Z.of_nat k). assert (0 < p2) as Hp by (apply Z.pow_pos_nonneg; lia).
  destruct mrs as [a r s]. cbn [shr_m shr_r shr_s]. intros (-> & Hr & Hs).
  rewrite shr_1_spec by (apply Z.div_pos; lia). cbn [shr_m shr_r shr_s].
  destruct (div_mod_double m p2 Hp) as [Hq Hrem]. rewrite Hq, Hrem.
  pose proof (Z.mod_pos_bound m p2 Hp) as Hb.
  pose proof (Z.mod_pos_bound (m / p2) 2 ltac:(lia)) as Hb2.
  split; [done|].
  assert (Z.odd (m / p2) = true <-> (m / p2) mod 2 = 1) as Hodd.
  { rewrite (Zmod_odd (m / p2)). destruct (Z.odd (m / p2)); split; done. }
  rewrite orb_true_iff, Hr, Hs, Hodd. clear Hr Hs Hodd Hq Hrem.
  set (b := (m / p2) mod 2) in *. set (rem := m mod p2) in *.
  assert (b = 0 \/ b = 1) as [-> | ->] by lia; rewrite ?Z.mul_0_r, ?Z.mul_1_r;
    split; lia.
Qed.

Lemma shr_inv_iter (m : Z) (k : nat) :
  0 <= m -> shr_inv m k (Nat.iter k shr_1 (Build_shr_record m false false)).
Proof.
  intros Hm. induction k as [|k IH].
  - unfold shr_inv. cbn [Nat.iter shr_m shr_r shr_s Z.of_nat]. cbv zeta.
    rewrite Z.pow_0_r, Z.div_1_r, Z.mod_1_r. split; [done|]. split; split; try done; lia.
  - cbn [Nat.iter]. by apply shr_inv_step.
Qed.

(** ** Rounding to nearest, ties to even, on integers *)

(** [m / 2 ^ k], rounded. *)
Definition rne (m k : Z) : Z :=
  let q := m / 2 ^ k in
  match 2 * (m mod 2 ^ k) ?= 2 ^ k with
  | Lt => q
  | Eq => if Z.even q then q else q + 1
  | Gt => q + 1
  end.

Lemma round_shr_inv (m : Z) (k : nat) (mrs : shr_record) :
  0 <= m -> shr_inv m k mrs ->
  round_nearest_even (shr_m mrs) (loc_of_shr_record mrs) = rne m (Z.of_nat k).
Proof.
  intros Hm (Hq & Hr & Hs). cbv zeta in *. unfold rne.
  set (p2 := 2 ^ Z.of_nat k) in *.
  assert (0 < p2) as Hp by (apply Z.pow_pos_nonneg; lia).
  pose proof (Z.mod_pos_bound m p2 Hp) as Hb.
  destruct mrs as [a r s]. cbn [shr_m shr_r shr_s] in *. subst a.
  destruct (Z.compare_spec (2 * (m mod p2)) p2) as [E|E|E];
    destruct r, s; cbn [loc_of_shr_record round_nearest_even]; try done;
    repeat match goal with
           | H : true = true <-> _ |- _ => destruct H as [H _]; specialize (H eq_refl)
           | H : false = true <-> _ |- _ => destruct H as [_ H]
           end; try lia.
Qed.


Lemma rne_bounds (m k : Z) : m / 2 ^ k <= rne m k <= m / 2 ^ k + 1.
Proof.
  unfold rne. destruct (_ ?= _); [destruct (Z.even _)| |]; lia.
Qed.

Lemma rne_0_r (m : Z) : rne m 0 = m.
Proof.
  unfold rne. rewrite Z.pow_0_r, Z.div_1_r, Z.mod_1_r. reflexivity.
Qed.

(** Rounding does not see a scaling of the mantissa and of the unit. *)
Lemma rne_scale (m k j : Z) :
  0 <= k -> 0 <= j -> rne (m * 2 ^ j) (k + j) = rne m k.
Proof.
  intros Hk Hj. unfold rne.
  rewrite Z.pow_add_r by lia.
  assert (0 < 2 ^ k) by (apply Z.pow_pos_nonneg; lia).
  assert (0 < 2 ^ j) by (apply Z.pow_pos_nonneg; lia).
  rewrite Z.div_mul_cancel_r by lia.
  rewrite Z.mul_mod_distr_r by lia.
  rewrite (Z.mul_assoc 2), <- Zmult_compare_compat_r by lia.
  reflexivity.
Qed.

Lemma rne_mono (m m' k : Z) : 0 <= k -> m <= m' -> rne m k <= rne m' k.
Proof.
  intros Hk Hm.
  assert (0 < 2 ^ k) as Hp by (apply Z.pow_pos_nonneg; lia).
  pose proof (Z.div_le_mono m m' (2 ^ k) Hp Hm) as Hq.
  destruct (decide (m / 2 ^ k = m' / 2 ^ k)) as [Heq|Hne].
  - unfold rne. rewrite <- Heq.
    pose proof (Z.div_mod m (2 ^ k) ltac:(lia)).
    pose proof (Z.div_mod m' (2 ^ k) ltac:(lia)).
    assert (m mod 2 ^ k <= m' mod 2 ^ k) by nia.
    destruct (Z.compare_spec (2 * (m mod 2 ^ k)) (2 ^ k)),
      (Z.compare_spec (2 * (m' mod 2 ^ k)) (2 ^ k)),
      (Z.even (m / 2 ^ k)); lia.
  - pose proof (rne_bounds m k). pose proof (rne_bounds m' k). lia.
Qed.

(** ** The number of digits *)

Lemma digits2_pos_bounds (p : positive) :
  2 ^ (Z.pos (digits2_pos p) - 1) <= Z.pos p < 2 ^ Z.pos (digits2_pos p).
Proof.
  induction p as [p IH|p IH|]; cbn [digits2_pos].
  - rewrite Pos2Z.inj_succ, Pos2Z.inj_xI.
    set (d := Z.pos (digits2_pos p)) in *. assert (0 < d) by (unfold d; lia).
    clearbody d.
    assert (2 ^ Z.succ d = 2 * 2 ^ d) as -> by (apply Z.pow_succ_r; lia).
    assert (2 ^ (Z.succ d - 1) = 2 * 2 ^ (d - 1)) as ->
      by (replace (Z.succ d - 1) with (Z.succ (d - 1)) by lia;
          apply Z.pow_succ_r; lia).
    lia.
  - rewrite Pos2Z.inj_succ. change (Z.pos p~0) with (2 * Z.pos p).
    set (d := Z.pos (digits2_pos p)) in *. assert (0 < d) by (unfold d; lia).
    clearbody d.
    assert (2 ^ Z.succ d = 2 * 2 ^ d) as -> by (apply Z.pow_succ_r; lia).
    assert (2 ^ (Z.succ d - 1) = 2 * 2 ^ (d - 1)) as ->
      by (replace (Z.succ d - 1) with (Z.succ (d - 1)) by lia;
          apply Z.pow_succ_r; lia).
    lia.
  - done.
Qed.

Lemma Zdigits2_bounds (m : Z) :
  0 < m -> 0 < Zdigits2 m /\ 2 ^ (Zdigits2 m - 1) <= m < 2 ^ Zdigits2 m.
Proof.
  destruct m as [|p|p]; try lia. intros _. cbn [Zdigits2].
  split; [lia|apply digits2_pos_bounds].
Qed.

Lemma Zdigits2_unique (m d : Z) :
  2 ^ (d - 1) <= m < 2 ^ d -> 0 < m -> Zdigits2 m = d.
Proof.
  intros Hd Hm. destruct (Zdigits2_bounds m Hm) as [H0 Hb].
  assert (0 < d) as Hdpos.
  { destruct (Z.le_gt_cases d 0) as [Hle|Hgt]; [|done].
    rewrite (Z.pow_neg_r 2 (d - 1)) in Hd by lia.
    destruct (decide (d = 0)) as [->|]; [rewrite Z.pow_0_r in Hd; lia|].
    rewrite (Z.pow_neg_r 2 d) in Hd by lia. lia. }
  destruct (Z.lt_trichotomy (Zdigits2 m) d) as [H|[H|H]]; [|done|].
  - assert (2 ^ Zdigits2 m <= 2 ^ (d - 1)) by (apply Z.pow_le_mono_r; lia). lia.
  - assert (2 ^ d <= 2 ^ (Zdigits2 m - 1)) by (apply Z.pow_le_mono_r; lia). lia.
Qed.

Lemma Zdigits2_log2 (m : Z) : 0 < m -> Zdigits2 m = Z.log2 m + 1.
Proof.
  intros Hm. apply Zdigits2_unique; [|done].
  replace (Z.log2 m + 1 - 1) with (Z.log2 m) by lia.
  rewrite Z.add_1_r. apply Z.log2_spec. done.
Qed.


(** ** Magnitude and rank of a binary64 value

    Finite doubles are integer multiples of [2 ^ -1074]; [mag] is that
    multiple, and the infinities stand at [2 ^ 2098], that is [2 ^ 1024],
    the first value out of range. *)

Definition mag (f : spec_float) : Z :=
  match f with
  | S754_zero _ | S754_nan => 0
  | S754_infinity _ => 2 ^ 2098
  | S754_finite _ m e => Z.pos m * 2 ^ (e + 1074)
  end.

Definition sgn (f : spec_float) : bool :=
  match f with
  | S754_zero s | S754_infinity s | S754_finite s _ _ => s
  | S754_nan => false
  end.

Definition rank (f : spec_float) : Z := cond_Zopp (sgn f) (mag f).

(** Rounding a non-negative multiple [w] of [2 ^ -2148] to a double, as a
    multiple of [2 ^ -1074]. *)
Definition RZ (w : Z) : Z :=
  let F := Z.max (Zdigits2 w - 2201) (-1074) in
  Z.min (rne w (F + 2148) * 2 ^ (F + 1074)) (2 ^ 2098).

Lemma fexp_eq (x : Z) : fexp prec emax x = Z.max (x - 53) (-1074).
Proof. reflexivity. Qed.

Lemma shr_exact (m e n : Z) :
  0 <= m -> 0 <= n ->
  exists mrs,
    shr (Build_shr_record m false false) e n = (mrs, e + n) /\
    shr_m mrs = m / 2 ^ n /\
    round_nearest_even (shr_m mrs) (loc_of_shr_record mrs) = rne m n.
Proof.
  intros Hm Hn. destruct n as [|k|k]; [| |lia].
  - exists (Build_shr_record m false false). cbn [shr shr_m].
    rewrite Z.add_0_r, Z.pow_0_r, Z.div_1_r, rne_0_r. done.
  - exists (SpecFloat.iter_pos shr_1 k (Build_shr_record m false false)).
    cbn [shr]. split; [done|].
    rewrite iter_pos_nat.
    pose proof (shr_inv_iter m (Pos.to_nat k) Hm) as Hinv.
    rewrite <- (positive_nat_Z k).
    split; [apply Hinv|]. by apply round_shr_inv.
Qed.

Lemma pow2_pos (k : Z) : 0 <= k -> 0 < 2 ^ k.
Proof. intros. apply Z.pow_pos_nonneg; lia. Qed.

Lemma div_pow2_bounds (m d n : Z) :
  0 <= n <= d - 1 -> 2 ^ (d - 1) <= m < 2 ^ d ->
  2 ^ (d - 1 - n) <= m / 2 ^ n < 2 ^ (d - n).
Proof.
  intros Hn Hm. pose proof (pow2_pos n ltac:(lia)).
  split.
  - apply Z.div_le_lower_bound; [lia|].
    rewrite <- Z.pow_add_r by lia. replace (n + (d - 1 - n)) with (d - 1) by lia. lia.
  - apply Z.div_lt_upper_bound; [lia|].
    rewrite <- Z.pow_add_r by lia. replace (n + (d - n)) with d by lia. lia.
Qed.


(** The result of the second, truncating shift of [binary_round_aux]. *)
Lemma shr_fexp_keep (m F : Z) :
  0 <= m -> fexp prec emax (Zdigits2 m + F) = F ->
  shr_fexp prec emax m F loc_Exact = (Build_shr_record m false false, F).
Proof.
  intros Hm HF. unfold shr_fexp. rewrite HF, Z.sub_diag. reflexivity.
Qed.

Lemma shr_fexp_carry (F : Z) :
  -1074 <= F ->
  shr_fexp prec emax (2 ^ 53) F loc_Exact
  = (Build_shr_record (2 ^ 52) false false, F + 1).
Proof.
  intros HF. unfold shr_fexp.
  assert (Zdigits2 (2 ^ 53) = 54) as -> by reflexivity.
  rewrite fexp_eq. replace (Z.max (54 + F - 53) (-1074) - F) with 1 by lia.
  reflexivity.
Qed.

(** What [binary_round_aux] returns on an exact positive mantissa that
    needs no shift to the left: never NaN, with the sign it was given, and
    with the mantissa rounded to nearest even at the exponent [fexp]
    chooses, or infinity past the largest double. *)
Lemma binary_round_aux_spec (s : bool) (p : positive) (e : Z) :
  let F := fexp prec emax (Zdigits2 (Z.pos p) + e) in
  e <= F ->
  let r := binary_round_aux prec emax s (Z.pos p) e loc_Exact in
  r <> S754_nan /\ sgn r = s /\
  mag r = Z.min (rne (Z.pos p) (F - e) * 2 ^ (F + 1074)) (2 ^ 2098).
Proof.
  intros F HF r. subst r.
  destruct (Zdigits2_bounds (Z.pos p) ltac:(lia)) as [Hd0 Hd].
  set (d := Zdigits2 (Z.pos p)) in *. set (M := Z.pos p) in *.
  assert (F = Z.max (d + e - 53) (-1074)) as HFeq by (unfold F; apply fexp_eq).
  destruct (shr_exact M e (F - e)) as (mrs & Hshr & Hq & Hround); [lia|lia|].
  assert (shr_fexp prec emax M e loc_Exact = (mrs, F)) as Hfirst.
  { unfold shr_fexp. cbn [shr_record_of_loc]. fold d. fold F.
    rewrite Hshr. f_equal. lia. }
  unfold binary_round_aux. rewrite Hfirst. cbv beta iota. rewrite Hround.
  pose proof (rne_bounds M (F - e)) as Hm1.
  set (m1 := rne M (F - e)) in *.
  assert (0 < 2 ^ (F + 1074)) as HpF by (apply pow2_pos; lia).
  destruct (Z_lt_le_dec (d + e - 53) (-1074)) as [Hsub|Hnorm].
  - (* subnormal range *)
    assert (F = -1074) as HF' by lia.
    assert (0 <= M / 2 ^ (F - e) < 2 ^ 52) as Hqb.
    { pose proof (pow2_pos (F - e) ltac:(lia)).
      split; [apply Z.div_pos; lia|].
      apply Z.div_lt_upper_bound; [lia|].
      rewrite <- Z.pow_add_r by lia.
      assert (2 ^ d <= 2 ^ (F - e + 52)) by (apply Z.pow_le_mono_r; lia). lia. }
    assert (0 <= m1 <= 2 ^ 52) as Hm1b by lia.
    assert (fexp prec emax (Zdigits2 m1 + F) = F) as Hkeep.
    { rewrite fexp_eq. destruct (decide (m1 = 0)) as [->|Hne]; [cbn; lia|].
      destruct (Zdigits2_bounds m1 ltac:(lia)) as [_ [Hlo _]].
      assert (Zdigits2 m1 - 1 < 53).
      { apply (Z.pow_lt_mono_r_iff 2); [lia|lia|].
        assert (2 ^ 52 < 2 ^ 53) by done. lia. }
      lia. }
    rewrite (shr_fexp_keep m1 F) by (done || lia). cbv beta iota. cbn [shr_m].
    rewrite HF'. change (2 ^ (-1074 + 1074)) with 1. rewrite Z.mul_1_r.
    assert (2 ^ 52 < 2 ^ 2098) by done.
    destruct m1 as [|p1|p1]; [| |lia]; cbn [sgn mag].
    + split; [done|]. split; [done|]. lia.
    + change (-1074 <=? emax - prec) with true. cbn [sgn mag].
      split; [done|]. split; [done|].
      change (2 ^ (-1074 + 1074)) with 1. lia.
  - (* normal range *)
    assert (F = d + e - 53) as HF' by lia.
    assert (F - e = d - 53) as Hn by lia.
    assert (2 ^ 52 <= M / 2 ^ (F - e) < 2 ^ 53) as Hqb.
    { rewrite Hn. pose proof (div_pow2_bounds M d (d - 53) ltac:(lia) Hd) as Hb.
      replace (d - 1 - (d - 53)) with 52 in Hb by lia.
      replace (d - (d - 53)) with 53 in Hb by lia. done. }
    assert (2 ^ 52 <= m1 <= 2 ^ 53) as Hm1b by lia.
    assert (2 ^ 2098 = 2 ^ 53 * 2 ^ (971 + 1074)) as H2098 by done.
    assert (2 ^ 53 = 2 * 2 ^ 52) as H53 by done.
    assert (0 < 2 ^ 52) as H52 by done.
    destruct (decide (m1 = 2 ^ 53)) as [Hcarry|Hnc].
    + rewrite Hcarry, (shr_fexp_carry F) by lia. cbv beta iota. cbn [shr_m].
      change (2 ^ 52) with (Z.pos (2 ^ 52)).
      destruct (Z.leb_spec (F + 1) (emax - prec)) as [Hle|Hgt];
        cbn [sgn mag]; (split; [done|]); (split; [done|]).
      * change (emax - prec) with 971 in Hle.
        replace (F + 1 + 1074) with (Z.succ (F + 1074)) by lia.
        rewrite Z.pow_succ_r by lia.
        assert (2 ^ (F + 1074) <= 2 ^ (970 + 1074))
          by (apply Z.pow_le_mono_r; lia).
        assert (2 ^ (971 + 1074) = 2 * 2 ^ (970 + 1074)) by done.
        change (Z.pos (2 ^ 52)) with (2 ^ 52). nia.
      * change (emax - prec) with 971 in Hgt.
        assert (2 ^ (971 + 1074) <= 2 ^ (F + 1074))
          by (apply Z.pow_le_mono_r; lia).
        nia.
    + assert (Zdigits2 m1 = 53) as Hd1 by (apply Zdigits2_unique; lia).
      rewrite (shr_fexp_keep m1 F) by (rewrite ?fexp_eq, ?Hd1; lia).
      cbv beta iota. cbn [shr_m]. destruct m1 as [|p1|p1]; [lia| |lia].
      destruct (Z.leb_spec F (emax - prec)) as [Hle|Hgt];
        cbn [sgn mag]; (split; [done|]); (split; [done|]).
      * change (emax - prec) with 971 in Hle.
        assert (2 ^ (F + 1074) <= 2 ^ (971 + 1074))
          by (apply Z.pow_le_mono_r; lia).
        nia.
      * change (emax - prec) with 971 in Hgt.
        assert (2 ^ (972 + 1074) <= 2 ^ (F + 1074))
          by (apply Z.pow_le_mono_r; lia).
        assert (2 ^ (972 + 1074) = 2 * 2 ^ (971 + 1074)) by done.
        nia.
Qed.


Lemma Zdigits2_mul_pow2 (m k : Z) :
  0 < m -> 0 <= k -> Zdigits2 (m * 2 ^ k) = Zdigits2 m + k.
Proof.
  intros Hm Hk. destruct (Zdigits2_bounds m Hm) as [Hd0 Hd].
  pose proof (pow2_pos k Hk).
  apply Zdigits2_unique; [|nia].
  replace (Zdigits2 m + k - 1) with (Zdigits2 m - 1 + k) by lia.
  rewrite !Z.pow_add_r by lia. nia.
Qed.

Lemma Zdigits2_mono (m m' : Z) : 0 < m <= m' -> Zdigits2 m <= Zdigits2 m'.
Proof.
  intros Hm. destruct (Zdigits2_bounds m ltac:(lia)) as [_ Hd].
  destruct (Zdigits2_bounds m' ltac:(lia)) as [_ Hd'].
  destruct (Z_lt_le_dec (Zdigits2 m') (Zdigits2 m)) as [Hlt|]; [|done].
  assert (2 ^ Zdigits2 m' <= 2 ^ (Zdigits2 m - 1))
    by (apply Z.pow_le_mono_r; lia).
  lia.
Qed.

Lemma binary_round_aux_RZ (s : bool) (p : positive) (e : Z) :
  -2148 <= e -> e <= fexp prec emax (Zdigits2 (Z.pos p) + e) ->
  let r := binary_round_aux prec emax s (Z.pos p) e loc_Exact in
  r <> S754_nan /\ sgn r = s /\ mag r = RZ (Z.pos p * 2 ^ (e + 2148)).
Proof.
  intros He HF r.
  destruct (binary_round_aux_spec s p e HF) as (Hnan & Hs & Hmag).
  split; [done|]. split; [done|]. fold r in Hmag. rewrite Hmag.
  unfold RZ. rewrite Zdigits2_mul_pow2 by lia. rewrite fexp_eq in *.
  set (d := Zdigits2 (Z.pos p)) in *.
  replace (Z.max (d + (e + 2148) - 2201) (-1074))
    with (Z.max (d + e - 53) (-1074)) by lia.
  set (F := Z.max (d + e - 53) (-1074)) in *.
  replace (F + 2148) with (F - e + (e + 2148)) by lia.
  by rewrite rne_scale by lia.
Qed.

Lemma RZ_nonneg (w : Z) : 0 <= w -> 0 <= RZ w.
Proof.
  intros Hw. unfold RZ. cbv zeta.
  set (F := Z.max (Zdigits2 w - 2201) (-1074)).
  pose proof (rne_bounds w (F + 2148)).
  pose proof (pow2_pos (F + 2148) ltac:(lia)).
  pose proof (pow2_pos (F + 1074) ltac:(lia)).
  assert (0 <= w / 2 ^ (F + 2148)) by (apply Z.div_pos; lia).
  assert (0 < 2 ^ 2098) by done.
  apply Z.min_glb; [nia|lia].
Qed.

Lemma RZ_le_inf (w : Z) : RZ w <= 2 ^ 2098.
Proof. unfold RZ. apply Z.le_min_r. Qed.

(** Rounding is monotone. *)
Lemma RZ_mono (w w' : Z) : 0 <= w <= w' -> RZ w <= RZ w'.
Proof.
  intros [Hw Hww].
  destruct (decide (w = 0)) as [->|Hw0]; [by apply RZ_nonneg|].
  pose proof (Zdigits2_mono w w' ltac:(lia)) as Hdd.
  destruct (Zdigits2_bounds w ltac:(lia)) as [Hd0 Hd].
  destruct (Zdigits2_bounds w' ltac:(lia)) as [Hd0' Hd'].
  unfold RZ. cbv zeta.
  set (d := Zdigits2 w) in *. set (d' := Zdigits2 w') in *.
  set (F := Z.max (d - 2201) (-1074)). set (F' := Z.max (d' - 2201) (-1074)).
  pose proof (pow2_pos (F + 1074) ltac:(lia)) as HpF.
  pose proof (pow2_pos (F' + 1074) ltac:(lia)) as HpF'.
  destruct (decide (F = F')) as [<-|Hne].
  - apply Z.min_le_compat_r.
    apply Z.mul_le_mono_nonneg_r; [lia|]. apply rne_mono; lia.
  - assert (F' = d' - 2201 /\ F < F' /\ d < d') as (HF' & HFF & Hdlt) by lia.
    (* the larger value rounds to at least the bottom of its binade *)
    assert (2 ^ (d' - 1 - 1074) <= rne w' (F' + 2148) * 2 ^ (F' + 1074)) as Hlow.
    { pose proof (rne_bounds w' (F' + 2148)) as Hb.
      pose proof (div_pow2_bounds w' d' (F' + 2148) ltac:(lia) Hd') as Hq.
      replace (d' - 1 - 1074) with (d' - 1 - (F' + 2148) + (F' + 1074)) by lia.
      rewrite Z.pow_add_r by lia.
      apply Z.mul_le_mono_nonneg_r; lia. }
    (* the smaller one to at most the top of its own *)
    assert (rne w (F + 2148) * 2 ^ (F + 1074) <= 2 ^ (d' - 1 - 1074)) as Hup.
    { pose proof (rne_bounds w (F + 2148)) as Hb.
      destruct (Z_lt_le_dec d (F + 2148)) as [Hsmall|Hbig].
      - assert (w / 2 ^ (F + 2148) = 0) as Hq0.
        { apply Z.div_small. split; [lia|].
          assert (2 ^ d <= 2 ^ (F + 2148)) by (apply Z.pow_le_mono_r; lia). lia. }
        assert (2 ^ (F + 1074) <= 2 ^ (d' - 1 - 1074))
          by (apply Z.pow_le_mono_r; lia).
        nia.
      - assert (w / 2 ^ (F + 2148) < 2 ^ (d - (F + 2148))) as Hq.
        { apply Z.div_lt_upper_bound; [apply pow2_pos; lia|].
          rewrite <- Z.pow_add_r by lia.
          replace (F + 2148 + (d - (F + 2148))) with d by lia. lia. }
        assert (2 ^ (d - (F + 2148)) * 2 ^ (F + 1074) <= 2 ^ (d' - 1 - 1074)).
        { rewrite <- Z.pow_add_r by lia. apply Z.pow_le_mono_r; lia. }
        nia. }
    lia.
Qed.


(** ** Valid doubles *)

Abbreviation valid f := (SpecFloat.valid_binary prec emax f = true).

(** Zero or finite: neither infinite nor NaN. *)
Definition finite_sf (f : spec_float) : bool :=
  match f with
  | S754_zero _ | S754_finite _ _ _ => true
  | _ => false
  end.

Lemma valid_finite_inv (s : bool) (m : positive) (e : Z) :
  valid (S754_finite s m e) ->
  fexp prec emax (Zdigits2 (Z.pos m) + e) = e /\ -1074 <= e <= 971 /\
  Zdigits2 (Z.pos m) <= 53 /\ (e = -1074 \/ Zdigits2 (Z.pos m) = 53).
Proof.
  cbn [SpecFloat.valid_binary]. unfold bounded, canonical_mantissa.
  rewrite andb_true_iff, Z.eqb_eq, Z.leb_le.
  change (Z.pos (digits2_pos m)) with (Zdigits2 (Z.pos m)).
  change (emax - prec) with 971. rewrite fexp_eq. lia.
Qed.

Lemma mag_finite_lt (s : bool) (m : positive) (e : Z) :
  valid (S754_finite s m e) -> 0 < mag (S754_finite s m e) < 2 ^ 2098.
Proof.
  intros (_ & He & Hd & _)%valid_finite_inv. cbn [mag].
  destruct (Zdigits2_bounds (Z.pos m) ltac:(lia)) as [_ [_ Hm]].
  pose proof (pow2_pos (e + 1074) ltac:(lia)).
  assert (2 ^ Zdigits2 (Z.pos m) <= 2 ^ 53) by (apply Z.pow_le_mono_r; lia).
  assert (2 ^ (e + 1074) <= 2 ^ (971 + 1074)) by (apply Z.pow_le_mono_r; lia).
  assert (2 ^ 2098 = 2 ^ 53 * 2 ^ (971 + 1074)) by done.
  split; nia.
Qed.

Lemma mag_nonneg (f : spec_float) : 0 <= mag f.
Proof.
  destruct f as [| | |s m e]; cbn [mag]; try done.
  destruct (Z.le_gt_cases 0 (e + 1074)).
  - pose proof (pow2_pos (e + 1074) ltac:(lia)). nia.
  - rewrite Z.pow_neg_r by lia. lia.
Qed.

Lemma mag_lt_inf (f : spec_float) :
  valid f -> finite_sf f = true -> mag f < 2 ^ 2098.
Proof.
  destruct f as [| | |s m e]; try done; intros Hv _.
  by apply mag_finite_lt in Hv as [_ ?].
Qed.

Lemma RZ_0 : RZ 0 = 0.
Proof. reflexivity. Qed.

(** A double is its own rounding. *)
Lemma RZ_exact (f : spec_float) :
  valid f -> finite_sf f = true -> RZ (mag f * 2 ^ 1074) = mag f.
Proof.
  destruct f as [s| | |s m e]; try done; intros Hv _.
  pose proof (mag_finite_lt s m e Hv) as Hlt.
  apply valid_finite_inv in Hv as (HF & He & Hd & _).
  cbn [mag] in *. rewrite <- Z.mul_assoc, <- Z.pow_add_r by lia.
  replace (e + 1074 + 1074) with (e + 2148) by lia.
  unfold RZ. rewrite Zdigits2_mul_pow2 by lia. rewrite fexp_eq in HF.
  replace (Z.max (Zdigits2 (Z.pos m) + (e + 2148) - 2201) (-1074)) with e by lia.
  rewrite <- (Z.add_0_l (e + 2148)) at 2. rewrite rne_scale, rne_0_r by lia.
  lia.
Qed.

(** Signed rounding, on all multiples of [2 ^ -2148]. *)
Definition Rs (w : Z) : Z := if w <? 0 then - RZ (- w) else RZ w.

Lemma Rs_mono (w w' : Z) : w <= w' -> Rs w <= Rs w'.
Proof.
  intros H. unfold Rs.
  destruct (Z.ltb_spec w 0), (Z.ltb_spec w' 0); try lia.
  - pose proof (RZ_mono (- w') (- w) ltac:(lia)). lia.
  - pose proof (RZ_nonneg (- w) ltac:(lia)). pose proof (RZ_nonneg w' ltac:(lia)). lia.
  - apply RZ_mono. lia.
Qed.

Lemma Rs_opp (w : Z) : Rs (- w) = - Rs w.
Proof.
  unfold Rs. destruct (Z.ltb_spec w 0), (Z.ltb_spec (- w) 0); try lia.
  - by rewrite Z.opp_involutive.
  - assert (w = 0) as -> by lia. done.
Qed.

Lemma Rs_bounds (w : Z) : - 2 ^ 2098 <= Rs w <= 2 ^ 2098.
Proof.
  unfold Rs. destruct (Z.ltb_spec w 0).
  - pose proof (RZ_le_inf (- w)). pose proof (RZ_nonneg (- w) ltac:(lia)). lia.
  - pose proof (RZ_le_inf w). pose proof (RZ_nonneg w ltac:(lia)). lia.
Qed.

Lemma rank_alt (f : spec_float) :
  rank f = if sgn f then - mag f else mag f.
Proof. unfold rank. by destruct (sgn f). Qed.

(** A rank and a sign make the rounded value. *)
Lemma rank_Rs (r : spec_float) (w : Z) (s : bool) :
  sgn r = s -> mag r = RZ (Z.abs w) -> (w < 0 -> s = true) -> (0 < w -> s = false) ->
  rank r = Rs w.
Proof.
  intros Hs Hm Hneg Hpos. rewrite rank_alt, Hs, Hm. unfold Rs.
  destruct (Z.ltb_spec w 0).
  - rewrite Hneg by done. by rewrite Z.abs_neq by lia.
  - destruct (decide (w = 0)) as [->|]; [cbn; by destruct s|].
    rewrite Hpos by lia. by rewrite Z.abs_eq by lia.
Qed.


(** ** Multiplication *)

Lemma Zdigits2_mul_ge (a b : Z) :
  0 < a -> 0 < b -> Zdigits2 a + Zdigits2 b - 1 <= Zdigits2 (a * b).
Proof.
  intros Ha Hb.
  destruct (Zdigits2_bounds a Ha) as [Ha0 [Hal _]].
  destruct (Zdigits2_bounds b Hb) as [Hb0 [Hbl _]].
  destruct (Zdigits2_bounds (a * b) ltac:(nia)) as [Hab0 [_ Habu]].
  assert (2 ^ (Zdigits2 a - 1 + (Zdigits2 b - 1)) < 2 ^ Zdigits2 (a * b)) as Hlt.
  { rewrite Z.pow_add_r by lia. nia. }
  apply Z.pow_lt_mono_r_iff in Hlt; lia.
Qed.

Lemma SFmul_spec (x y : spec_float) :
  valid x -> valid y -> finite_sf x = true -> finite_sf y = true ->
  let r := SF64mul x y in
  r <> S754_nan /\ sgn r = xorb (sgn x) (sgn y) /\ mag r = RZ (mag x * mag y).
Proof.
  intros Hx Hy Hfx Hfy.
  destruct x as [sx| | |sx mx ex], y as [sy| | |sy my ey]; try done;
    cbn [SF64mul SFmul sgn mag]; rewrite ?Z.mul_0_l, ?Z.mul_0_r; try done.
  apply valid_finite_inv in Hx as (HFx & Hex & Hdx & Hcx).
  apply valid_finite_inv in Hy as (HFy & Hey & Hdy & Hcy).
  destruct (Zdigits2_bounds (Z.pos mx) ltac:(lia)) as [Hdx0 _].
  destruct (Zdigits2_bounds (Z.pos my) ltac:(lia)) as [Hdy0 _].
  pose proof (Zdigits2_mul_ge (Z.pos mx) (Z.pos my) ltac:(lia) ltac:(lia)) as Hd.
  rewrite <- Pos2Z.inj_mul in Hd.
  unfold SF64mul. cbn [SFmul].
  destruct (binary_round_aux_RZ (xorb sx sy) (mx * my) (ex + ey))
    as (Hnan & Hs & Hm); [lia|rewrite fexp_eq; lia|].
  split; [done|]. split; [done|]. rewrite Hm. f_equal.
  rewrite Pos2Z.inj_mul.
  replace (ex + ey + 2148) with ((ex + 1074) + (ey + 1074)) by lia.
  rewrite Z.pow_add_r by lia. lia.
Qed.

(** ** Addition *)

Lemma iter_xO_pow2 (m d : positive) :
  Z.pos (Pos.iter xO m d) = Z.pos m * 2 ^ Z.pos d.
Proof.
  induction d as [|d IH] using Pos.peano_ind.
  - cbn [Pos.iter]. change (Z.pos m~0) with (2 * Z.pos m). change (2 ^ 1) with 2. lia.
  - rewrite Pos.iter_succ, Pos2Z.inj_succ, Z.pow_succ_r by lia.
    change (Z.pos (Pos.iter xO m d)~0) with (2 * Z.pos (Pos.iter xO m d)).
    rewrite IH. lia.
Qed.

Lemma shl_align_spec (m : positive) (e e' : Z) :
  (e' <= e -> Z.pos (fst (shl_align m e e')) = Z.pos m * 2 ^ (e - e') /\
              snd (shl_align m e e') = e') /\
  (e <= e' -> shl_align m e e' = (m, e)).
Proof.
  unfold shl_align. destruct (e' - e) as [|k|k] eqn:E.
  - assert (e' = e) as -> by lia. rewrite Z.sub_diag. cbn. split; [lia|done].
  - split; [lia|done].
  - split; [|lia]. intros _. cbn [fst snd]. rewrite iter_xO_pow2.
    replace (e - e') with (Z.pos k) by lia. split; [done|lia].
Qed.

Lemma binary_round_RZ (s : bool) (m : positive) (e : Z) :
  -2148 <= e ->
  let r := binary_round prec emax s m e in
  r <> S754_nan /\ sgn r = s /\ mag r = RZ (Z.pos m * 2 ^ (e + 2148)).
Proof.
  intros He. unfold binary_round.
  change (Z.pos (digits2_pos m)) with (Zdigits2 (Z.pos m)).
  set (F := fexp prec emax (Zdigits2 (Z.pos m) + e)).
  assert (F = Z.max (Zdigits2 (Z.pos m) + e - 53) (-1074)) as HF by apply fexp_eq.
  destruct (shl_align_spec m e F) as [Hlt Hge].
  destruct (Z_lt_le_dec F e) as [Hcase|Hcase].
  - destruct (Hlt ltac:(lia)) as [Hmz Hez].
    destruct (shl_align m e F) as [mz ez]. cbn [fst snd] in Hmz, Hez. subst ez.
    assert (Zdigits2 (Z.pos mz) + F = Zdigits2 (Z.pos m) + e) as Hd.
    { rewrite Hmz, Zdigits2_mul_pow2 by lia. lia. }
    destruct (binary_round_aux_RZ s mz F) as (Hnan & Hs & Hm);
      [lia|rewrite Hd; fold F; lia|].
    cbv zeta. split; [done|]. split; [done|]. rewrite Hm, Hmz. f_equal.
    rewrite <- Z.mul_assoc, <- Z.pow_add_r by lia. do 2 f_equal. lia.
  - rewrite (Hge Hcase). apply binary_round_aux_RZ; [done|]. by fold F.
Qed.

Lemma binary_normalize_spec (S e : Z) :
  -2148 <= e -> S <> 0 ->
  let r := binary_normalize prec emax S e false in
  r <> S754_nan /\ sgn r = (S <? 0) /\ mag r = RZ (Z.abs S * 2 ^ (e + 2148)).
Proof.
  intros He HS. destruct S as [|p|p]; [done| |]; cbn [binary_normalize Z.abs];
    apply binary_round_RZ; done.
Qed.

Lemma rank_finite (s : bool) (m : positive) (e : Z) :
  rank (S754_finite s m e) = cond_Zopp s (Z.pos m) * 2 ^ (e + 1074).
Proof. unfold rank. cbn [sgn mag]. destruct s; cbn [cond_Zopp]; lia. Qed.

(** Rounding a nonzero multiple of [2 ^ -1074] never gives zero. *)
Lemma RZ_pos (w : Z) : 0 < w -> 0 < RZ (w * 2 ^ 1074).
Proof.
  intros Hw. assert (RZ (1 * 2 ^ 1074) = 1) as H1 by reflexivity.
  pose proof (RZ_mono (1 * 2 ^ 1074) (w * 2 ^ 1074)) as H.
  assert (0 < 2 ^ 1074) by done. rewrite H1 in H. nia.
Qed.

Lemma SFadd_spec (x y : spec_float) :
  valid x -> valid y -> finite_sf x = true -> finite_sf y = true ->
  let r := SF64add x y in
  let S := rank x + rank y in
  r <> S754_nan /\
  mag r = RZ (Z.abs S * 2 ^ 1074) /\
  (S <> 0 -> sgn r = (S <? 0) /\ 0 < mag r) /\
  (S = 0 -> r = S754_zero (sgn x && sgn y)).
Proof.
  intros Hx Hy Hfx Hfy.
  destruct x as [sx| | |sx mx ex], y as [sy| | |sy my ey]; try done.
  - (* zero + zero *)
    cbv zeta. unfold rank. cbn [sgn mag SF64add SFadd cond_Zopp].
    assert (cond_Zopp sx 0 + cond_Zopp sy 0 = 0) as -> by (by destruct sx, sy).
    destruct sx, sy; done.
  - (* zero + finite *)
    pose proof (mag_finite_lt sy my ey Hy) as Hlt.
    pose proof (RZ_exact _ Hy eq_refl) as Hex.
    cbv zeta. unfold SF64add. cbn [SFadd].
    replace (rank (S754_zero sx)) with 0 by (unfold rank; by destruct sx).
    rewrite Z.add_0_l, rank_alt. cbn [sgn] in *.
    split; [done|]. split; [destruct sy; by rewrite ?Z.abs_opp, Z.abs_eq, Hex by lia|].
    split; [|destruct sy; lia].
    intros _. split; [|lia]. destruct sy; symmetry; [apply Z.ltb_lt|apply Z.ltb_ge]; lia.
  - (* finite + zero *)
    pose proof (mag_finite_lt sx mx ex Hx) as Hlt.
    pose proof (RZ_exact _ Hx eq_refl) as Hex.
    cbv zeta. unfold SF64add. cbn [SFadd].
    replace (rank (S754_zero sy)) with 0 by (unfold rank; by destruct sy).
    rewrite Z.add_0_r, rank_alt. cbn [sgn] in *.
    split; [done|]. split; [destruct sx; by rewrite ?Z.abs_opp, Z.abs_eq, Hex by lia|].
    split; [|destruct sx; lia].
    intros _. split; [|lia]. destruct sx; symmetry; [apply Z.ltb_lt|apply Z.ltb_ge]; lia.
  - (* finite + finite *)
    apply valid_finite_inv in Hx as (_ & Hex & _).
    apply valid_finite_inv in Hy as (_ & Hey & _).
    cbv zeta. unfold SF64add. cbn [SFadd]. rewrite !rank_finite.
    set (ez := Z.min ex ey).
    destruct (shl_align_spec mx ex ez) as [[-> _] _]; [lia|].
    destruct (shl_align_spec my ey ez) as [[-> _] _]; [lia|].
    set (Si := cond_Zopp sx (Z.pos mx * 2 ^ (ex - ez))
               + cond_Zopp sy (Z.pos my * 2 ^ (ey - ez))).
    assert (0 < 2 ^ (ez + 1074)) as Hpz by (apply pow2_pos; lia).
    assert (cond_Zopp sx (Z.pos mx) * 2 ^ (ex + 1074)
            + cond_Zopp sy (Z.pos my) * 2 ^ (ey + 1074)
            = Si * 2 ^ (ez + 1074)) as ->.
    { unfold Si.
      replace (ex + 1074) with ((ex - ez) + (ez + 1074)) by lia.
      replace (ey + 1074) with ((ey - ez) + (ez + 1074)) by lia.
      rewrite (Z.pow_add_r 2 (ex - ez)), (Z.pow_add_r 2 (ey - ez)) by lia.
      destruct sx, sy; cbn [cond_Zopp]; ring. }
    destruct (decide (Si = 0)) as [HS0|HS0].
    + rewrite HS0. cbn [binary_normalize]. rewrite Z.mul_0_l. cbn [Z.abs Z.mul sgn mag]. rewrite RZ_0.
      split; [done|]. split; [done|]. split; [done|]. intros _.
      f_equal. unfold Si in HS0. pose proof (pow2_pos (ex - ez) ltac:(lia)).
      pose proof (pow2_pos (ey - ez) ltac:(lia)).
      destruct sx, sy; cbn [cond_Zopp] in HS0; try done; nia.
    + destruct (binary_normalize_spec Si ez ltac:(lia) HS0) as (Hnan & Hs & Hm).
      split; [done|].
      assert (Z.abs (Si * 2 ^ (ez + 1074)) * 2 ^ 1074
              = Z.abs Si * 2 ^ (ez + 2148)) as Habs.
      { rewrite Z.abs_mul, (Z.abs_eq (2 ^ (ez + 1074))) by lia.
        rewrite <- Z.mul_assoc, <- Z.pow_add_r by lia. do 2 f_equal. lia. }
      split; [by rewrite Habs|]. split; [|nia].
      intros _. split.
      * rewrite Hs. destruct (Z.ltb_spec Si 0), (Z.ltb_spec (Si * 2 ^ (ez + 1074)) 0);
          try done; nia.
      * rewrite Hm, <- Habs. apply RZ_pos. nia.
Qed.


(** ** Subtraction, signs and the grid of binary64 values *)

Lemma SFsub_add_opp (x y : spec_float) : SF64sub x y = SF64add x (SFopp y).
Proof.
  destruct x as [sx|sx| |sx mx ex], y as [sy|sy| |sy my ey]; try reflexivity;
    destruct sx, sy; reflexivity.
Qed.

Lemma valid_opp (y : spec_float) : valid y -> valid (SFopp y).
Proof. by destruct y. Qed.

Lemma finite_opp (y : spec_float) : finite_sf (SFopp y) = finite_sf y.
Proof. by destruct y. Qed.

Lemma rank_opp (y : spec_float) : rank (SFopp y) = - rank y.
Proof. destruct y as [[]|[]| |[] m e]; unfold rank; cbn; lia. Qed.

Lemma SFadd_rank (x y : spec_float) :
  valid x -> valid y -> finite_sf x = true -> finite_sf y = true ->
  SF64add x y <> S754_nan /\
  rank (SF64add x y) = Rs ((rank x + rank y) * 2 ^ 1074).
Proof.
  intros Hx Hy Hfx Hfy.
  destruct (SFadd_spec x y Hx Hy Hfx Hfy) as (Hnan & Hm & Hs & Hz).
  split; [done|]. assert (0 < 2 ^ 1074) by done.
  destruct (decide (rank x + rank y = 0)) as [H0|H0].
  - rewrite H0, (Hz H0), Z.mul_0_l. change (Rs 0) with (RZ 0). rewrite RZ_0.
    by destruct (sgn x && sgn y).
  - destruct (Hs H0) as [Hsg _].
    apply (rank_Rs _ _ _ Hsg).
    + rewrite Hm, Z.abs_mul, (Z.abs_eq (2 ^ 1074)) by lia. done.
    + intros. apply Z.ltb_lt. nia.
    + intros. apply Z.ltb_ge. nia.
Qed.

Lemma SFsub_rank (x y : spec_float) :
  valid x -> valid y -> finite_sf x = true -> finite_sf y = true ->
  SF64sub x y <> S754_nan /\
  rank (SF64sub x y) = Rs ((rank x - rank y) * 2 ^ 1074).
Proof.
  intros Hx Hy Hfx Hfy. rewrite SFsub_add_opp.
  destruct (SFadd_rank x (SFopp y)) as [Hn Hr];
    [done|by apply valid_opp|done|by rewrite finite_opp|].
  split; [done|]. rewrite Hr, rank_opp. f_equal; lia.
Qed.

Lemma SFmul_rank (x y : spec_float) :
  valid x -> valid y -> finite_sf x = true -> finite_sf y = true ->
  SF64mul x y <> S754_nan /\
  sgn (SF64mul x y) = xorb (sgn x) (sgn y) /\
  rank (SF64mul x y) = Rs (rank x * rank y).
Proof.
  intros Hx Hy Hfx Hfy.
  destruct (SFmul_spec x y Hx Hy Hfx Hfy) as (Hnan & Hs & Hm).
  split; [done|]. split; [done|].
  pose proof (mag_nonneg x). pose proof (mag_nonneg y).
  apply (rank_Rs _ _ _ Hs).
  - rewrite Hm, Z.abs_mul, !rank_alt.
    destruct (sgn x), (sgn y); rewrite ?Z.abs_opp, !Z.abs_eq by lia; done.
  - rewrite !rank_alt. destruct (sgn x), (sgn y); cbn; try done; nia.
  - rewrite !rank_alt. destruct (sgn x), (sgn y); cbn; try done; nia.
Qed.

(** A binary64 value of magnitude at least [2 ^ (k + 52)] (in units of
    [2 ^ -1074]) is a multiple of [2 ^ k]. *)
Lemma mag_grid (f : spec_float) (k : Z) :
  valid f -> 0 <= k -> 2 ^ (k + 52) <= mag f -> (2 ^ k | mag f).
Proof.
  intros Hv Hk Hm. destruct f as [s|s| |s m e].
  - cbn. apply Z.divide_0_r.
  - cbn. exists (2 ^ (2098 - k)).
    assert (k <= 2098 \/ 2098 < k) as [?|?] by lia.
    + rewrite <- Z.pow_add_r by lia. f_equal. lia.
    + cbn in Hm. assert (2 ^ 2098 < 2 ^ (k + 52)); [|lia].
      apply Z.pow_lt_mono_r; lia.
  - cbn. apply Z.divide_0_r.
  - apply valid_finite_inv in Hv as (_ & He & Hd & _). cbn [mag] in *.
    pose proof (Zdigits2_bounds (Z.pos m) ltac:(lia)) as [_ [_ Hlt]].
    assert (Z.pos m < 2 ^ 53).
    { eapply Z.lt_le_trans; [exact Hlt|]. apply Z.pow_le_mono_r; lia. }
    assert (k <= e + 1074 \/ e + 1074 < k) as [?|?] by lia.
    + exists (Z.pos m * 2 ^ (e + 1074 - k)).
      rewrite <- Z.mul_assoc, <- Z.pow_add_r by lia. do 2 f_equal. lia.
    + assert (Z.pos m * 2 ^ (e + 1074) < 2 ^ (k + 52)); [|lia].
      replace (k + 52) with (53 + (k - 1)) by lia.
      rewrite (Z.pow_add_r 2 53 (k - 1)) by lia.
      assert (2 ^ (e + 1074) <= 2 ^ (k - 1)) by (apply Z.pow_le_mono_r; lia).
      assert (0 < 2 ^ (e + 1074)) by (apply pow2_pos; lia).
      nia.
Qed.

Lemma RZ_grid (w k : Z) :
  0 <= k <= 2098 -> 0 <= w -> (2 ^ (k + 1074) | w) -> (2 ^ k | RZ w).
Proof.
  intros Hk Hw [q Hq]. unfold RZ.
  set (F := Z.max (Zdigits2 w - 2201) (-1074)).
  assert (-1074 <= F) as HF by (unfold F; lia). clearbody F.
  assert (2 ^ k | 2 ^ 2098) as H1.
  { exists (2 ^ (2098 - k)). rewrite <- Z.pow_add_r by lia. f_equal. lia. }
  assert (2 ^ k | rne w (F + 2148) * 2 ^ (F + 1074)) as H2.
  { assert (k <= F + 1074 \/ F + 1074 < k) as [?|?] by lia.
    - exists (rne w (F + 2148) * 2 ^ (F + 1074 - k)).
      rewrite <- Z.mul_assoc, <- Z.pow_add_r by lia. do 2 f_equal. lia.
    - assert (w = (q * 2 ^ (k - F - 1074)) * 2 ^ (F + 2148)) as ->.
      { rewrite Hq, <- Z.mul_assoc, <- Z.pow_add_r by lia. do 2 f_equal. lia. }
      replace (F + 2148) with (0 + (F + 2148)) at 2 by lia.
      rewrite rne_scale, rne_0_r by lia.
      exists q. rewrite <- Z.mul_assoc, <- Z.pow_add_r by lia.
      do 2 f_equal. lia. }
  destruct (Z.min_spec (rne w (F + 2148) * 2 ^ (F + 1074)) (2 ^ 2098))
    as [[_ ->]|[_ ->]]; done.
Qed.

(** ** Doubles through their binary64 value

    [rk x] is the value of the double [x] in units of [2 ^ -1074], an
    integer; infinities sit at [2 ^ 2098] and NaN at [0]. *)

Definition rk (x : float) : Z := rank (Prim2SF x).
Definition finite64 (x : float) : bool := finite_sf (Prim2SF x).
Definition nan64 (x : float) : bool :=
  match Prim2SF x with S754_nan => true | _ => false end.
Definition zero64 (x : float) : bool :=
  match Prim2SF x with S754_zero _ => true | _ => false end.
Definition negzero64 (x : float) : bool :=
  match Prim2SF x with S754_zero true => true | _ => false end.

Lemma Rs_rank (f : spec_float) :
  valid f -> finite_sf f = true -> Rs (rank f * 2 ^ 1074) = rank f.
Proof.
  intros Hv Hf. pose proof (RZ_exact f Hv Hf) as He.
  pose proof (mag_nonneg f). assert (0 < 2 ^ 1074) by done.
  rewrite rank_alt. destruct (sgn f).
  - rewrite Z.mul_opp_l, Rs_opp. f_equal. unfold Rs.
    destruct (Z.ltb_spec (mag f * 2 ^ 1074) 0); [nia|done].
  - unfold Rs. destruct (Z.ltb_spec (mag f * 2 ^ 1074) 0); [nia|done].
Qed.

Lemma Rs_rk (x : float) : finite64 x = true -> Rs (rk x * 2 ^ 1074) = rk x.
Proof. intros. apply Rs_rank; [apply Prim2SF_valid|done]. Qed.

Lemma rk_lt_inf (x : float) : finite64 x = true -> Z.abs (rk x) < 2 ^ 2098.
Proof.
  intros Hf. pose proof (mag_lt_inf _ (Prim2SF_valid x) Hf).
  pose proof (mag_nonneg (Prim2SF x)). unfold rk. rewrite rank_alt.
  destruct (sgn _); lia.
Qed.

Lemma finite_of_rk (x : float) :
  nan64 x = false -> Z.abs (rk x) < 2 ^ 2098 -> finite64 x = true.
Proof.
  unfold nan64, finite64, rk, rank.
  destruct (Prim2SF x) as [s|s| |s m e]; try done.
  destruct s; cbn; lia.
Qed.

Lemma add_rk (x y : float) :
  finite64 x = true -> finite64 y = true ->
  nan64 (x + y) = false /\ rk (x + y) = Rs ((rk x + rk y) * 2 ^ 1074).
Proof.
  intros Hx Hy. unfold nan64, rk. rewrite add_spec.
  destruct (SFadd_rank _ _ (Prim2SF_valid x) (Prim2SF_valid y) Hx Hy) as [Hn Hr].
  split; [by destruct (SF64add _ _)|done].
Qed.

Lemma sub_rk (x y : float) :
  finite64 x = true -> finite64 y = true ->
  nan64 (x - y) = false /\ rk (x - y) = Rs ((rk x - rk y) * 2 ^ 1074).
Proof.
  intros Hx Hy. unfold nan64, rk. rewrite sub_spec.
  destruct (SFsub_rank _ _ (Prim2SF_valid x) (Prim2SF_valid y) Hx Hy) as [Hn Hr].
  split; [by destruct (SF64sub _ _)|done].
Qed.

Lemma mul_rk (x y : float) :
  finite64 x = true -> finite64 y = true ->
  nan64 (x * y) = false /\ rk (x * y) = Rs (rk x * rk y).
Proof.
  intros Hx Hy. unfold nan64, rk. rewrite mul_spec.
  destruct (SFmul_rank _ _ (Prim2SF_valid x) (Prim2SF_valid y) Hx Hy)
    as (Hn & _ & Hr).
  split; [by destruct (SF64mul _ _)|done].
Qed.

Lemma add_finite_inv (x y : float) :
  finite64 (x + y) = true -> finite64 x = true /\ finite64 y = true.
Proof.
  unfold finite64. rewrite add_spec.
  by destruct (Prim2SF x) as [[]|[]| |[] ? ?], (Prim2SF y) as [[]|[]| |[] ? ?].
Qed.

Lemma sub_finite_inv (x y : float) :
  finite64 (x - y) = true -> finite64 x = true /\ finite64 y = true.
Proof.
  unfold finite64. rewrite sub_spec.
  by destruct (Prim2SF x) as [[]|[]| |[] ? ?], (Prim2SF y) as [[]|[]| |[] ? ?].
Qed.

Lemma mul_finite_inv (x y : float) :
  finite64 (x * y) = true -> finite64 x = true /\ finite64 y = true.
Proof.
  unfold finite64. rewrite mul_spec.
  by destruct (Prim2SF x) as [[]|[]| |[] ? ?], (Prim2SF y) as [[]|[]| |[] ? ?].
Qed.

(** *** Intervals with double endpoints *)

Definition itv (x lo hi : float) : Prop :=
  finite64 x = true /\ rk lo <= rk x <= rk hi.

Definition bnd (x b : float) : Prop :=
  finite64 x = true /\ Z.abs (rk x) <= rk b.

Lemma itv_add (x y a b c d : float) :
  itv x a b -> itv y c d ->
  finite64 (a + c) = true -> finite64 (b + d) = true ->
  itv (x + y) (a + c) (b + d).
Proof.
  intros [Hx Hxr] [Hy Hyr] Hl Hh.
  destruct (add_finite_inv _ _ Hl) as [Ha Hc].
  destruct (add_finite_inv _ _ Hh) as [Hb Hd].
  destruct (add_rk x y Hx Hy) as [Hn Hr].
  destruct (add_rk a c Ha Hc) as [_ Hrl].
  destruct (add_rk b d Hb Hd) as [_ Hrh].
  pose proof (rk_lt_inf _ Hl). pose proof (rk_lt_inf _ Hh).
  assert (0 < 2 ^ 1074) by done.
  assert (rk (a + c) <= rk (x + y) <= rk (b + d)).
  { rewrite Hr, Hrl, Hrh. split; apply Rs_mono; nia. }
  split; [|done]. apply finite_of_rk; [done|lia].
Qed.

Lemma itv_sub (x y a b c d : float) :
  itv x a b -> itv y c d ->
  finite64 (a - d) = true -> finite64 (b - c) = true ->
  itv (x - y) (a - d) (b - c).
Proof.
  intros [Hx Hxr] [Hy Hyr] Hl Hh.
  destruct (sub_finite_inv _ _ Hl) as [Ha Hd].
  destruct (sub_finite_inv _ _ Hh) as [Hb Hc].
  destruct (sub_rk x y Hx Hy) as [Hn Hr].
  destruct (sub_rk a d Ha Hd) as [_ Hrl].
  destruct (sub_rk b c Hb Hc) as [_ Hrh].
  pose proof (rk_lt_inf _ Hl). pose proof (rk_lt_inf _ Hh).
  assert (0 < 2 ^ 1074) by done.
  assert (rk (a - d) <= rk (x - y) <= rk (b - c)).
  { rewrite Hr, Hrl, Hrh. split; apply Rs_mono; nia. }
  split; [|done]. apply finite_of_rk; [done|lia].
Qed.

Lemma itv_mul (x y a b c d : float) :
  itv x a b -> itv y c d -> 0 <= rk a -> 0 <= rk c ->
  finite64 (a * c) = true -> finite64 (b * d) = true ->
  itv (x * y) (a * c) (b * d).
Proof.
  intros [Hx Hxr] [Hy Hyr] H0a H0c Hl Hh.
  destruct (mul_finite_inv _ _ Hl) as [Ha Hc].
  destruct (mul_finite_inv _ _ Hh) as [Hb Hd].
  destruct (mul_rk x y Hx Hy) as [Hn Hr].
  destruct (mul_rk a c Ha Hc) as [_ Hrl].
  destruct (mul_rk b d Hb Hd) as [_ Hrh].
  pose proof (rk_lt_inf _ Hl). pose proof (rk_lt_inf _ Hh).
  assert (rk (a * c) <= rk (x * y) <= rk (b * d)).
  { rewrite Hr, Hrl, Hrh. split; apply Rs_mono; nia. }
  split; [|done]. apply finite_of_rk; [done|lia].
Qed.

Lemma itv_const (c : float) : finite64 c = true -> itv c c c.
Proof. intros. split; [done|lia]. Qed.

Lemma itv_bnd (x lo hi b : float) :
  itv x lo hi -> - rk b <= rk lo -> rk hi <= rk b -> bnd x b.
Proof. intros [Hx Hr] ? ?. split; [done|lia]. Qed.

Lemma bnd_add (x y a b : float) :
  bnd x a -> bnd y b -> finite64 (a + b) = true -> bnd (x + y) (a + b).
Proof.
  intros [Hx Hxr] [Hy Hyr] Hh.
  destruct (add_finite_inv _ _ Hh) as [Ha Hb].
  destruct (add_rk x y Hx Hy) as [Hn Hr].
  destruct (add_rk a b Ha Hb) as [_ Hrh].
  pose proof (rk_lt_inf _ Hh). assert (0 < 2 ^ 1074) by done.
  assert (Z.abs (rk (x + y)) <= rk (a + b)).
  { rewrite Hr, Hrh.
    pose proof (Rs_mono ((rk x + rk y) * 2 ^ 1074) ((rk a + rk b) * 2 ^ 1074)).
    pose proof (Rs_mono (- ((rk a + rk b) * 2 ^ 1074)) ((rk x + rk y) * 2 ^ 1074)).
    rewrite Rs_opp in *. lia. }
  split; [|done]. apply finite_of_rk; [done|lia].
Qed.

Lemma bnd_mul (x y a b : float) :
  bnd x a -> bnd y b -> finite64 (a * b) = true -> bnd (x * y) (a * b).
Proof.
  intros [Hx Hxr] [Hy Hyr] Hh.
  destruct (mul_finite_inv _ _ Hh) as [Ha Hb].
  destruct (mul_rk x y Hx Hy) as [Hn Hr].
  destruct (mul_rk a b Ha Hb) as [_ Hrh].
  pose proof (rk_lt_inf _ Hh).
  assert (Z.abs (rk (x * y)) <= rk (a * b)).
  { rewrite Hr, Hrh.
    pose proof (Rs_mono (rk x * rk y) (rk a * rk b)).
    pose proof (Rs_mono (- (rk a * rk b)) (rk x * rk y)).
    rewrite Rs_opp in *. nia. }
  split; [|done]. apply finite_of_rk; [done|lia].
Qed.

Lemma bnd_weaken (x a b : float) : bnd x a -> rk a <= rk b -> bnd x b.
Proof. intros [Hx Hr] ?. split; [done|lia]. Qed.

(** *** Squares and the corner guard *)

(** A square is NaN, [+infinity], or finite and not negative. *)
Definition sq_like (a : float) : Prop :=
  nan64 a = true \/ Prim2SF a = S754_infinity false \/
  (finite64 a = true /\ 0 <= rk a).

Lemma sq_like_sq (x : float) : sq_like (x * x).
Proof.
  unfold sq_like, nan64, finite64, rk.
  pose proof (Prim2SF_valid (x * x)) as Hv. revert Hv. rewrite mul_spec.
  destruct (Prim2SF x) as [s|s| |s m e] eqn:Ex.
  - intros _. right; right. by destruct s.
  - intros _. right; left. by destruct s.
  - intros _. by left.
  - intros Hv.
    pose proof (Prim2SF_valid x) as Hx. rewrite Ex in Hx.
    destruct (SFmul_spec _ _ Hx Hx eq_refl eq_refl) as (Hn & Hs & Hm).
    rewrite xorb_nilpotent in Hs.
    destruct (SF64mul _ _) as [s'|s'| |s' m' e'] eqn:E; try done.
    + right; right. by destruct s'.
    + right; left. cbn in Hs. by subst.
    + right; right. split; [done|]. cbn in Hs. subst s'.
      unfold rank. cbn [sgn cond_Zopp]. apply mag_nonneg.
Qed.

Lemma Rs_neg (k : Z) : k < 0 -> Rs (k * 2 ^ 1074) < 0.
Proof.
  intros Hk. replace (k * 2 ^ 1074) with (- (- k * 2 ^ 1074)) by lia.
  rewrite Rs_opp. pose proof (RZ_pos (- k) ltac:(lia)) as Hp.
  assert (0 < 2 ^ 1074) by done.
  unfold Rs. destruct (Z.ltb_spec (- k * 2 ^ 1074) 0); [nia|lia].
Qed.

Lemma Rs_nonneg (w : Z) : 0 <= w -> 0 <= Rs w.
Proof.
  intros. unfold Rs. destruct (Z.ltb_spec w 0); [lia|by apply RZ_nonneg].
Qed.

Lemma leb0_true (t : float) :
  (0 <=? t)%float = true -> nan64 t = false /\ 0 <= rk t.
Proof.
  rewrite leb_spec. unfold nan64, rk, rank.
  change (Prim2SF 0) with (S754_zero false).
  pose proof (mag_nonneg (Prim2SF t)).
  destruct (Prim2SF t) as [s|s| |s m e]; try done; destruct s; try done;
    cbn in *; intros; split; try done; lia.
Qed.

(** When the guard [t >= 0] of a corner holds for
    [t = 0.5 - a - b] with squares [a] and [b], everything is finite and the
    two subtractions are the rounded exact ones. *)
Lemma guard_inv (a b : float) :
  sq_like a -> sq_like b ->
  (0 <=? 0.5 - a - b)%float = true ->
  finite64 a = true /\ finite64 b = true /\
  finite64 (0.5 - a) = true /\ finite64 (0.5 - a - b) = true /\
  0 <= rk a <= rk 0.5 /\ 0 <= rk b <= rk (0.5 - a) /\
  rk (0.5 - a) <= rk 0.5 /\
  0 <= rk (0.5 - a - b) <= rk (0.5 - a).
Proof.
  intros Ha Hb Hg. apply leb0_true in Hg as [Hn Hr].
  assert (finite64 0.5 = true) as Hhalf by reflexivity.
  assert (0 < 2 ^ 1074) as Hp by done.
  assert (finite64 a = true /\ 0 <= rk a) as [Hfa Ha0].
  { destruct Ha as [Ha|[Ha|Ha]]; [| |done]; exfalso; revert Hn Hr;
      unfold nan64, rk in *; rewrite !sub_spec;
      change (Prim2SF 0.5) with (S754_finite false 4503599627370496 (-53)).
    - destruct (Prim2SF a); done.
    - rewrite Ha. cbn.
      destruct Hb as [Hb|[Hb|[Hb Hb0]]].
      + unfold nan64 in Hb. destruct (Prim2SF b); done.
      + rewrite Hb. cbn. done.
      + unfold finite64 in Hb. destruct (Prim2SF b); try done; cbn; done. }
  destruct (sub_rk 0.5 a Hhalf Hfa) as [Hnu Hru].
  pose proof (rk_lt_inf _ Hfa) as Hai.
  assert (rk (0.5 - a) <= rk 0.5) as Hu1.
  { pose proof (Rs_mono ((rk 0.5 - rk a) * 2 ^ 1074) (rk 0.5 * 2 ^ 1074)
                  ltac:(nia)) as Hm.
    rewrite (Rs_rk 0.5 Hhalf) in Hm. lia. }
  assert (- rk a <= rk (0.5 - a)) as Hu2.
  { assert (0 <= rk 0.5) by done.
    pose proof (Rs_mono (- (rk a * 2 ^ 1074)) ((rk 0.5 - rk a) * 2 ^ 1074)
                  ltac:(nia)) as Hm.
    rewrite Rs_opp, (Rs_rk a Hfa) in Hm. lia. }
  assert (finite64 (0.5 - a) = true) as Hfu.
  { apply finite_of_rk; [done|]. assert (rk 0.5 < 2 ^ 2098) by done. lia. }
  assert (finite64 b = true /\ 0 <= rk b) as [Hfb Hb0].
  { destruct Hb as [Hb|[Hb|Hb]]; [| |done]; exfalso; revert Hn Hr;
      unfold nan64, rk, finite64 in *; rewrite (sub_spec _ b).
    - destruct (Prim2SF (0.5 - a)), (Prim2SF b); done.
    - rewrite Hb. destruct (Prim2SF (0.5 - a)); done. }
  destruct (sub_rk _ b Hfu Hfb) as [Hnt Hrt].
  assert (rk b <= rk (0.5 - a)) as Hbu.
  { destruct (Z_le_gt_dec (rk b) (rk (0.5 - a))) as [|Hgt]; [done|].
    pose proof (Rs_neg (rk (0.5 - a) - rk b) ltac:(lia)). lia. }
  assert (rk a <= rk 0.5) as Ha1.
  { destruct (Z_le_gt_dec (rk a) (rk 0.5)) as [|Hgt]; [done|].
    pose proof (Rs_neg (rk 0.5 - rk a) ltac:(lia)). lia. }
  assert (rk (0.5 - a - b) <= rk (0.5 - a)) as Ht1.
  { pose proof (Rs_mono ((rk (0.5 - a) - rk b) * 2 ^ 1074)
                  (rk (0.5 - a) * 2 ^ 1074) ltac:(nia)) as Hm.
    rewrite (Rs_rk _ Hfu) in Hm. lia. }
  assert (finite64 (0.5 - a - b) = true) as Hft.
  { apply finite_of_rk; [done|]. assert (rk 0.5 < 2 ^ 2098) by done. lia. }
  split_and!; done.
Qed.

Lemma sq_ge (x b : float) :
  finite64 x = true -> finite64 b = true -> 0 <= rk b <= Z.abs (rk x) ->
  rk (b * b) <= rk (x * x).
Proof.
  intros Hx Hb Hr.
  destruct (mul_rk x x Hx Hx) as [_ ->]. destruct (mul_rk b b Hb Hb) as [_ ->].
  apply Rs_mono. nia.
Qed.

Lemma sq_le (x b : float) :
  finite64 x = true -> finite64 b = true -> Z.abs (rk x) <= rk b ->
  rk (x * x) <= rk (b * b).
Proof.
  intros Hx Hb Hr.
  destruct (mul_rk x x Hx Hx) as [_ ->]. destruct (mul_rk b b Hb Hb) as [_ ->].
  apply Rs_mono. nia.
Qed.

Lemma sq_lt_inv (x b : float) :
  finite64 x = true -> finite64 b = true -> 0 <= rk b ->
  rk (x * x) < rk (b * b) -> Z.abs (rk x) < rk b.
Proof.
  intros Hx Hb H0 Hlt.
  destruct (Z_lt_ge_dec (Z.abs (rk x)) (rk b)) as [|Hge]; [done|].
  pose proof (sq_ge x b Hx Hb ltac:(lia)). lia.
Qed.

(** *** Equality up to the sign of zero *)

Definition zeq (a b : float) : Prop :=
  a = b \/ (zero64 a = true /\ zero64 b = true).

Lemma zeq_refl (a : float) : zeq a a.
Proof. by left. Qed.

Ltac sf_cases :=
  unfold zero64, negzero64, nan64, finite64 in *;
  rewrite ?add_spec, ?sub_spec, ?mul_spec, ?ltb_spec, ?leb_spec in *;
  repeat match goal with
         | |- context [Prim2SF ?x] =>
             is_var x; destruct (Prim2SF x) as [[]|[]| |[] ? ?]
         end; try done.

Lemma add_zeros (a b : float) :
  zero64 a = true -> zero64 b = true -> zero64 (a + b) = true.
Proof. intros. sf_cases. Qed.

Lemma sub_zeros (a b : float) :
  zero64 a = true -> zero64 b = true -> zero64 (a - b) = true.
Proof. intros. sf_cases. Qed.

Lemma add_zero_l (a b : float) :
  zero64 a = true -> zero64 b = false -> (a + b)%float = b.
Proof. intros. apply Prim2SF_inj. sf_cases. Qed.

Lemma add_zero_r (a b : float) :
  zero64 b = true -> zero64 a = false -> (a + b)%float = a.
Proof. intros. apply Prim2SF_inj. sf_cases. Qed.

Lemma sub_zero_r (a b : float) :
  zero64 b = true -> zero64 a = false -> (a - b)%float = a.
Proof. intros. apply Prim2SF_inj. sf_cases. Qed.

Lemma sub_zero_l (a a' b : float) :
  zero64 a = true -> zero64 a' = true -> zero64 b = false ->
  (a - b)%float = (a' - b)%float.
Proof. intros. apply Prim2SF_inj. sf_cases. Qed.

Lemma mul_zero_r (a a' c : float) :
  zero64 a = true -> zero64 a' = true -> zeq (c * a) (c * a').
Proof.
  intros Ha Ha'. unfold zeq.
  destruct (finite64 c) eqn:Hc.
  - right. sf_cases.
  - left. apply Prim2SF_inj. sf_cases.
Qed.

Lemma mul_zero_l (a a' c : float) :
  zero64 a = true -> zero64 a' = true -> zeq (a * c) (a' * c).
Proof.
  intros Ha Ha'. unfold zeq.
  destruct (finite64 c) eqn:Hc.
  - right. sf_cases.
  - left. apply Prim2SF_inj. sf_cases.
Qed.

Lemma mul_zeros_sq (a a' : float) :
  zero64 a = true -> zero64 a' = true -> (a * a)%float = (a' * a')%float.
Proof. intros. apply Prim2SF_inj. sf_cases. Qed.

Lemma zeq_add (a a' b b' : float) :
  zeq a a' -> zeq b b' -> zeq (a + b) (a' + b').
Proof.
  intros [->|[Ha Ha']] [->|[Hb Hb']].
  - by left.
  - destruct (zero64 a') eqn:Hz.
    + right. split; by apply add_zeros.
    + left. by rewrite !add_zero_r.
  - destruct (zero64 b') eqn:Hz.
    + right. split; by apply add_zeros.
    + left. by rewrite !add_zero_l.
  - right. split; by apply add_zeros.
Qed.

Lemma zeq_sub (a a' b b' : float) :
  zeq a a' -> zeq b b' -> zeq (a - b) (a' - b').
Proof.
  intros [->|[Ha Ha']] [->|[Hb Hb']].
  - by left.
  - destruct (zero64 a') eqn:Hz.
    + right. split; by apply sub_zeros.
    + left. by rewrite !sub_zero_r.
  - destruct (zero64 b') eqn:Hz.
    + right. split; by apply sub_zeros.
    + left. by apply sub_zero_l.
  - right. split; by apply sub_zeros.
Qed.

Lemma zeq_mul_r (a a' c : float) : zeq a a' -> zeq (c * a) (c * a').
Proof. intros [->|[Ha Ha']]; [by left|by apply mul_zero_r]. Qed.

Lemma zeq_mul_l (a a' c : float) : zeq a a' -> zeq (a * c) (a' * c).
Proof. intros [->|[Ha Ha']]; [by left|by apply mul_zero_l]. Qed.

Lemma zeq_sq (a a' : float) : zeq a a' -> (a * a)%float = (a' * a')%float.
Proof. intros [->|[Ha Ha']]; [done|by apply mul_zeros_sq]. Qed.

(** Adding or subtracting a nonzero double forgets the sign of a zero. *)
Lemma zeq_add_nz (a a' c : float) :
  zeq a a' -> zero64 c = false -> (a + c)%float = (a' + c)%float.
Proof. intros [->|[Ha Ha']] Hc; [done|by rewrite !add_zero_l]. Qed.

Lemma zeq_sub_nz (a a' c : float) :
  zeq a a' -> zero64 c = false -> (a - c)%float = (a' - c)%float.
Proof. intros [->|[Ha Ha']] Hc; [done|by apply sub_zero_l]. Qed.

Lemma zeq_ltb (a a' b b' : float) :
  zeq a a' -> zeq b b' -> (a <? b)%float = (a' <? b')%float.
Proof.
  intros [->|[Ha Ha']] [->|[Hb Hb']]; [done|sf_cases..].
Qed.

(** Only [-0.0] keeps the sign of a zero added to it. *)
Lemma add_zero_not_negzero (z z' b : float) :
  zero64 z = true -> zero64 z' = true -> negzero64 b = false ->
  (z + b)%float = (z' + b)%float.
Proof. intros. apply Prim2SF_inj. sf_cases. Qed.

Lemma negzero_zero (x : float) : negzero64 x = true -> zero64 x = true.
Proof. intros. sf_cases. Qed.

Lemma finite_mul_zero (n : float) :
  finite64 n = true -> zero64 (n * 0) = true.
Proof.
  intros. unfold zero64, finite64 in *. rewrite mul_spec.
  change (Prim2SF 0) with (S754_zero false).
  destruct (Prim2SF n) as [[]|[]| |[] ? ?]; done.
Qed.

(** On doubles that are not NaN, [zeq] is what C's [==] decides. *)
Lemma zeq_eqb (a b : float) :
  zeq a b -> nan64 a = false -> (a =? b)%float = true.
Proof.
  rewrite FloatAxioms.eqb_spec. unfold zeq, zero64, nan64, SFeqb.
  intros [<-|[Ha Hb]] Hn.
  - destruct (Prim2SF a) as [[]|[]| |[] m e]; try done; cbn;
      by rewrite Z.compare_refl, Pos.compare_cont_refl.
  - by destruct (Prim2SF a), (Prim2SF b).
Qed.

Lemma add_zero_zeq (x z : float) : zero64 z = true -> zeq (x + z) x.
Proof.
  intros Hz. destruct (zero64 x) eqn:Hx.
  - right. split; [by apply add_zeros|done].
  - left. by apply add_zero_r.
Qed.

(** *** The grid of doubles and the gradient dot product *)

Definition neg64 (x : float) : bool := sgn (Prim2SF x).

Lemma rk_abs_mag (x : float) : Z.abs (rk x) = mag (Prim2SF x).
Proof.
  unfold rk. rewrite rank_alt. pose proof (mag_nonneg (Prim2SF x)).
  destruct (sgn _); lia.
Qed.

Lemma rk_grid (x : float) (k : Z) :
  0 <= k -> 2 ^ (k + 52) <= Z.abs (rk x) -> (2 ^ k | rk x).
Proof.
  intros Hk Hm. rewrite rk_abs_mag in Hm.
  pose proof (mag_grid _ k (Prim2SF_valid x) Hk Hm) as Hd.
  unfold rk. rewrite rank_alt. destruct (sgn _); [by apply Z.divide_opp_r|done].
Qed.

Lemma Rs_grid (w k : Z) :
  0 <= k <= 2098 -> (2 ^ (k + 1074) | w) -> (2 ^ k | Rs w).
Proof.
  intros Hk Hd. unfold Rs. destruct (Z.ltb_spec w 0).
  - apply Z.divide_opp_r, RZ_grid; [done|lia|by apply Z.divide_opp_r].
  - by apply RZ_grid.
Qed.

Lemma add_grid (x y : float) (k : Z) :
  finite64 x = true -> finite64 y = true -> 0 <= k <= 2098 ->
  (2 ^ k | rk x) -> (2 ^ k | rk y) -> (2 ^ k | rk (x + y)).
Proof.
  intros Hx Hy Hk [p Hp] [q Hq]. destruct (add_rk x y Hx Hy) as [_ ->].
  apply Rs_grid; [done|]. exists (p + q). rewrite Hp, Hq.
  rewrite Z.pow_add_r by lia. ring.
Qed.

(** A sum with a double of at least [0.1875] that sits on the grid of
    [2 ^ -55] stays on the grid of [2 ^ -56]. *)
Lemma add_near_grid (a c : float) :
  finite64 a = true -> finite64 c = true ->
  (2 ^ 1019 | rk c) -> 2 ^ 1071 + 2 ^ 1070 <= rk c ->
  (2 ^ 1018 | rk (a + c)).
Proof.
  intros Ha Hc Hg Hlo.
  destruct (Z_le_gt_dec (2 ^ 1071) (Z.abs (rk a))) as [Hbig|Hsmall].
  - pose proof (rk_grid a 1019 ltac:(lia) Hbig) as Hga.
    destruct (add_grid a c 1019 Ha Hc ltac:(lia) Hga Hg) as [q Hq].
    exists (q * 2). rewrite Hq. change (2 ^ 1019) with (2 * 2 ^ 1018). ring.
  - apply rk_grid; [lia|]. destruct (add_rk a c Ha Hc) as [_ ->].
    assert (0 < 2 ^ 1074) by done.
    pose proof (Rs_mono (2 ^ 1070 * 2 ^ 1074) ((rk a + rk c) * 2 ^ 1074)
                  ltac:(nia)) as Hm.
    assert (Rs (2 ^ 1070 * 2 ^ 1074) = 2 ^ 1070) as He by (by vm_compute).
    change (2 ^ (1018 + 52)) with (2 ^ 1070). lia.
Qed.

(** The components of the 2D gradients. *)
Definition unit64 (g : float) : Prop :=
  g = 1%float \/ g = (-1)%float \/ g = 0%float.

Lemma negzero_rk (x : float) : negzero64 x = true -> rk x = 0.
Proof.
  unfold negzero64, rk. by destruct (Prim2SF x) as [[]|[]| |[] ? ?].
Qed.

Lemma unit_mul (g a : float) :
  unit64 g -> finite64 a = true ->
  finite64 (g * a) = true /\
  (rk (g * a) = rk a \/ rk (g * a) = - rk a \/ rk (g * a) = 0) /\
  (0 < rk a -> negzero64 (g * a) = false).
Proof.
  intros Hg Ha. pose proof (rk_lt_inf a Ha) as Hlt.
  assert (finite64 g = true) as Hfg by (by destruct Hg as [->|[->| ->]]).
  destruct (mul_rk g a Hfg Ha) as [Hn Hr].
  assert (rk (g * a) = rk a \/ rk (g * a) = - rk a \/
          (g = 0%float /\ rk (g * a) = 0)) as Hc.
  { rewrite Hr. destruct Hg as [->|[->| ->]].
    - left. assert (rk 1 = 2 ^ 1074) as -> by (by vm_compute).
      rewrite Z.mul_comm. by apply Rs_rk.
    - right; left. assert (rk (-1) = - 2 ^ 1074) as -> by (by vm_compute).
      rewrite Z.mul_opp_l, Rs_opp, Z.mul_comm. f_equal. by apply Rs_rk.
    - right; right. split; [done|]. by vm_compute. }
  assert (0 < 2 ^ 2098) as Hinf by done.
  assert (finite64 (g * a) = true) as Hf by (apply finite_of_rk; [done|lia]).
  split_and!; [done|lia|]. intros Hpos.
  destruct (negzero64 (g * a)) eqn:Hz; [|done].
  apply negzero_rk in Hz as Hz0. destruct Hc as [Hc|[Hc|[-> Hc]]]; [lia..|].
  exfalso. revert Hz. unfold negzero64, rk, rank in *. rewrite mul_spec.
  change (Prim2SF 0) with (S754_zero false).
  pose proof (mag_nonneg (Prim2SF a)).
  clear Hlt Hinf Hr.
  destruct (Prim2SF a) as [[]|[]| |[] ? ?]; cbn [sgn cond_Zopp] in *;
    try done; lia.
Qed.

Lemma neg_nonzero (u : float) :
  finite64 u = true -> neg64 u = true -> negzero64 u = false -> rk u < 0.
Proof.
  unfold finite64, neg64, negzero64, rk. intros Hf Hs Hz.
  pose proof (Prim2SF_valid u) as Hv.
  destruct (Prim2SF u) as [[]|[]| |[] m e]; try done.
  pose proof (mag_finite_lt _ _ _ Hv). unfold rank. cbn [sgn cond_Zopp]. lia.
Qed.

Lemma neg_nonpos (u : float) : neg64 u = true -> rk u <= 0.
Proof.
  unfold neg64, rk. intros Hs. rewrite rank_alt, Hs.
  pose proof (mag_nonneg (Prim2SF u)). lia.
Qed.

(** The dot product of a gradient with two bounded coordinates on the grid,
    one of them positive: it is never [-0.0] and never a tiny negative
    number. *)
Lemma dot_sign (g0 g1 a b : float) :
  unit64 g0 -> unit64 g1 -> bnd a 1 -> bnd b 1 ->
  (2 ^ 1018 | rk a) -> (2 ^ 1018 | rk b) -> 0 < rk a \/ 0 < rk b ->
  let d := (g0 * a + g1 * b)%float in
  bnd d 2 /\ (neg64 d = false \/ 2 ^ 1018 <= Z.abs (rk d)).
Proof.
  intros Hg0 Hg1 [Ha Hab] [Hb Hbb] Hga Hgb Hpos d.
  destruct (unit_mul g0 a Hg0 Ha) as (Hfu & Hru & Hzu).
  destruct (unit_mul g1 b Hg1 Hb) as (Hfv & Hrv & Hzv).
  set (u := (g0 * a)%float) in *. set (v := (g1 * b)%float) in *.
  assert (bnd u 1) as Hbu by (split; [done|lia]).
  assert (bnd v 1) as Hbv by (split; [done|lia]).
  split; [exact (bnd_add u v 1 1 Hbu Hbv eq_refl)|].
  assert (2 ^ 1018 | rk u) as Hgu.
  { destruct Hru as [->|[->| ->]];
      [done|by apply Z.divide_opp_r|apply Z.divide_0_r]. }
  assert (2 ^ 1018 | rk v) as Hgv.
  { destruct Hrv as [->|[->| ->]];
      [done|by apply Z.divide_opp_r|apply Z.divide_0_r]. }
  destruct (SFadd_spec _ _ (Prim2SF_valid u) (Prim2SF_valid v) Hfu Hfv)
    as (_ & Hm & Hs & Hz).
  fold (rk u) in *. fold (rk v) in *.
  destruct (decide (rk u + rk v = 0)) as [H0|H0].
  - left. unfold neg64, d. rewrite add_spec, (Hz H0). cbn [sgn].
    fold (neg64 u) (neg64 v).
    destruct (neg64 u) eqn:Hsu, (neg64 v) eqn:Hsv; try done. exfalso.
    pose proof (neg_nonpos u Hsu). pose proof (neg_nonpos v Hsv).
    destruct Hpos as [Hp|Hp].
    + pose proof (neg_nonzero u Hfu Hsu (Hzu Hp)). lia.
    + pose proof (neg_nonzero v Hfv Hsv (Hzv Hp)). lia.
  - right. unfold d. rewrite rk_abs_mag, add_spec, Hm.
    assert (2 ^ 1018 <= Z.abs (rk u + rk v)) as Hbig.
    { destruct Hgu as [p Hp], Hgv as [q Hq]. rewrite Hp, Hq in *.
      assert (0 < 2 ^ 1018) by done. nia. }
    assert (RZ (2 ^ 1018 * 2 ^ 1074) = 2 ^ 1018) as He by (by vm_compute).
    assert (0 < 2 ^ 1074) by done.
    pose proof (RZ_mono (2 ^ 1018 * 2 ^ 1074)
                  (Z.abs (rk u + rk v) * 2 ^ 1074) ltac:(nia)). lia.
Qed.

Lemma mul_not_negzero (T d : float) :
  finite64 T = true -> finite64 d = true -> 0 < rk T ->
  neg64 d = false \/ 2 ^ 1074 <= rk T * Z.abs (rk d) ->
  negzero64 (T * d) = false.
Proof.
  intros HT Hd Hpos Hc.
  destruct (SFmul_spec _ _ (Prim2SF_valid T) (Prim2SF_valid d) HT Hd)
    as (_ & Hs & Hm).
  assert (neg64 T = false) as HsT.
  { destruct (neg64 T) eqn:E; [|done]. pose proof (neg_nonpos T E). lia. }
  fold (neg64 T) (neg64 d) in Hs. rewrite HsT in Hs. cbn in Hs.
  rewrite <- !rk_abs_mag in Hm. rewrite (Z.abs_eq (rk T)) in Hm by lia.
  unfold negzero64. rewrite mul_spec.
  destruct Hc as [Hc|Hc].
  - rewrite Hc in Hs. by destruct (SF64mul _ _) as [[]|[]| |[] ? ?].
  - pose proof (RZ_pos 1 ltac:(lia)) as H1.
    pose proof (RZ_mono (1 * 2 ^ 1074) (rk T * Z.abs (rk d)) ltac:(lia)).
    destruct (SF64mul _ _) as [[]|[]| |[] ? ?]; try reflexivity.
    cbn [mag] in Hm. lia.
Qed.

(** *** Monotonicity of the rounded operations *)

Lemma add_rk_mono (x x' y y' : float) :
  finite64 x = true -> finite64 x' = true ->
  finite64 y = true -> finite64 y' = true ->
  rk x <= rk x' -> rk y <= rk y' -> rk (x + y) <= rk (x' + y').
Proof.
  intros Hx Hx' Hy Hy' H1 H2.
  destruct (add_rk x y Hx Hy) as [_ ->].
  destruct (add_rk x' y' Hx' Hy') as [_ ->].
  assert (0 < 2 ^ 1074) by done. apply Rs_mono. nia.
Qed.

Lemma sub_rk_mono (x x' y y' : float) :
  finite64 x = true -> finite64 x' = true ->
  finite64 y = true -> finite64 y' = true ->
  rk x <= rk x' -> rk y' <= rk y -> rk (x - y) <= rk (x' - y').
Proof.
  intros Hx Hx' Hy Hy' H1 H2.
  destruct (sub_rk x y Hx Hy) as [_ ->].
  destruct (sub_rk x' y' Hx' Hy') as [_ ->].
  assert (0 < 2 ^ 1074) by done. apply Rs_mono. nia.
Qed.

Lemma rk_opp (a : float) : rk (- a) = - rk a.
Proof. unfold rk. rewrite opp_spec. apply rank_opp. Qed.

(** *** Comparisons *)

(** On valid binary64 values other than NaN, [SFcompare] compares ranks. *)
Lemma SFcompare_rank (x y : spec_float) :
  valid x -> valid y -> x <> S754_nan -> y <> S754_nan ->
  SFcompare x y = Some (rank x ?= rank y).
Proof.
  intros Hx Hy Hnx Hny.
  assert (0 < 2 ^ 2098) as Hinf by done.
  destruct x as [sx|sx| |sx mx ex]; [| |done|];
    destruct y as [sy|sy| |sy my ey]; try done.
  - by destruct sx, sy.
  - by destruct sx, sy.
  - pose proof (mag_finite_lt _ _ _ Hy) as Hm. unfold rank in *.
    cbn [SFcompare sgn cond_Zopp] in *.
    destruct sx, sy; cbn [cond_Zopp mag]; f_equal; symmetry;
      first [apply Z.compare_lt_iff|apply Z.compare_gt_iff]; cbn [mag] in *; lia.
  - by destruct sx, sy.
  - destruct sx, sy; cbn; f_equal; symmetry;
      first [apply Z.compare_eq_iff|apply Z.compare_lt_iff
            |apply Z.compare_gt_iff]; lia.
  - pose proof (mag_finite_lt _ _ _ Hy) as Hm. unfold rank.
    cbn [SFcompare sgn cond_Zopp].
    destruct sx, sy; cbn [cond_Zopp]; f_equal; symmetry;
      first [apply Z.compare_lt_iff|apply Z.compare_gt_iff];
      change (mag (S754_infinity true)) with (2 ^ 2098);
      change (mag (S754_infinity false)) with (2 ^ 2098); lia.
  - pose proof (mag_finite_lt _ _ _ Hx) as Hm. unfold rank in *.
    cbn [SFcompare sgn cond_Zopp] in *.
    destruct sx, sy; cbn [cond_Zopp mag]; f_equal; symmetry;
      first [apply Z.compare_lt_iff|apply Z.compare_gt_iff]; cbn [mag] in *; lia.
  - pose proof (mag_finite_lt _ _ _ Hx) as Hm. unfold rank.
    cbn [SFcompare sgn cond_Zopp].
    destruct sx, sy; cbn [cond_Zopp]; f_equal; symmetry;
      first [apply Z.compare_lt_iff|apply Z.compare_gt_iff];
      change (mag (S754_infinity true)) with (2 ^ 2098);
      change (mag (S754_infinity false)) with (2 ^ 2098); lia.
  - pose proof (mag_finite_lt _ _ _ Hx) as Hmx.
    pose proof (mag_finite_lt _ _ _ Hy) as Hmy.
    apply valid_finite_inv in Hx as (_ & Hex & Hdx & Hcx).
    apply valid_finite_inv in Hy as (_ & Hey & Hdy & Hcy).
    pose proof (Zdigits2_bounds (Z.pos mx) ltac:(lia)) as (_ & Hlx & Hux).
    pose proof (Zdigits2_bounds (Z.pos my) ltac:(lia)) as (_ & Hly & Huy).
    assert (Z.pos mx < 2 ^ 53) as Hx53.
    { eapply Z.lt_le_trans; [exact Hux|]. apply Z.pow_le_mono_r; lia. }
    assert (Z.pos my < 2 ^ 53) as Hy53.
    { eapply Z.lt_le_trans; [exact Huy|]. apply Z.pow_le_mono_r; lia. }
    assert (ex < ey -> mag (S754_finite sx mx ex) < mag (S754_finite sy my ey))
      as Hlt.
    { intros Hl. cbn [mag]. destruct Hcy as [?|Hd53]; [lia|].
      rewrite Hd53 in Hly. change (2 ^ (53 - 1)) with (2 ^ 52) in Hly.
      replace (ey + 1074) with ((ey - ex - 1) + 1 + (ex + 1074)) by lia.
      rewrite (Z.pow_add_r 2 (ey - ex - 1 + 1) (ex + 1074)) by lia.
      rewrite (Z.pow_add_r 2 (ey - ex - 1) 1) by lia.
      assert (0 < 2 ^ (ex + 1074)) by (apply pow2_pos; lia).
      assert (0 < 2 ^ (ey - ex - 1)) by (apply pow2_pos; lia).
      change (2 ^ 53) with (2 * 2 ^ 52) in Hx53. change (2 ^ 1) with 2.
      set (A := 2 ^ (ex + 1074)) in *. set (B := 2 ^ (ey - ex - 1)) in *.
      assert (Z.pos mx < 2 * Z.pos my) by lia.
      assert (Z.pos mx * A < 2 * Z.pos my * A) by nia.
      assert (2 * Z.pos my * A <= Z.pos my * (B * 2 * A)) by nia. lia. }
    assert (ey < ex -> mag (S754_finite sy my ey) < mag (S754_finite sx mx ex))
      as Hgt.
    { intros Hl. cbn [mag]. destruct Hcx as [?|Hd53]; [lia|].
      rewrite Hd53 in Hlx. change (2 ^ (53 - 1)) with (2 ^ 52) in Hlx.
      replace (ex + 1074) with ((ex - ey - 1) + 1 + (ey + 1074)) by lia.
      rewrite (Z.pow_add_r 2 (ex - ey - 1 + 1) (ey + 1074)) by lia.
      rewrite (Z.pow_add_r 2 (ex - ey - 1) 1) by lia.
      assert (0 < 2 ^ (ey + 1074)) by (apply pow2_pos; lia).
      assert (0 < 2 ^ (ex - ey - 1)) by (apply pow2_pos; lia).
      change (2 ^ 53) with (2 * 2 ^ 52) in Hy53. change (2 ^ 1) with 2.
      set (A := 2 ^ (ey + 1074)) in *. set (B := 2 ^ (ex - ey - 1)) in *.
      assert (Z.pos my < 2 * Z.pos mx) by lia.
      assert (Z.pos my * A < 2 * Z.pos mx * A) by nia.
      assert (2 * Z.pos mx * A <= Z.pos mx * (B * 2 * A)) by nia. lia. }
    assert (ex = ey ->
            (mag (S754_finite sx mx ex) ?= mag (S754_finite sy my ey))
            = Pos.compare_cont Eq mx my) as Heq.
    { intros ->. cbn [mag].
      assert (0 < 2 ^ (ey + 1074)) by (apply pow2_pos; lia).
      change (Pos.compare_cont Eq mx my) with (Z.pos mx ?= Z.pos my).
      destruct (Z.compare_spec (Z.pos mx) (Z.pos my)) as [E|E|E].
      - rewrite E. apply Z.compare_refl.
      - apply Z.compare_lt_iff. nia.
      - apply Z.compare_gt_iff. nia. }
    unfold rank. cbn [SFcompare sgn]. f_equal.
    destruct sx, sy; cbn [cond_Zopp].
    + rewrite Z.compare_opp.
      rewrite (Z.compare_antisym (mag (S754_finite true mx ex))
                 (mag (S754_finite true my ey))).
      destruct (Z.compare_spec ex ey) as [E|E|E].
      * by rewrite (Heq E).
      * by rewrite (proj2 (Z.compare_lt_iff _ _) (Hlt E)).
      * by rewrite (proj2 (Z.compare_gt_iff _ _) (Hgt E)).
    + symmetry. apply Z.compare_lt_iff. lia.
    + symmetry. apply Z.compare_gt_iff. lia.
    + destruct (Z.compare_spec ex ey) as [E|E|E].
      * by rewrite (Heq E).
      * symmetry. apply Z.compare_lt_iff. by apply Hlt.
      * symmetry. apply Z.compare_gt_iff. specialize (Hgt E). lia.
Qed.

Lemma ltb_rk (x y : float) :
  nan64 x = false -> nan64 y = false -> (x <? y)%float = (rk x <? rk y).
Proof.
  intros Hx Hy. rewrite ltb_spec. unfold SFltb, rk, nan64 in *.
  rewrite SFcompare_rank;
    [|apply Prim2SF_valid|apply Prim2SF_valid
     |by destruct (Prim2SF x)|by destruct (Prim2SF y)].
  unfold Z.ltb. by destruct (_ ?= _).
Qed.

Lemma leb_rk (x y : float) :
  nan64 x = false -> nan64 y = false -> (x <=? y)%float = (rk x <=? rk y).
Proof.
  intros Hx Hy. rewrite leb_spec. unfold SFleb, rk, nan64 in *.
  rewrite SFcompare_rank;
    [|apply Prim2SF_valid|apply Prim2SF_valid
     |by destruct (Prim2SF x)|by destruct (Prim2SF y)].
  unfold Z.leb. by destruct (_ ?= _).
Qed.

Lemma finite_not_nan (x : float) : finite64 x = true -> nan64 x = false.
Proof. unfold finite64, nan64. by destruct (Prim2SF x). Qed.

(** A bound on the magnitude, read with the comparisons of doubles. *)
Lemma bnd_leb (x b : float) :
  bnd x b -> finite64 b = true ->
  (- b <=? x)%float = true /\ (x <=? b)%float = true.
Proof.
  intros [Hx Hr] Hb.
  assert (finite64 (- b) = true) as Hnb.
  { unfold finite64 in *. rewrite opp_spec. by destruct (Prim2SF b). }
  rewrite !leb_rk by (by apply finite_not_nan). rewrite rk_opp.
  split; apply Z.leb_le; lia.
Qed.

(** *** Guards over any number of squares

    [c - a - b - ...] with squares [a], [b], ...: each partial difference
    is NaN, [-infinity] or finite, and a final value that passes [>= 0]
    forces every step to be finite. *)

Definition down_like (u : float) : Prop :=
  nan64 u = true \/ Prim2SF u = S754_infinity true \/ finite64 u = true.

Lemma rk_neg_inf (x : float) :
  nan64 x = false -> rk x <= - 2 ^ 2098 -> Prim2SF x = S754_infinity true.
Proof.
  unfold nan64, rk. pose proof (Prim2SF_valid x) as Hv.
  assert (0 < 2 ^ 2098) by done.
  destruct (Prim2SF x) as [[]|[]| |[] m e]; try done; intros _;
    unfold rank; cbn [sgn cond_Zopp];
    try (pose proof (mag_finite_lt _ _ _ Hv)); cbn [mag] in *; lia.
Qed.

Lemma down_like_sub (u b : float) :
  down_like u -> sq_like b -> down_like (u - b).
Proof.
  intros [Hu|[Hu|Hu]] [Hb|[Hb|[Hb Hb0]]]; unfold down_like, nan64, finite64 in *;
    rewrite ?sub_spec; try rewrite Hu; try rewrite Hb;
    try (destruct (Prim2SF u) as [[]|[]| |[] ? ?]; try done;
         destruct (Prim2SF b) as [[]|[]| |[] ? ?]; try done; by auto).
  fold (finite64 u) in Hu. fold (finite64 b) in Hb.
  destruct (sub_rk u b Hu Hb) as [Hn Hr]. unfold nan64 in Hn.
  rewrite sub_spec in Hn.
  pose proof (rk_lt_inf u Hu) as Hlt. assert (0 < 2 ^ 1074) by done.
  pose proof (Rs_mono ((rk u - rk b) * 2 ^ 1074) (rk u * 2 ^ 1074) ltac:(nia))
    as Hm.
  rewrite (Rs_rk u Hu), <- Hr in Hm.
  destruct (Z_le_gt_dec (rk (u - b)) (- 2 ^ 2098)) as [Hle|Hgt].
  - right; left. rewrite <- sub_spec. apply rk_neg_inf; [|done].
    unfold nan64. by rewrite sub_spec.
  - right; right. fold (finite64 (u - b)). rewrite <- sub_spec.
    apply finite_of_rk; [unfold nan64; by rewrite sub_spec|lia].
Qed.

Lemma down_like_finite (c : float) : finite64 c = true -> down_like c.
Proof. intros. by right; right. Qed.

Lemma guard_step (u b : float) :
  down_like u -> sq_like b -> nan64 (u - b) = false -> 0 <= rk (u - b) ->
  finite64 u = true /\ finite64 b = true /\ finite64 (u - b) = true /\
  0 <= rk b <= rk u /\ rk (u - b) <= rk u.
Proof.
  intros Hu Hb Hn Hr. assert (0 < 2 ^ 2098) as Hinf by done.
  assert (finite64 u = true /\ finite64 b = true /\ 0 <= rk b)
    as (Hfu & Hfb & Hb0).
  { destruct Hu as [Hu|[Hu|Hu]], Hb as [Hb|[Hb|[Hb Hb0]]]; try done;
      exfalso; revert Hn Hr; unfold nan64, finite64, rk in *;
      rewrite ?sub_spec; try rewrite Hu; try rewrite Hb;
      destruct (Prim2SF u) as [[]|[]| |[] ? ?]; try done;
      destruct (Prim2SF b) as [[]|[]| |[] ? ?]; try done;
      intros _; unfold rank; cbn [SF64sub SFsub negb sgn cond_Zopp mag]; lia. }
  destruct (sub_rk u b Hfu Hfb) as [_ Hrk].
  pose proof (rk_lt_inf u Hfu) as Hlt. assert (0 < 2 ^ 1074) by done.
  assert (rk b <= rk u) as Hbu.
  { destruct (Z_le_gt_dec (rk b) (rk u)) as [|Hgt]; [done|].
    pose proof (Rs_neg (rk u - rk b) ltac:(lia)). lia. }
  pose proof (Rs_mono ((rk u - rk b) * 2 ^ 1074) (rk u * 2 ^ 1074) ltac:(nia))
    as Hm.
  rewrite (Rs_rk u Hfu), <- Hrk in Hm.
  split_and!; try done; try lia. apply finite_of_rk; [done|lia].
Qed.

(** *** Absolute value *)

Lemma abs_itv (x b : float) : bnd x b -> itv (abs x) 0 b.
Proof.
  intros [Hx Hr]. unfold itv, finite64, rk in *. rewrite abs_spec.
  pose proof (rk_abs_mag x) as Ha. unfold rk in Ha.
  pose proof (mag_nonneg (Prim2SF x)).
  assert (rank (Prim2SF 0) = 0) as -> by done.
  destruct (Prim2SF x) as [s|s| |s m e]; try done;
    unfold rank in *; cbn [SFabs sgn cond_Zopp mag] in *; split; try done; lia.
Qed.

Lemma itv_leb (x lo hi : float) :
  itv x lo hi -> finite64 lo = true -> finite64 hi = true ->
  (lo <=? x)%float = true /\ (x <=? hi)%float = true.
Proof.
  intros [Hx Hr] Hlo Hhi. rewrite !leb_rk by (by apply finite_not_nan).
  split; apply Z.leb_le; lia.
Qed.

Lemma itv_weaken (x lo hi lo' hi' : float) :
  itv x lo hi -> rk lo' <= rk lo -> rk hi <= rk hi' -> itv x lo' hi'.
Proof. intros [Hx Hr] ? ?. split; [done|lia]. Qed.

(** *** A double minus itself *)

Lemma sub_self_finite (x : float) : finite64 x = true -> bnd (x - x) 0.
Proof.
  intros Hx. destruct (sub_rk x x Hx Hx) as [Hn Hr].
  rewrite Z.sub_diag, Z.mul_0_l in Hr. change (Rs 0) with (RZ 0) in Hr.
  rewrite RZ_0 in Hr. assert (0 < 2 ^ 2098) by done.
  split; [apply finite_of_rk; [done|lia]|]. rewrite Hr. done.
Qed.

Lemma sub_self_nonfinite (x : float) :
  finite64 x = false -> nan64 (x - x) = true.
Proof.
  unfold finite64, nan64. rewrite sub_spec.
  by destruct (Prim2SF x) as [[]|[]| |[] ? ?].
Qed.

(** [fabs (x - x) < c] for a positive [c]: true exactly for finite [x]. *)
Lemma abs_sub_self_ltb (x c : float) :
  finite64 c = true -> 0 < rk c ->
  (abs (x - x) <? c)%float = finite64 x.
Proof.
  intros Hc Hpos. destruct (finite64 x) eqn:Hx.
  - destruct (abs_itv _ _ (sub_self_finite x Hx)) as [Hf Hr].
    rewrite ltb_rk by (by apply finite_not_nan).
    apply Z.ltb_lt. assert (rk 0 = 0) as H0 by done. lia.
  - apply sub_self_nonfinite in Hx. unfold nan64 in Hx.
    rewrite ltb_spec, abs_spec.
    by destruct (Prim2SF (x - x)).
Qed.

(** What C's [==] says of two doubles: they are equal, or both are zeros. *)
Lemma eqb_zeq (a b : float) : (a =? b)%float = true -> zeq a b.
Proof.
  rewrite FloatAxioms.eqb_spec. unfold zeq, zero64, SFeqb. intros H.
  destruct (Prim2SF a) as [sa|sa| |sa ma ea] eqn:Ea;
    destruct (Prim2SF b) as [sb|sb| |sb mb eb] eqn:Eb;
    cbn [SFcompare] in H; try discriminate;
    try (by right); try (by destruct sa); try (by destruct sb);
    left; apply Prim2SF_inj; rewrite Ea, Eb.
  - by destruct sa, sb.
  - assert (sa = sb /\ (ea ?= eb) = Eq /\ Pos.compare_cont Eq ma mb = Eq)
      as (-> & He & Hm).
    { destruct sa, sb; try discriminate; destruct (ea ?= eb); try discriminate;
        destruct (Pos.compare_cont Eq ma mb); try discriminate; done. }
    apply Z.compare_eq in He as ->. by apply Pos.compare_eq in Hm as ->.
Qed.

(** [==] with a double that is no zero decides equality. *)
Lemma eqb_eq_nonzero (a c : float) :
  zero64 c = false -> (a =? c)%float = true -> a = c.
Proof.
  intros Hc H. destruct (eqb_zeq _ _ H) as [|[_ Hz]]; [done|congruence].
Qed.


(** *** Integers and doubles *)

(** [trunc_double] is truncation towards zero of the value. *)
Lemma trunc_double_rk (x : float) :
  finite64 x = true -> trunc_double x = Some (Z.quot (rk x) (2 ^ 1074)).
Proof.
  unfold trunc_double, finite64, rk. pose proof (Prim2SF_valid x) as Hv.
  destruct (Prim2SF x) as [s|s| |s m e]; try done; intros _.
  - f_equal. unfold rank. cbn [sgn mag]. destruct s; cbn [cond_Zopp];
      by rewrite ?Z.opp_0, Z.quot_0_l.
  - apply valid_finite_inv in Hv as (_ & He & _). f_equal.
    rewrite rank_finite.
    assert (0 < 2 ^ 1074) as HP by done.
    assert (Z.quot (Z.pos m * 2 ^ (e + 1074)) (2 ^ 1074)
            = match e with
              | Z.neg k => Z.shiftr (Z.pos m) (Z.pos k)
              | _ => Z.shiftl (Z.pos m) e
              end) as Hq.
    { pose proof (pow2_pos (e + 1074) ltac:(lia)).
      rewrite Z.quot_div_nonneg by lia.
      destruct e as [|k|k].
      - rewrite Z.shiftl_0_r. cbn [Z.add]. by rewrite Z.div_mul.
      - rewrite Z.shiftl_mul_pow2 by lia.
        rewrite (Z.pow_add_r 2 (Z.pos k) 1074) by lia.
        rewrite Z.mul_assoc. by rewrite Z.div_mul.
      - rewrite Z.shiftr_div_pow2 by lia.
        assert (2 ^ 1074 = 2 ^ Z.pos k * 2 ^ (Z.neg k + 1074)) as ->.
        { rewrite <- Z.pow_add_r by lia. f_equal. lia. }
        rewrite Z.div_mul_cancel_r; [done| |lia].
        pose proof (pow2_pos (Z.pos k) ltac:(lia)). lia. }
    destruct s; cbn [cond_Zopp].
    + rewrite Z.mul_opp_l, Z.quot_opp_l by lia. by rewrite Hq.
    + done.
Qed.

(** Two doubles of the same non-zero value are the same double. *)
Lemma rk_inj (x y : float) :
  nan64 x = false -> nan64 y = false -> rk x = rk y -> rk x <> 0 -> x = y.
Proof.
  intros Hx Hy Hr H0.
  assert ((x =? y)%float = true) as He.
  { rewrite FloatAxioms.eqb_spec. unfold SFeqb.
    rewrite SFcompare_rank;
      [|apply Prim2SF_valid|apply Prim2SF_valid
       |unfold nan64 in Hx; by destruct (Prim2SF x)
       |unfold nan64 in Hy; by destruct (Prim2SF y)].
    fold (rk x). fold (rk y). by rewrite Hr, Z.compare_refl. }
  destruct (eqb_zeq _ _ He) as [|[Hz _]]; [done|].
  exfalso. apply H0. unfold zero64, rk in *.
  by destruct (Prim2SF x) as [[]| | |].
Qed.

(** Only the zeros have the value zero. *)
Lemma rk_zero (x : float) : finite64 x = true -> rk x = 0 -> zero64 x = true.
Proof.
  unfold finite64, rk, zero64. pose proof (Prim2SF_valid x) as Hv.
  destruct (Prim2SF x) as [s|s| |s m e]; try done. intros _ Hr.
  pose proof (mag_finite_lt s m e Hv). unfold rank in Hr.
  destruct s; cbn [sgn cond_Zopp] in Hr; lia.
Qed.

(** An integer below [2 ^ 53] needs no rounding. *)
Lemma RZ_int_exact (n : Z) :
  0 < n < 2 ^ 53 -> RZ (n * 2 ^ 2148) = n * 2 ^ 1074.
Proof.
  intros Hn. unfold RZ. rewrite Zdigits2_mul_pow2 by lia.
  destruct (Zdigits2_bounds n ltac:(lia)) as [Hd0 Hd].
  assert (Zdigits2 n <= 53) as Hd53.
  { destruct (Z_le_gt_dec (Zdigits2 n) 53) as [|Hgt]; [done|].
    assert (2 ^ 53 <= 2 ^ (Zdigits2 n - 1)) by (apply Z.pow_le_mono_r; lia).
    lia. }
  replace (Z.max (Zdigits2 n + 2148 - 2201) (-1074)) with (Zdigits2 n - 53)
    by lia.
  set (F := Zdigits2 n - 53) in *.
  assert (n * 2 ^ 2148 = n * 2 ^ (- F) * 2 ^ (F + 2148)) as ->.
  { rewrite <- Z.mul_assoc, <- Z.pow_add_r by lia. do 2 f_equal. lia. }
  pose proof (rne_scale (n * 2 ^ (- F)) 0 (F + 2148) ltac:(lia) ltac:(lia))
    as Hs.
  rewrite Z.add_0_l, rne_0_r in Hs. rewrite Hs.
  rewrite <- Z.mul_assoc, <- Z.pow_add_r by lia.
  replace (- F + (F + 1074)) with 1074 by lia.
  assert (2 ^ 2098 = 2 ^ 53 * 2 ^ 1074 * 2 ^ 971) by done.
  assert (0 < 2 ^ 1074) by done. nia.
Qed.

(** The sign given to [binary_round_aux] does not decide whether its result
    is a valid double. *)
Lemma binary_round_aux_valid_sign (m e : Z) (l : location) :
  SpecFloat.valid_binary prec emax (binary_round_aux prec emax true m e l)
  = SpecFloat.valid_binary prec emax
      (binary_round_aux prec emax false m e l).
Proof.
  unfold binary_round_aux.
  destruct (shr_fexp prec emax m e l) as [mrs e'].
  destruct (shr_fexp prec emax _ e' loc_Exact) as [mrs' e''].
  destruct (shr_m mrs'); [done| |done]. by destruct (e'' <=? emax - prec).
Qed.

Lemma binary_normalize_valid (i : Z) :
  Z.abs i < 2 ^ 63 -> valid (binary_normalize prec emax i 0 false).
Proof.
  intros Hi.
  assert (forall p, Z.pos p < 2 ^ 63 ->
            valid (binary_normalize prec emax (Z.pos p) 0 false)) as Hpos.
  { intros p Hp.
    pose proof (Prim2SF_valid (of_uint63 (Uint63.of_Z (Z.pos p)))) as Hv.
    rewrite of_uint63_spec, Uint63.of_Z_spec in Hv.
    rewrite Z.mod_small in Hv; [done|].
    change Uint63.wB with (2 ^ 63). lia. }
  destruct i as [|p|p]; [done|by apply Hpos|].
  specialize (Hpos p ltac:(lia)).
  cbn [binary_normalize] in *. unfold binary_round in *.
  destruct (shl_align p 0 _) as [mz ez].
  by rewrite binary_round_aux_valid_sign.
Qed.

(** [(double)i] is exact. *)
Lemma rk_double_of_int (i : Z) :
  Z.abs i < 2 ^ 53 ->
  finite64 (double_of_int i) = true /\ rk (double_of_int i) = i * 2 ^ 1074.
Proof.
  intros Hi. unfold double_of_int, finite64, rk.
  rewrite Prim2SF_SF2Prim
    by (apply binary_normalize_valid;
        assert (2 ^ 53 < 2 ^ 63) by done; lia).
  destruct (decide (i = 0)) as [->|Hne]; [done|].
  destruct (binary_normalize_spec i 0 ltac:(lia) Hne) as (Hnan & Hs & Hm).
  cbv zeta in *. cbn [Z.add] in Hm.
  rewrite RZ_int_exact in Hm by lia.
  assert (0 < 2 ^ 1074) as HP by done.
  assert (2 ^ 2098 = 2 ^ 53 * 2 ^ 1074 * 2 ^ 971) as Hinf by done.
  destruct (binary_normalize prec emax i 0 false) as [s|s| |s m e] eqn:E;
    [| |done|].
  - cbn [mag] in Hm. nia.
  - cbn [mag] in Hm. exfalso. nia.
  - split; [done|]. unfold rank. rewrite Hs, Hm.
    destruct (Z.ltb_spec i 0); cbn [cond_Zopp]; lia.
Qed.

End Binary64.

Import Binary64.

(** * The noise functions *)

Section Engine.

(** [(int)x] is undefined in C when the integral part of [x] does not fit an
    [int] (or [x] is infinite or NaN).  What the platform returns there is
    the parameter [int_of_double_oor] (x86-64 returns [INT_MIN]). *)
Variable int_of_double_oor : double -> Z.

Definition int_of_double (x : double) : Z :=
  match trunc_double x with
  | Some z => if (INT_MIN <=? z) && (z <=? INT_MAX) then z else s32 (int_of_double_oor x)
  | None => s32 (int_of_double_oor x)
  end.

(** ** Gradient tables *)

Definition grad2 : list (double * double) :=
  [(1, 1); (-1, 1); (1, -1); (-1, -1); (1, 0); (-1, 0); (0, 1); (0, -1)]%float.

Definition grad3 : list (double * double * double) :=
  [(1, 1, 0); (-1, 1, 0); (1, -1, 0); (-1, -1, 0);
   (1, 0, 1); (-1, 0, 1); (1, 0, -1); (-1, 0, -1);
   (0, 1, 1); (0, -1, 1); (0, 1, -1); (0, -1, -1)]%float.

Definition grad4 : list (double * double * double * double) :=
  [(0, 1, 1, 1); (0, 1, 1, -1); (0, 1, -1, 1); (0, 1, -1, -1);
   (0, -1, 1, 1); (0, -1, 1, -1); (0, -1, -1, 1); (0, -1, -1, -1);
   (1, 0, 1, 1); (1, 0, 1, -1); (1, 0, -1, 1); (1, 0, -1, -1);
   (-1, 0, 1, 1); (-1, 0, 1, -1); (-1, 0, -1, 1); (-1, 0, -1, -1);
   (1, 1, 0, 1); (1, 1, 0, -1); (1, -1, 0, 1); (1, -1, 0, -1);
   (-1, 1, 0, 1); (-1, 1, 0, -1); (-1, -1, 0, 1); (-1, -1, 0, -1);
   (1, 1, 1, 0); (1, 1, -1, 0); (1, -1, 1, 0); (1, -1, -1, 0);
   (-1, 1, 1, 0); (-1, 1, -1, 0); (-1, -1, 1, 0); (-1, -1, -1, 0)]%float.

Definition grad2_at (k : Z) : double * double :=
  nth (Z.to_nat k) grad2 (0, 0)%float.
Definition grad3_at (k : Z) : double * double * double :=
  nth (Z.to_nat k) grad3 (0, 0, 0)%float.
Definition grad4_at (k : Z) : double * double * double * double :=
  nth (Z.to_nat k) grad4 (0, 0, 0, 0)%float.

Definition dot2d (g : double * double) (x y : double) : double :=
  (fst g * x + snd g * y)%float.

Definition dot3d (g : double * double * double) (x y z : double) : double :=
  let '(g0, g1, g2) := g in (g0 * x + g1 * y + g2 * z)%float.

Definition dot4d (g : double * double * double * double) (x y z w : double)
  : double :=
  let '(g0, g1, g2, g3) := g in (g0 * x + g1 * y + g2 * z + g3 * w)%float.

(** [x > 0 ? (int)x : (int)x - 1] *)
Definition fast_floor (x : double) : Z :=
  if (0 <? x)%float then int_of_double x else s32 (int_of_double x - 1).

(** ** The kernels *)

(** The body of [simplex_noise_1d] below the lazy-initialisation guard. *)
Definition noise_1d_body (p : list Z) (x : double) : double :=
  let i0 := fast_floor x in
  let i1 := s32 (i0 + 1) in
  let x0 := (x - double_of_int i0)%float in
  let x1 := (x0 - 1.0)%float in
  let t0 := (1.0 - x0 * x0)%float in
  let t1 := (1.0 - x1 * x1)%float in
  let t0 := (t0 * t0)%float in
  let t1 := (t1 * t1)%float in
  let n0 := (t0 * t0 * dot2d (grad2_at (Z.land (rd p (Z.land i0 255)) 7)) x0 0)%float in
  let n1 := (t1 * t1 * dot2d (grad2_at (Z.land (rd p (Z.land i1 255)) 7)) x1 0)%float in
  (70.0 * (n0 + n1))%float.

(** One corner of the 2D simplex: [if (t >= 0) { t *= t; n = t * t * dot; }],
    and [n = 0.0] otherwise. *)
Definition corner2 (t : double) (gi : Z) (x y : double) : double :=
  if (0 <=? t)%float then
    let t := (t * t)%float in (t * t * dot2d (grad2_at gi) x y)%float
  else 0%float.

Definition F2 : double := (0.5 * (sqrt 3.0 - 1.0))%float.
Definition G2 : double := ((3.0 - sqrt 3.0) / 6.0)%float.

Definition noise_2d_body (p : list Z) (x y : double) : double :=
  let s := ((x + y) * F2)%float in
  let i := fast_floor (x + s)%float in
  let j := fast_floor (y + s)%float in
  let t := (double_of_int (s32 (i + j)) * G2)%float in
  let x0 := (x - (double_of_int i - t))%float in
  let y0 := (y - (double_of_int j - t))%float in
  let '(i1, j1) := if (y0 <? x0)%float then (1, 0) else (0, 1) in
  let x1 := (x0 - double_of_int i1 + G2)%float in
  let y1 := (y0 - double_of_int j1 + G2)%float in
  let x2 := (x0 - 1.0 + 2.0 * G2)%float in
  let y2 := (y0 - 1.0 + 2.0 * G2)%float in
  let ii := Z.land i 255 in
  let jj := Z.land j 255 in
  let gi0 := Z.rem (rd p (ii + rd p jj)) 8 in
  let gi1 := Z.rem (rd p (ii + i1 + rd p (jj + j1))) 8 in
  let gi2 := Z.rem (rd p (ii + 1 + rd p (jj + 1))) 8 in
  let n0 := corner2 (0.5 - x0 * x0 - y0 * y0)%float gi0 x0 y0 in
  let n1 := corner2 (0.5 - x1 * x1 - y1 * y1)%float gi1 x1 y1 in
  let n2 := corner2 (0.5 - x2 * x2 - y2 * y2)%float gi2 x2 y2 in
  (70.0 * (n0 + n1 + n2))%float.

Definition corner3 (t : double) (gi : Z) (x y z : double) : double :=
  if (0 <=? t)%float then
    let t := (t * t)%float in (t * t * dot3d (grad3_at gi) x y z)%float
  else 0%float.

Definition F3 : double := (1.0 / 3.0)%float.
Definition G3 : double := (1.0 / 6.0)%float.

Definition noise_3d_body (p : list Z) (x y z : double) : double :=
  let s := ((x + y + z) * F3)%float in
  let i := fast_floor (x + s)%float in
  let j := fast_floor (y + s)%float in
  let k := fast_floor (z + s)%float in
  let t := (double_of_int (s32 (s32 (i + j) + k)) * G3)%float in
  let x0 := (x - (double_of_int i - t))%float in
  let y0 := (y - (double_of_int j - t))%float in
  let z0 := (z - (double_of_int k - t))%float in
  let '(i1, j1, k1, i2, j2, k2) :=
    if (y0 <=? x0)%float then
      if (z0 <=? y0)%float then (1, 0, 0, 1, 1, 0)
      else if (z0 <=? x0)%float then (1, 0, 0, 1, 0, 1)
      else (0, 0, 1, 1, 0, 1)
    else
      if (y0 <? z0)%float then (0, 0, 1, 0, 1, 1)
      else if (x0 <? z0)%float then (0, 1, 0, 0, 1, 1)
      else (0, 1, 0, 1, 1, 0) in
  let x1 := (x0 - double_of_int i1 + G3)%float in
  let y1 := (y0 - double_of_int j1 + G3)%float in
  let z1 := (z0 - double_of_int k1 + G3)%float in
  let x2 := (x0 - double_of_int i2 + 2.0 * G3)%float in
  let y2 := (y0 - double_of_int j2 + 2.0 * G3)%float in
  let z2 := (z0 - double_of_int k2 + 2.0 * G3)%float in
  let x3 := (x0 - 1.0 + 3.0 * G3)%float in
  let y3 := (y0 - 1.0 + 3.0 * G3)%float in
  let z3 := (z0 - 1.0 + 3.0 * G3)%float in
  let ii := Z.land i 255 in
  let jj := Z.land j 255 in
  let kk := Z.land k 255 in
  let gi0 := Z.rem (rd p (ii + rd p (jj + rd p kk))) 12 in
  let gi1 := Z.rem (rd p (ii + i1 + rd p (jj + j1 + rd p (kk + k1)))) 12 in
  let gi2 := Z.rem (rd p (ii + i2 + rd p (jj + j2 + rd p (kk + k2)))) 12 in
  let gi3 := Z.rem (rd p (ii + 1 + rd p (jj + 1 + rd p (kk + 1)))) 12 in
  let n0 := corner3 (0.6 - x0 * x0 - y0 * y0 - z0 * z0)%float gi0 x0 y0 z0 in
  let n1 := corner3 (0.6 - x1 * x1 - y1 * y1 - z1 * z1)%float gi1 x1 y1 z1 in
  let n2 := corner3 (0.6 - x2 * x2 - y2 * y2 - z2 * z2)%float gi2 x2 y2 z2 in
  let n3 := corner3 (0.6 - x3 * x3 - y3 * y3 - z3 * z3)%float gi3 x3 y3 z3 in
  (32.0 * (n0 + n1 + n2 + n3))%float.

Definition corner4 (t : double) (gi : Z) (x y z w : double) : double :=
  if (0 <=? t)%float then
    let t := (t * t)%float in (t * t * dot4d (grad4_at gi) x y z w)%float
  else 0%float.

Definition F4 : double := ((sqrt 5.0 - 1.0) / 4.0)%float.
Definition G4 : double := ((5.0 - sqrt 5.0) / 20.0)%float.

(** [static const int simplex[64][4]] *)
Definition simplex : list (Z * Z * Z * Z) :=
  [(0, 1, 2, 3); (0, 1, 3, 2); (0, 0, 1, 1); (0, 2, 3, 1); (0, 0, 1, 1); (0, 0, 1, 1);
   (0, 0, 1, 1); (1, 2, 3, 0); (0, 2, 1, 3); (0, 0, 1, 1); (0, 0, 1, 1); (0, 0, 1, 1);
   (1, 3, 0, 2); (0, 0, 1, 1); (0, 0, 1, 1); (0, 0, 1, 1); (0, 0, 1, 1); (0, 0, 1, 1);
   (0, 0, 1, 1); (0, 0, 1, 1); (0, 0, 1, 1); (0, 0, 1, 1); (0, 0, 1, 1); (0, 0, 1, 1);
   (1, 2, 0, 3); (0, 0, 1, 1); (0, 0, 1, 1); (0, 0, 1, 1); (1, 3, 2, 0); (0, 0, 1, 1);
   (0, 0, 1, 1); (0, 0, 1, 1); (0, 0, 1, 1); (0, 0, 1, 1); (0, 0, 1, 1); (0, 0, 1, 1);
   (0, 0, 1, 1); (0, 0, 1, 1); (0, 0, 1, 1); (0, 0, 1, 1); (2, 3, 0, 1); (0, 0, 1, 1);
   (0, 0, 1, 1); (0, 0, 1, 1); (2, 3, 1, 0); (0, 0, 1, 1); (0, 0, 1, 1); (0, 0, 1, 1);
   (0, 0, 1, 1); (0, 0, 1, 1); (0, 0, 1, 1); (0, 0, 1, 1); (0, 0, 1, 1); (0, 0, 1, 1);
   (0, 0, 1, 1); (0, 0, 1, 1); (2, 0, 3, 1); (0, 0, 1, 1); (0, 0, 1, 1); (0, 0, 1, 1);
   (3, 0, 1, 2); (3, 1, 0, 2); (0, 0, 1, 1); (0, 0, 1, 1)].

Definition simplex_at (c : Z) : Z * Z * Z * Z :=
  nth (Z.to_nat c) simplex (0, 0, 0, 0).

(** [v >= k ? 1 : 0] *)
Definition ge01 (v k : Z) : Z := if k <=? v then 1 else 0.

Definition noise_4d_body (p : list Z) (x y z w : double) : double :=
  let s := ((x + y + z + w) * F4)%float in
  let i := fast_floor (x + s)%float in
  let j := fast_floor (y + s)%float in
  let k := fast_floor (z + s)%float in
  let l := fast_floor (w + s)%float in
  let t := (double_of_int (s32 (s32 (s32 (i + j) + k) + l)) * G4)%float in
  let x0 := (x - (double_of_int i - t))%float in
  let y0 := (y - (double_of_int j - t))%float in
  let z0 := (z - (double_of_int k - t))%float in
  let w0 := (w - (double_of_int l - t))%float in
  let c1 := if (y0 <? x0)%float then 32 else 0 in
  let c2 := if (z0 <? x0)%float then 16 else 0 in
  let c3 := if (z0 <? y0)%float then 8 else 0 in
  let c4 := if (w0 <? x0)%float then 4 else 0 in
  let c5 := if (w0 <? y0)%float then 2 else 0 in
  let c6 := if (w0 <? z0)%float then 1 else 0 in
  let c := c1 + c2 + c3 + c4 + c5 + c6 in
  let '(s0, s1, s2, s3) := simplex_at c in
  let i1 := ge01 s0 3 in let j1 := ge01 s1 3 in
  let k1 := ge01 s2 3 in let l1 := ge01 s3 3 in
  let i2 := ge01 s0 2 in let j2 := ge01 s1 2 in
  let k2 := ge01 s2 2 in let l2 := ge01 s3 2 in
  let i3 := ge01 s0 1 in let j3 := ge01 s1 1 in
  let k3 := ge01 s2 1 in let l3 := ge01 s3 1 in
  let x1 := (x0 - double_of_int i1 + G4)%float in
  let y1 := (y0 - double_of_int j1 + G4)%float in
  let z1 := (z0 - double_of_int k1 + G4)%float in
  let w1 := (w0 - double_of_int l1 + G4)%float in
  let x2 := (x0 - double_of_int i2 + 2.0 * G4)%float in
  let y2 := (y0 - double_of_int j2 + 2.0 * G4)%float in
  let z2 := (z0 - double_of_int k2 + 2.0 * G4)%float in
  let w2 := (w0 - double_of_int l2 + 2.0 * G4)%float in
  let x3 := (x0 - double_of_int i3 + 3.0 * G4)%float in
  let y3 := (y0 - double_of_int j3 + 3.0 * G4)%float in
  let z3 := (z0 - double_of_int k3 + 3.0 * G4)%float in
  let w3 := (w0 - double_of_int l3 + 3.0 * G4)%float in
  let x4 := (x0 - 1.0 + 4.0 * G4)%float in
  let y4 := (y0 - 1.0 + 4.0 * G4)%float in
  let z4 := (z0 - 1.0 + 4.0 * G4)%float in
  let w4 := (w0 - 1.0 + 4.0 * G4)%float in
  let ii := Z.land i 255 in
  let jj := Z.land j 255 in
  let kk := Z.land k 255 in
  let ll := Z.land l 255 in
  let gi0 := Z.rem (rd p (ii + rd p (jj + rd p (kk + rd p ll)))) 32 in
  let gi1 := Z.rem (rd p (ii + i1 + rd p (jj + j1 + rd p (kk + k1 + rd p (ll + l1))))) 32 in
  let gi2 := Z.rem (rd p (ii + i2 + rd p (jj + j2 + rd p (kk + k2 + rd p (ll + l2))))) 32 in
  let gi3 := Z.rem (rd p (ii + i3 + rd p (jj + j3 + rd p (kk + k3 + rd p (ll + l3))))) 32 in
  let gi4 := Z.rem (rd p (ii + 1 + rd p (jj + 1 + rd p (kk + 1 + rd p (ll + 1))))) 32 in
  let n0 := corner4 (0.6 - x0 * x0 - y0 * y0 - z0 * z0 - w0 * w0)%float gi0 x0 y0 z0 w0 in
  let n1 := corner4 (0.6 - x1 * x1 - y1 * y1 - z1 * z1 - w1 * w1)%float gi1 x1 y1 z1 w1 in
  let n2 := corner4 (0.6 - x2 * x2 - y2 * y2 - z2 * z2 - w2 * w2)%float gi2 x2 y2 z2 w2 in
  let n3 := corner4 (0.6 - x3 * x3 - y3 * y3 - z3 * z3 - w3 * w3)%float gi3 x3 y3 z3 w3 in
  let n4 := corner4 (0.6 - x4 * x4 - y4 * y4 - z4 * z4 - w4 * w4)%float gi4 x4 y4 z4 w4 in
  (27.0 * (n0 + n1 + n2 + n3 + n4))%float.

(** [if (!initialized) simplex_noise_init(0);] *)
Definition ensure_init (now : Z) (st : engine) : engine :=
  if initialized st =? 0 then simplex_noise_init now st 0 else st.

Definition simplex_noise_1d (now : Z) (st : engine) (x : double)
  : double * engine :=
  let st := ensure_init now st in (noise_1d_body (perm st) x, st).

Definition simplex_noise_2d (now : Z) (st : engine) (x y : double)
  : double * engine :=
  let st := ensure_init now st in (noise_2d_body (perm st) x y, st).

Definition simplex_noise_3d (now : Z) (st : engine) (x y z : double)
  : double * engine :=
  let st := ensure_init now st in (noise_3d_body (perm st) x y z, st).

Definition simplex_noise_4d (now : Z) (st : engine) (x y z w : double)
  : double * engine :=
  let st := ensure_init now st in (noise_4d_body (perm st) x y z w, st).

(** ** Noise variants *)

Definition simplex_ridged_1d (now : Z) (st : engine) (x : double) :=
  let '(noise, st) := simplex_noise_1d now st x in ((1.0 - fabs noise)%float, st).
Definition simplex_ridged_2d (now : Z) (st : engine) (x y : double) :=
  let '(noise, st) := simplex_noise_2d now st x y in ((1.0 - fabs noise)%float, st).
Definition simplex_ridged_3d (now : Z) (st : engine) (x y z : double) :=
  let '(noise, st) := simplex_noise_3d now st x y z in ((1.0 - fabs noise)%float, st).

Definition simplex_billowy_1d (now : Z) (st : engine) (x : double) :=
  let '(noise, st) := simplex_noise_1d now st x in (fabs noise, st).
Definition simplex_billowy_2d (now : Z) (st : engine) (x y : double) :=
  let '(noise, st) := simplex_noise_2d now st x y in (fabs noise, st).
Definition simplex_billowy_3d (now : Z) (st : engine) (x y z : double) :=
  let '(noise, st) := simplex_noise_3d now st x y z in (fabs noise, st).

(** The locals of the octave loops: [value], [amplitude], [frequency],
    [maxValue], and the engine the kernel calls thread through. *)
Record octave_acc := mk_acc {
  acc_value : double;
  acc_amplitude : double;
  acc_frequency : double;
  acc_maxValue : double;
  acc_engine : engine
}.

Definition fbm_2d_step (now : Z) (x y persistence lacunarity : double)
    (_ : Z) (a : octave_acc) : octave_acc :=
  let '(n, st) := simplex_noise_2d now (acc_engine a)
                    (x * acc_frequency a)%float (y * acc_frequency a)%float in
  mk_acc (acc_value a + n * acc_amplitude a)%float
         (acc_amplitude a * persistence)%float
         (acc_frequency a * lacunarity)%float
         (acc_maxValue a + acc_amplitude a)%float
         st.

Definition simplex_fbm_2d (now : Z) (st : engine) (x y : double) (octaves : Z)
    (persistence lacunarity : double) : double * engine :=
  let a := for_up (Z.to_nat octaves) 0 (fbm_2d_step now x y persistence lacunarity)
             (mk_acc 0.0 1.0 1.0 0.0 st) in
  ((acc_value a / acc_maxValue a)%float, acc_engine a).

Definition fbm_3d_step (now : Z) (x y z persistence lacunarity : double)
    (_ : Z) (a : octave_acc) : octave_acc :=
  let '(n, st) := simplex_noise_3d now (acc_engine a)
                    (x * acc_frequency a)%float (y * acc_frequency a)%float
                    (z * acc_frequency a)%float in
  mk_acc (acc_value a + n * acc_amplitude a)%float
         (acc_amplitude a * persistence)%float
         (acc_frequency a * lacunarity)%float
         (acc_maxValue a + acc_amplitude a)%float
         st.

Definition simplex_fbm_3d (now : Z) (st : engine) (x y z : double) (octaves : Z)
    (persistence lacunarity : double) : double * engine :=
  let a := for_up (Z.to_nat octaves) 0 (fbm_3d_step now x y z persistence lacunarity)
             (mk_acc 0.0 1.0 1.0 0.0 st) in
  ((acc_value a / acc_maxValue a)%float, acc_engine a).

(** [simplex_hybrid_multifractal_2d] has no [maxValue]; the field stays 0. *)
Definition hybrid_2d_step (now : Z) (x y persistence lacunarity offset : double)
    (_ : Z) (a : octave_acc) : octave_acc :=
  let '(noise, st) := simplex_noise_2d now (acc_engine a)
                        (x * acc_frequency a)%float (y * acc_frequency a)%float in
  mk_acc (acc_value a * ((offset + fabs noise) * acc_amplitude a))%float
         (acc_amplitude a * persistence)%float
         (acc_frequency a * lacunarity)%float
         (acc_maxValue a)
         st.

Definition simplex_hybrid_multifractal_2d (now : Z) (st : engine) (x y : double)
    (octaves : Z) (persistence lacunarity offset : double) : double * engine :=
  let a := for_up (Z.to_nat octaves) 0
             (hybrid_2d_step now x y persistence lacunarity offset)
             (mk_acc 1.0 1.0 1.0 0.0 st) in
  (acc_value a, acc_engine a).

Definition simplex_domain_warp_2d (now : Z) (st : engine)
    (x y warp_strength : double) : double * engine :=
  let '(n1, st) := simplex_noise_2d now st x y in
  let warp_x := (x + n1 * warp_strength)%float in
  let '(n2, st) := simplex_noise_2d now st (x + 100)%float (y + 100)%float in
  let warp_y := (y + n2 * warp_strength)%float in
  simplex_noise_2d now st warp_x warp_y.

(** [simplex_fractal_2d] and [simplex_fractal_3d] are written out a second
    time in the source, at the end of the file. *)
Definition fractal_2d_step (now : Z) (x y persistence lacunarity : double)
    (_ : Z) (a : octave_acc) : octave_acc :=
  let '(n, st) := simplex_noise_2d now (acc_engine a)
                    (x * acc_frequency a)%float (y * acc_frequency a)%float in
  mk_acc (acc_value a + n * acc_amplitude a)%float
         (acc_amplitude a * persistence)%float
         (acc_frequency a * lacunarity)%float
         (acc_maxValue a + acc_amplitude a)%float
         st.

Definition simplex_fractal_2d (now : Z) (st : engine) (x y : double) (octaves : Z)
    (persistence lacunarity : double) : double * engine :=
  let a := for_up (Z.to_nat octaves) 0
             (fractal_2d_step now x y persistence lacunarity)
             (mk_acc 0.0 1.0 1.0 0.0 st) in
  ((acc_value a / acc_maxValue a)%float, acc_engine a).

Definition fractal_3d_step (now : Z) (x y z persistence lacunarity : double)
    (_ : Z) (a : octave_acc) : octave_acc :=
  let '(n, st) := simplex_noise_3d now (acc_engine a)
                    (x * acc_frequency a)%float (y * acc_frequency a)%float
                    (z * acc_frequency a)%float in
  mk_acc (acc_value a + n * acc_amplitude a)%float
         (acc_amplitude a * persistence)%float
         (acc_frequency a * lacunarity)%float
         (acc_maxValue a + acc_amplitude a)%float
         st.

Definition simplex_fractal_3d (now : Z) (st : engine) (x y z : double) (octaves : Z)
    (persistence lacunarity : double) : double * engine :=
  let a := for_up (Z.to_nat octaves) 0
             (fractal_3d_step now x y z persistence lacunarity)
             (mk_acc 0.0 1.0 1.0 0.0 st) in
  ((acc_value a / acc_maxValue a)%float, acc_engine a).

(** ** Bulk array generation *)

(** The caller's buffer and the engine, as the fill loops thread them. *)
Definition fill_state : Type := list double * engine.

(** The body of the inner loop of [simplex_noise_array_2d]:
    [output[y * width + x] = simplex_noise_2d(x_start + x * step, y_start + y * step)]. *)
Definition array_2d_cell (now : Z) (x_start y_start : double) (width : Z)
    (step : double) (y x : Z) (bs : fill_state) : fill_state :=
  let '(buf, st) := bs in
  let noise_x := (x_start + double_of_int x * step)%float in
  let noise_y := (y_start + double_of_int y * step)%float in
  let '(n, st) := simplex_noise_2d now st noise_x noise_y in
  (wr buf (s32 (s32 (y * width) + x)) n, st).

(** [output = None] is the null pointer.  A write outside the buffer
    the caller passed is undefined in C; the model drops it. *)
Definition simplex_noise_array_2d (now : Z) (st : engine)
    (x_start y_start : double) (width height : Z) (step : double)
    (output : option (list double)) : Z * option (list double) * engine :=
  match output with
  | None => (-1, output, st)
  | Some buf =>
      if (width <=? 0) || (height <=? 0) then (-1, output, st)
      else
        let '(buf, st) :=
          for_up (Z.to_nat height) 0
            (fun y => for_up (Z.to_nat width) 0
                        (array_2d_cell now x_start y_start width step y))
            (buf, st) in
        (0, Some buf, st)
  end.

Definition array_3d_cell (now : Z) (x_start y_start z_start : double)
    (width height : Z) (step : double) (z y x : Z) (bs : fill_state)
  : fill_state :=
  let '(buf, st) := bs in
  let noise_x := (x_start + double_of_int x * step)%float in
  let noise_y := (y_start + double_of_int y * step)%float in
  let noise_z := (z_start + double_of_int z * step)%float in
  let '(n, st) := simplex_noise_3d now st noise_x noise_y noise_z in
  (wr buf (s32 (s32 (s32 (s32 (z * height) + y) * width) + x)) n, st).

Definition simplex_noise_array_3d (now : Z) (st : engine)
    (x_start y_start z_start : double) (width height depth : Z) (step : double)
    (output : option (list double)) : Z * option (list double) * engine :=
  match output with
  | None => (-1, output, st)
  | Some buf =>
      if (width <=? 0) || (height <=? 0) || (depth <=? 0) then (-1, output, st)
      else
        let '(buf, st) :=
          for_up (Z.to_nat depth) 0
            (fun z => for_up (Z.to_nat height) 0
               (fun y => for_up (Z.to_nat width) 0
                           (array_3d_cell now x_start y_start z_start
                              width height step z y)))
            (buf, st) in
        (0, Some buf, st)
  end.

(** ** The cache *)

(** [((int)(x * 1000) ^ (int)(y * 1000) ^ (int)(z * 1000) ^ (int)(w * 1000))
     % CACHE_SIZE], negated when negative. *)
Definition cache_hash (x y z w : double) : Z :=
  let h := Z.rem (Z.lxor (Z.lxor (Z.lxor (int_of_double (x * 1000)%float)
                                         (int_of_double (y * 1000)%float))
                                 (int_of_double (z * 1000)%float))
                         (int_of_double (w * 1000)%float))
                 CACHE_SIZE in
  if h <? 0 then s32 (- h) else h.

Definition cache_lookup (st : engine) (x y z w : double) : double * engine :=
  if cache_enabled st =? 0 then (0.0%float, st)
  else
    let hit :=
      match noise_cache st !! Z.to_nat (cache_hash x y z w) with
      | Some e =>
          if negb (ce_valid e =? 0)
             && (fabs (ce_x e - x) <? 1e-9)%float && (fabs (ce_y e - y) <? 1e-9)%float
             && (fabs (ce_z e - z) <? 1e-9)%float && (fabs (ce_w e - w) <? 1e-9)%float
          then Some (ce_result e) else None
      | None => None
      end in
    match hit with
    | Some r =>
        (r, mk_engine (perm st) (initialized st) (global_config st) (perf_stats st)
              (prng_state st) (noise_cache st) (cache_enabled st)
              (s32 (cache_hits st + 1)) (cache_misses st)
              (profiling_enabled st) (function_call_count st))
    | None =>
        (0.0%float,
         mk_engine (perm st) (initialized st) (global_config st) (perf_stats st)
           (prng_state st) (noise_cache st) (cache_enabled st)
           (cache_hits st) (s32 (cache_misses st + 1))
           (profiling_enabled st) (function_call_count st))
    end.

Definition cache_store (st : engine) (x y z w result : double) : engine :=
  if cache_enabled st =? 0 then st
  else
    mk_engine (perm st) (initialized st) (global_config st) (perf_stats st)
      (prng_state st)
      (wr (noise_cache st) (cache_hash x y z w) (mk_cache_entry x y z w result 1))
      (cache_enabled st) (cache_hits st) (cache_misses st)
      (profiling_enabled st) (function_call_count st).

(** ** Sampling sessions *)

(** One call of a kernel or of a composer, with its arguments. *)
Inductive query :=
  | Q_noise_1d (x : double)
  | Q_noise_2d (x y : double)
  | Q_noise_3d (x y z : double)
  | Q_noise_4d (x y z w : double)
  | Q_ridged_1d (x : double)
  | Q_ridged_2d (x y : double)
  | Q_ridged_3d (x y z : double)
  | Q_billowy_1d (x : double)
  | Q_billowy_2d (x y : double)
  | Q_billowy_3d (x y z : double)
  | Q_fbm_2d (x y : double) (octaves : Z) (persistence lacunarity : double)
  | Q_fbm_3d (x y z : double) (octaves : Z) (persistence lacunarity : double)
  | Q_hybrid_multifractal_2d (x y : double) (octaves : Z)
      (persistence lacunarity offset : double)
  | Q_domain_warp_2d (x y warp_strength : double)
  | Q_fractal_2d (x y : double) (octaves : Z) (persistence lacunarity : double)
  | Q_fractal_3d (x y z : double) (octaves : Z) (persistence lacunarity : double).

Definition run_query (now : Z) (st : engine) (q : query) : double * engine :=
  match q with
  | Q_noise_1d x => simplex_noise_1d now st x
  | Q_noise_2d x y => simplex_noise_2d now st x y
  | Q_noise_3d x y z => simplex_noise_3d now st x y z
  | Q_noise_4d x y z w => simplex_noise_4d now st x y z w
  | Q_ridged_1d x => simplex_ridged_1d now st x
  | Q_ridged_2d x y => simplex_ridged_2d now st x y
  | Q_ridged_3d x y z => simplex_ridged_3d now st x y z
  | Q_billowy_1d x => simplex_billowy_1d now st x
  | Q_billowy_2d x y => simplex_billowy_2d now st x y
  | Q_billowy_3d x y z => simplex_billowy_3d now st x y z
  | Q_fbm_2d x y o p l => simplex_fbm_2d now st x y o p l
  | Q_fbm_3d x y z o p l => simplex_fbm_3d now st x y z o p l
  | Q_hybrid_multifractal_2d x y o p l f =>
      simplex_hybrid_multifractal_2d now st x y o p l f
  | Q_domain_warp_2d x y w => simplex_domain_warp_2d now st x y w
  | Q_fractal_2d x y o p l => simplex_fractal_2d now st x y o p l
  | Q_fractal_3d x y z o p l => simplex_fractal_3d now st x y z o p l
  end.

(** A session is a list of calls, each with the clock reading at the time
    of the call; the result is the list of the values returned. *)
Fixpoint run_session (st : engine) (calls : list (Z * query)) : list double :=
  match calls with
  | [] => []
  | (now, q) :: rest =>
      let '(v, st) := run_query now st q in v :: run_session st rest
  end.


(** ** What the specification says of the hybrid multifractal

    The value starts at 1; octave [k] multiplies it by
    [(offset + |kernel(coord * freq_k)|) * amp_k], where [amp_0 = freq_0 = 1],
    [amp_(k+1) = amp_k * persistence] and [freq_(k+1) = freq_k * lacunarity];
    the product is returned as it is. *)

Fixpoint octave_scale (ratio : double) (k : nat) : double :=
  match k with
  | O => 1.0%float
  | S k' => (octave_scale ratio k' * ratio)%float
  end.

Definition hybrid_octave_factor (kernel : double -> double -> double)
    (x y persistence lacunarity offset : double) (k : nat) : double :=
  ((offset + fabs (kernel (x * octave_scale lacunarity k)
                          (y * octave_scale lacunarity k)))
   * octave_scale persistence k)%float.

Fixpoint hybrid_multifractal_spec (kernel : double -> double -> double)
    (x y persistence lacunarity offset : double) (octaves : nat) : double :=
  match octaves with
  | O => 1.0%float
  | S k =>
      (hybrid_multifractal_spec kernel x y persistence lacunarity offset k
       * hybrid_octave_factor kernel x y persistence lacunarity offset k)%float
  end.

(** ** Run-time setters and clean-up *)

Definition SIMPLEX_NOISE_COUNT : Z := 6.
Definition SIMPLEX_INTERP_COUNT : Z := 4.

Definition set_noise_variant (c : simplex_config_t) (v : Z) : simplex_config_t :=
  mk_config (prng_type c) v (interp_type c) (precision c) (seed c)
    (enable_simd c) (enable_caching c) (enable_profiling c) (persistence c)
    (lacunarity c) (octaves c) (frequency c) (amplitude c) (offset c) (scale c)
    (config_file c) (output_file c) (verbose_mode c) (debug_mode c) (auto_save c)
    (validate_inputs c) (cache_size_mb c) (max_threads c) (chunk_size c)
    (memory_limit_mb c).

Definition set_interp_type (c : simplex_config_t) (v : Z) : simplex_config_t :=
  mk_config (prng_type c) (noise_variant c) v (precision c) (seed c)
    (enable_simd c) (enable_caching c) (enable_profiling c) (persistence c)
    (lacunarity c) (octaves c) (frequency c) (amplitude c) (offset c) (scale c)
    (config_file c) (output_file c) (verbose_mode c) (debug_mode c) (auto_save c)
    (validate_inputs c) (cache_size_mb c) (max_threads c) (chunk_size c)
    (memory_limit_mb c).

Definition set_enable_simd (c : simplex_config_t) (v : Z) : simplex_config_t :=
  mk_config (prng_type c) (noise_variant c) (interp_type c) (precision c) (seed c)
    v (enable_caching c) (enable_profiling c) (persistence c)
    (lacunarity c) (octaves c) (frequency c) (amplitude c) (offset c) (scale c)
    (config_file c) (output_file c) (verbose_mode c) (debug_mode c) (auto_save c)
    (validate_inputs c) (cache_size_mb c) (max_threads c) (chunk_size c)
    (memory_limit_mb c).

Definition set_enable_profiling (c : simplex_config_t) (v : Z) : simplex_config_t :=
  mk_config (prng_type c) (noise_variant c) (interp_type c) (precision c) (seed c)
    (enable_simd c) (enable_caching c) v (persistence c)
    (lacunarity c) (octaves c) (frequency c) (amplitude c) (offset c) (scale c)
    (config_file c) (output_file c) (verbose_mode c) (debug_mode c) (auto_save c)
    (validate_inputs c) (cache_size_mb c) (max_threads c) (chunk_size c)
    (memory_limit_mb c).

(** The engine with [global_config] replaced. *)
Definition with_global_config (st : engine) (cfg : simplex_config_t) : engine :=
  mk_engine (perm st) (initialized st) cfg (perf_stats st) (prng_state st)
    (noise_cache st) (cache_enabled st) (cache_hits st) (cache_misses st)
    (profiling_enabled st) (function_call_count st).

(** [simplex_set_prng]: the selector is of an enumeration type, an unsigned
    integer; the seed the generator restarts from is the one the engine
    holds. *)
Definition simplex_set_prng (st : engine) (ty : Z) : Z * engine :=
  if SIMPLEX_PRG_COUNT <=? ty then (-1, st)
  else
    let cfg := set_prng_type (global_config st) ty in
    (0, mk_engine (perm st) (initialized st) cfg (perf_stats st)
          (prng_init ty (seed cfg) (prng_state st))
          (noise_cache st) (cache_enabled st) (cache_hits st) (cache_misses st)
          (profiling_enabled st) (function_call_count st)).

Definition simplex_set_noise_variant (st : engine) (v : Z) : Z * engine :=
  if SIMPLEX_NOISE_COUNT <=? v then (-1, st)
  else (0, with_global_config st (set_noise_variant (global_config st) v)).

Definition simplex_set_interpolation (st : engine) (v : Z) : Z * engine :=
  if SIMPLEX_INTERP_COUNT <=? v then (-1, st)
  else (0, with_global_config st (set_interp_type (global_config st) v)).

Definition simplex_set_simd (st : engine) (enable : Z) : Z * engine :=
  let b := if enable =? 0 then 0 else 1 in
  (0, with_global_config st (set_enable_simd (global_config st) b)).

Definition simplex_set_profiling (st : engine) (enable : Z) : Z * engine :=
  let b := if enable =? 0 then 0 else 1 in
  (0, mk_engine (perm st) (initialized st)
        (set_enable_profiling (global_config st) b) (perf_stats st)
        (prng_state st) (noise_cache st) (cache_enabled st) (cache_hits st)
        (cache_misses st) b (function_call_count st)).

(** [simplex_reset_performance_stats] *)
Definition simplex_reset_performance_stats (st : engine) : engine :=
  mk_engine (perm st) (initialized st) (global_config st) perf_stats_zero
    (prng_state st) (noise_cache st) (cache_enabled st) 0 0
    (profiling_enabled st) 0.

(** [simplex_cleanup] *)
Definition simplex_cleanup (st : engine) : engine :=
  simplex_reset_performance_stats
    (mk_engine (perm st) 0 (global_config st) (perf_stats st) (prng_state st)
       (cache_invalidate (noise_cache st)) 0 (cache_hits st) (cache_misses st)
       0 (function_call_count st)).

(** ** The unused [init_permutation] *)

(** The shuffle loop of [init_permutation], with its inline generator
    [seed = seed * 1103515245 + 12345] on [unsigned int]. *)
Fixpoint legacy_shuffle (n : nat) (seed : Z) (p : list Z) : list Z :=
  match n with
  | O => p
  | S n' =>
      let i := Z.of_nat n in
      let seed := u32 (seed * 1103515245 + 12345) in
      let j := u32 seed mod u32 (i + 1) in
      let temp := rd p i in
      let p := wr p i (rd p j) in
      let p := wr p j temp in
      legacy_shuffle n' seed p
  end.

(** [init_permutation(seed)]; [now] is what [time(NULL)] returns. *)
Definition init_permutation (now : Z) (st : engine) (seed : Z) : engine :=
  let seed := u32 seed in
  let seed := if seed =? 0 then u32 now else seed in
  let p := perm_identity (perm st) in
  let p := legacy_shuffle 255 seed p in
  let p := perm_duplicate p in
  mk_engine p (initialized st) (global_config st) (perf_stats st)
    (prng_state st) (noise_cache st) (cache_enabled st) (cache_hits st)
    (cache_misses st) (profiling_enabled st) (function_call_count st).

(** ** Access to the configuration by key

    A [NULL] pointer is [None]; the [int*] and [double*] results are the
    content of the pointee before the call and after it. *)

Definition set_precision (c : simplex_config_t) (v : Z) : simplex_config_t :=
  mk_config (prng_type c) (noise_variant c) (interp_type c) v (seed c)
    (enable_simd c) (enable_caching c) (enable_profiling c) (persistence c)
    (lacunarity c) (octaves c) (frequency c) (amplitude c) (offset c)
    (scale c) (config_file c) (output_file c) (verbose_mode c) (debug_mode c)
    (auto_save c) (validate_inputs c) (cache_size_mb c) (max_threads c)
    (chunk_size c) (memory_limit_mb c).

Definition set_persistence (c : simplex_config_t) (v : double) : simplex_config_t :=
  mk_config (prng_type c) (noise_variant c) (interp_type c) (precision c)
    (seed c) (enable_simd c) (enable_caching c) (enable_profiling c) v
    (lacunarity c) (octaves c) (frequency c) (amplitude c) (offset c)
    (scale c) (config_file c) (output_file c) (verbose_mode c) (debug_mode c)
    (auto_save c) (validate_inputs c) (cache_size_mb c) (max_threads c)
    (chunk_size c) (memory_limit_mb c).

Definition set_lacunarity (c : simplex_config_t) (v : double) : simplex_config_t :=
  mk_config (prng_type c) (noise_variant c) (interp_type c) (precision c)
    (seed c) (enable_simd c) (enable_caching c) (enable_profiling c)
    (persistence c) v (octaves c) (frequency c) (amplitude c) (offset c)
    (scale c) (config_file c) (output_file c) (verbose_mode c) (debug_mode c)
    (auto_save c) (validate_inputs c) (cache_size_mb c) (max_threads c)
    (chunk_size c) (memory_limit_mb c).

Definition set_octaves (c : simplex_config_t) (v : Z) : simplex_config_t :=
  mk_config (prng_type c) (noise_variant c) (interp_type c) (precision c)
    (seed c) (enable_simd c) (enable_caching c) (enable_profiling c)
    (persistence c) (lacunarity c) v (frequency c) (amplitude c) (offset c)
    (scale c) (config_file c) (output_file c) (verbose_mode c) (debug_mode c)
    (auto_save c) (validate_inputs c) (cache_size_mb c) (max_threads c)
    (chunk_size c) (memory_limit_mb c).

Definition set_frequency (c : simplex_config_t) (v : double) : simplex_config_t :=
  mk_config (prng_type c) (noise_variant c) (interp_type c) (precision c)
    (seed c) (enable_simd c) (enable_caching c) (enable_profiling c)
    (persistence c) (lacunarity c) (octaves c) v (amplitude c) (offset c)
    (scale c) (config_file c) (output_file c) (verbose_mode c) (debug_mode c)
    (auto_save c) (validate_inputs c) (cache_size_mb c) (max_threads c)
    (chunk_size c) (memory_limit_mb c).

Definition set_amplitude (c : simplex_config_t) (v : double) : simplex_config_t :=
  mk_config (prng_type c) (noise_variant c) (interp_type c) (precision c)
    (seed c) (enable_simd c) (enable_caching c) (enable_profiling c)
    (persistence c) (lacunarity c) (octaves c) (frequency c) v (offset c)
    (scale c) (config_file c) (output_file c) (verbose_mode c) (debug_mode c)
    (auto_save c) (validate_inputs c) (cache_size_mb c) (max_threads c)
    (chunk_size c) (memory_limit_mb c).

Definition set_offset (c : simplex_config_t) (v : double) : simplex_config_t :=
  mk_config (prng_type c) (noise_variant c) (interp_type c) (precision c)
    (seed c) (enable_simd c) (enable_caching c) (enable_profiling c)
    (persistence c) (lacunarity c) (octaves c) (frequency c) (amplitude c) v
    (scale c) (config_file c) (output_file c) (verbose_mode c) (debug_mode c)
    (auto_save c) (validate_inputs c) (cache_size_mb c) (max_threads c)
    (chunk_size c) (memory_limit_mb c).

Definition set_scale (c : simplex_config_t) (v : double) : simplex_config_t :=
  mk_config (prng_type c) (noise_variant c) (interp_type c) (precision c)
    (seed c) (enable_simd c) (enable_caching c) (enable_profiling c)
    (persistence c) (lacunarity c) (octaves c) (frequency c) (amplitude c)
    (offset c) v (config_file c) (output_file c) (verbose_mode c)
    (debug_mode c) (auto_save c) (validate_inputs c) (cache_size_mb c)
    (max_threads c) (chunk_size c) (memory_limit_mb c).

Definition set_verbose_mode (c : simplex_config_t) (v : Z) : simplex_config_t :=
  mk_config (prng_type c) (noise_variant c) (interp_type c) (precision c)
    (seed c) (enable_simd c) (enable_caching c) (enable_profiling c)
    (persistence c) (lacunarity c) (octaves c) (frequency c) (amplitude c)
    (offset c) (scale c) (config_file c) (output_file c) v (debug_mode c)
    (auto_save c) (validate_inputs c) (cache_size_mb c) (max_threads c)
    (chunk_size c) (memory_limit_mb c).

Definition set_debug_mode (c : simplex_config_t) (v : Z) : simplex_config_t :=
  mk_config (prng_type c) (noise_variant c) (interp_type c) (precision c)
    (seed c) (enable_simd c) (enable_caching c) (enable_profiling c)
    (persistence c) (lacunarity c) (octaves c) (frequency c) (amplitude c)
    (offset c) (scale c) (config_file c) (output_file c) (verbose_mode c) v
    (auto_save c) (validate_inputs c) (cache_size_mb c) (max_threads c)
    (chunk_size c) (memory_limit_mb c).

Definition set_auto_save (c : simplex_config_t) (v : Z) : simplex_config_t :=
  mk_config (prng_type c) (noise_variant c) (interp_type c) (precision c)
    (seed c) (enable_simd c) (enable_caching c) (enable_profiling c)
    (persistence c) (lacunarity c) (octaves c) (frequency c) (amplitude c)
    (offset c) (scale c) (config_file c) (output_file c) (verbose_mode c)
    (debug_mode c) v (validate_inputs c) (cache_size_mb c) (max_threads c)
    (chunk_size c) (memory_limit_mb c).

Definition set_validate_inputs (c : simplex_config_t) (v : Z) : simplex_config_t :=
  mk_config (prng_type c) (noise_variant c) (interp_type c) (precision c)
    (seed c) (enable_simd c) (enable_caching c) (enable_profiling c)
    (persistence c) (lacunarity c) (octaves c) (frequency c) (amplitude c)
    (offset c) (scale c) (config_file c) (output_file c) (verbose_mode c)
    (debug_mode c) (auto_save c) v (cache_size_mb c) (max_threads c)
    (chunk_size c) (memory_limit_mb c).

Definition set_cache_size_mb (c : simplex_config_t) (v : double) : simplex_config_t :=
  mk_config (prng_type c) (noise_variant c) (interp_type c) (precision c)
    (seed c) (enable_simd c) (enable_caching c) (enable_profiling c)
    (persistence c) (lacunarity c) (octaves c) (frequency c) (amplitude c)
    (offset c) (scale c) (config_file c) (output_file c) (verbose_mode c)
    (debug_mode c) (auto_save c) (validate_inputs c) v (max_threads c)
    (chunk_size c) (memory_limit_mb c).

Definition set_max_threads (c : simplex_config_t) (v : Z) : simplex_config_t :=
  mk_config (prng_type c) (noise_variant c) (interp_type c) (precision c)
    (seed c) (enable_simd c) (enable_caching c) (enable_profiling c)
    (persistence c) (lacunarity c) (octaves c) (frequency c) (amplitude c)
    (offset c) (scale c) (config_file c) (output_file c) (verbose_mode c)
    (debug_mode c) (auto_save c) (validate_inputs c) (cache_size_mb c) v
    (chunk_size c) (memory_limit_mb c).

Definition set_chunk_size (c : simplex_config_t) (v : Z) : simplex_config_t :=
  mk_config (prng_type c) (noise_variant c) (interp_type c) (precision c)
    (seed c) (enable_simd c) (enable_caching c) (enable_profiling c)
    (persistence c) (lacunarity c) (octaves c) (frequency c) (amplitude c)
    (offset c) (scale c) (config_file c) (output_file c) (verbose_mode c)
    (debug_mode c) (auto_save c) (validate_inputs c) (cache_size_mb c)
    (max_threads c) v (memory_limit_mb c).

Definition set_memory_limit_mb (c : simplex_config_t) (v : double) : simplex_config_t :=
  mk_config (prng_type c) (noise_variant c) (interp_type c) (precision c)
    (seed c) (enable_simd c) (enable_caching c) (enable_profiling c)
    (persistence c) (lacunarity c) (octaves c) (frequency c) (amplitude c)
    (offset c) (scale c) (config_file c) (output_file c) (verbose_mode c)
    (debug_mode c) (auto_save c) (validate_inputs c) (cache_size_mb c)
    (max_threads c) (chunk_size c) v.

Definition simplex_get_config_double (config : option simplex_config_t)
    (key : option string) (value : option double) : Z * option double :=
  match config, key, value with
  | Some c, Some key, Some _ =>
      if String.eqb key "persistence" then (0, Some (persistence c))
      else if String.eqb key "lacunarity" then (0, Some (lacunarity c))
      else if String.eqb key "frequency" then (0, Some (frequency c))
      else if String.eqb key "amplitude" then (0, Some (amplitude c))
      else if String.eqb key "offset" then (0, Some (offset c))
      else if String.eqb key "scale" then (0, Some (scale c))
      else if String.eqb key "cache_size_mb" then (0, Some (cache_size_mb c))
      else if String.eqb key "memory_limit_mb" then (0, Some (memory_limit_mb c))
      else (-1, value)
  | _, _, _ => (-1, value)
  end.

Definition simplex_set_config_double (config : option simplex_config_t)
    (key : option string) (value : double) : Z * option simplex_config_t :=
  match config, key with
  | Some c, Some key =>
      if String.eqb key "persistence" then (0, Some (set_persistence c value))
      else if String.eqb key "lacunarity" then (0, Some (set_lacunarity c value))
      else if String.eqb key "frequency" then (0, Some (set_frequency c value))
      else if String.eqb key "amplitude" then (0, Some (set_amplitude c value))
      else if String.eqb key "offset" then (0, Some (set_offset c value))
      else if String.eqb key "scale" then (0, Some (set_scale c value))
      else if String.eqb key "cache_size_mb" then (0, Some (set_cache_size_mb c value))
      else if String.eqb key "memory_limit_mb" then (0, Some (set_memory_limit_mb c value))
      else (-1, config)
  | _, _ => (-1, config)
  end.

(** The four selectors are of enumeration types, unsigned integers, and the
    seed is a [uint32_t]: reading them into an [int] and writing an [int]
    into them converts. *)
Definition simplex_get_config_int (config : option simplex_config_t)
    (key : option string) (value : option Z) : Z * option Z :=
  match config, key, value with
  | Some c, Some key, Some _ =>
      if String.eqb key "prng_type" then (0, Some (s32 (prng_type c)))
      else if String.eqb key "noise_variant" then (0, Some (s32 (noise_variant c)))
      else if String.eqb key "interp_type" then (0, Some (s32 (interp_type c)))
      else if String.eqb key "precision" then (0, Some (s32 (precision c)))
      else if String.eqb key "seed" then (0, Some (s32 (seed c)))
      else if String.eqb key "enable_simd" then (0, Some (enable_simd c))
      else if String.eqb key "enable_caching" then (0, Some (enable_caching c))
      else if String.eqb key "enable_profiling" then (0, Some (enable_profiling c))
      else if String.eqb key "octaves" then (0, Some (octaves c))
      else if String.eqb key "verbose_mode" then (0, Some (verbose_mode c))
      else if String.eqb key "debug_mode" then (0, Some (debug_mode c))
      else if String.eqb key "auto_save" then (0, Some (auto_save c))
      else if String.eqb key "validate_inputs" then (0, Some (validate_inputs c))
      else if String.eqb key "max_threads" then (0, Some (max_threads c))
      else if String.eqb key "chunk_size" then (0, Some (chunk_size c))
      else (-1, value)
  | _, _, _ => (-1, value)
  end.

Definition simplex_set_config_int (config : option simplex_config_t)
    (key : option string) (value : Z) : Z * option simplex_config_t :=
  match config, key with
  | Some c, Some key =>
      if String.eqb key "prng_type" then (0, Some (set_prng_type c (u32 value)))
      else if String.eqb key "noise_variant" then (0, Some (set_noise_variant c (u32 value)))
      else if String.eqb key "interp_type" then (0, Some (set_interp_type c (u32 value)))
      else if String.eqb key "precision" then (0, Some (set_precision c (u32 value)))
      else if String.eqb key "seed" then (0, Some (set_seed c (u32 value)))
      else if String.eqb key "enable_simd" then (0, Some (set_enable_simd c value))
      else if String.eqb key "enable_caching" then (0, Some (set_enable_caching c value))
      else if String.eqb key "enable_profiling" then (0, Some (set_enable_profiling c value))
      else if String.eqb key "octaves" then (0, Some (set_octaves c value))
      else if String.eqb key "verbose_mode" then (0, Some (set_verbose_mode c value))
      else if String.eqb key "debug_mode" then (0, Some (set_debug_mode c value))
      else if String.eqb key "auto_save" then (0, Some (set_auto_save c value))
      else if String.eqb key "validate_inputs" then (0, Some (set_validate_inputs c value))
      else if String.eqb key "max_threads" then (0, Some (set_max_threads c value))
      else if String.eqb key "chunk_size" then (0, Some (set_chunk_size c value))
      else (-1, config)
  | _, _ => (-1, config)
  end.

(** ** Validation, reset and merge *)

Definition set_config_file (c : simplex_config_t) (v : string) : simplex_config_t :=
  mk_config (prng_type c) (noise_variant c) (interp_type c) (precision c)
    (seed c) (enable_simd c) (enable_caching c) (enable_profiling c)
    (persistence c) (lacunarity c) (octaves c) (frequency c) (amplitude c)
    (offset c) (scale c) v (output_file c) (verbose_mode c) (debug_mode c)
    (auto_save c) (validate_inputs c) (cache_size_mb c) (max_threads c)
    (chunk_size c) (memory_limit_mb c).

Definition set_output_file (c : simplex_config_t) (v : string) : simplex_config_t :=
  mk_config (prng_type c) (noise_variant c) (interp_type c) (precision c)
    (seed c) (enable_simd c) (enable_caching c) (enable_profiling c)
    (persistence c) (lacunarity c) (octaves c) (frequency c) (amplitude c)
    (offset c) (scale c) (config_file c) v (verbose_mode c) (debug_mode c)
    (auto_save c) (validate_inputs c) (cache_size_mb c) (max_threads c)
    (chunk_size c) (memory_limit_mb c).

Definition SIMPLEX_PRECISION_COUNT : Z := 3.

(** [simplex_config_validation_t]; [errors] and [warnings] are arrays of ten
    strings. *)
Record simplex_config_validation_t := mk_validation {
  val_valid : Z;
  val_error_count : Z;
  val_errors : list string;
  val_warnings : list string;
  val_warning_count : Z
}.

(** [if (c) stmt], a statement being a function of the object it updates. *)
Definition when {S} (c : bool) (stmt : S -> S) (s : S) : S :=
  if c then stmt s else s.

(** [memset(validation, 0, sizeof(simplex_config_validation_t))] *)
Definition validation_zero : simplex_config_validation_t :=
  mk_validation 0 0 (replicate 10 EmptyString) (replicate 10 EmptyString) 0.

Definition set_val_valid (v : simplex_config_validation_t) (b : Z)
  : simplex_config_validation_t :=
  mk_validation b (val_error_count v) (val_errors v) (val_warnings v)
    (val_warning_count v).

(** [strcpy(validation->errors[validation->error_count], msg);
    validation->error_count++; validation->valid = 0;] *)
Definition validation_error (msg : string) (v : simplex_config_validation_t)
  : simplex_config_validation_t :=
  mk_validation 0 (s32 (val_error_count v + 1))
    (wr (val_errors v) (val_error_count v) msg) (val_warnings v)
    (val_warning_count v).

(** [strcpy(validation->warnings[validation->warning_count], msg);
    validation->warning_count++;] *)
Definition validation_warning (msg : string) (v : simplex_config_validation_t)
  : simplex_config_validation_t :=
  mk_validation (val_valid v) (val_error_count v) (val_errors v)
    (wr (val_warnings v) (val_warning_count v) msg)
    (s32 (val_warning_count v + 1)).

Definition simplex_validate_config (config : option simplex_config_t)
    (validation : option simplex_config_validation_t)
  : Z * option simplex_config_validation_t :=
  match config, validation with
  | Some c, Some _ =>
      let v := set_val_valid validation_zero 1 in
      let v := when (SIMPLEX_PRG_COUNT <=? prng_type c)
                 (validation_error
                    "Invalid PRNG type") v in
      let v := when (SIMPLEX_NOISE_COUNT <=? noise_variant c)
                 (validation_error
                    "Invalid noise variant") v in
      let v := when (SIMPLEX_INTERP_COUNT <=? interp_type c)
                 (validation_error
                    "Invalid interpolation type") v in
      let v := when (SIMPLEX_PRECISION_COUNT <=? precision c)
                 (validation_error
                    "Invalid precision type") v in
      let v := when ((octaves c <? 1) || (16 <? octaves c))
                 (validation_error
                    "Octaves must be between 1 and 16") v in
      let v := when ((persistence c <? 0.0)%float
                    || (1.0 <? persistence c)%float)
                 (validation_warning
                    "Persistence should be between 0.0 and 1.0") v in
      let v := when ((lacunarity c <? 1.0)%float
                    || (4.0 <? lacunarity c)%float)
                 (validation_warning
                    "Lacunarity should be between 1.0 and 4.0") v in
      let v := when ((cache_size_mb c <? 0.0)%float
                    || (1024.0 <? cache_size_mb c)%float)
                 (validation_warning
                    "Cache size should be between 0.0 and 1024.0 MB") v in
      let v := when ((max_threads c <? 1) || (64 <? max_threads c))
                 (validation_warning
                    "Max threads should be between 1 and 64") v in
      (0, Some v)
  | _, _ => (-1, validation)
  end.

(** [simplex_reset_config] *)
Definition simplex_reset_config (config : option simplex_config_t)
  : Z * option simplex_config_t :=
  match config with
  | Some _ => (0, Some simplex_get_default_config)
  | None => (-1, None)
  end.

(** [simplex_merge_config] reads through [base] and [override] and writes
    through [result], and nothing keeps the three pointers apart.  The
    configuration objects of the caller are therefore a store, and a
    pointer is [None] ([NULL]) or [Some i], the address of the object in
    cell [i]: two pointers that are equal name the same cell, and a write
    through one is seen by the reads through the other. *)
Abbreviation config_store := (list simplex_config_t).

(** One statement [if (override->f != d) result->f = override->f;]:
    [differs] is the test against the default [d] (for a string field the
    test is [strlen(override->f) > 0] and the assignment a [strcpy]).
    [override] is read in the store as it is when the statement runs. *)
Definition merge_field {A : Type} (differs : A -> bool)
    (get : simplex_config_t -> A)
    (set : simplex_config_t -> A -> simplex_config_t)
    (override result : nat) (mem : config_store) : config_store :=
  match mem !! override, mem !! result with
  | Some o, Some r =>
      if differs (get o) then <[result := set r (get o)]> mem else mem
  | _, _ => mem
  end.

(** [simplex_merge_config]: [*result = *base], then the statements of the
    fields in the order of the source, each one on the store the ones
    before it left.  With [result == override] the first assignment has
    already replaced the override by the time its fields are read. *)
Definition simplex_merge_config (mem : config_store)
    (base override result : option nat) : Z * config_store :=
  match base, override, result with
  | Some b, Some o, Some r =>
      let mem := match mem !! b with
                 | Some cb => <[r := cb]> mem
                 | None => mem
                 end in
      let mem := merge_field (fun v => negb (v =? SIMPLEX_PRG_PCG))
                   prng_type set_prng_type o r mem in
      let mem := merge_field (fun v => negb (v =? 0))
                   noise_variant set_noise_variant o r mem in
      let mem := merge_field (fun v => negb (v =? 3))
                   interp_type set_interp_type o r mem in
      let mem := merge_field (fun v => negb (v =? 1))
                   precision set_precision o r mem in
      let mem := merge_field (fun v => negb (v =? 0))
                   seed set_seed o r mem in
      let mem := merge_field (fun v => negb (v =? 0))
                   enable_simd set_enable_simd o r mem in
      let mem := merge_field (fun v => negb (v =? 1))
                   enable_caching set_enable_caching o r mem in
      let mem := merge_field (fun v => negb (v =? 0))
                   enable_profiling set_enable_profiling o r mem in
      let mem := merge_field (fun v => negb (v =? 0.5)%float)
                   persistence set_persistence o r mem in
      let mem := merge_field (fun v => negb (v =? 2.0)%float)
                   lacunarity set_lacunarity o r mem in
      let mem := merge_field (fun v => negb (v =? 4))
                   octaves set_octaves o r mem in
      let mem := merge_field (fun v => negb (v =? 1.0)%float)
                   frequency set_frequency o r mem in
      let mem := merge_field (fun v => negb (v =? 1.0)%float)
                   amplitude set_amplitude o r mem in
      let mem := merge_field (fun v => negb (v =? 0.0)%float)
                   offset set_offset o r mem in
      let mem := merge_field (fun v => negb (v =? 1.0)%float)
                   scale set_scale o r mem in
      let mem := merge_field (fun v => 0 <? Z.of_nat (String.length v))
                   config_file set_config_file o r mem in
      let mem := merge_field (fun v => 0 <? Z.of_nat (String.length v))
                   output_file set_output_file o r mem in
      let mem := merge_field (fun v => negb (v =? 0))
                   verbose_mode set_verbose_mode o r mem in
      let mem := merge_field (fun v => negb (v =? 0))
                   debug_mode set_debug_mode o r mem in
      let mem := merge_field (fun v => negb (v =? 0))
                   auto_save set_auto_save o r mem in
      let mem := merge_field (fun v => negb (v =? 1))
                   validate_inputs set_validate_inputs o r mem in
      let mem := merge_field (fun v => negb (v =? 16.0)%float)
                   cache_size_mb set_cache_size_mb o r mem in
      let mem := merge_field (fun v => negb (v =? 1))
                   max_threads set_max_threads o r mem in
      let mem := merge_field (fun v => negb (v =? 1024))
                   chunk_size set_chunk_size o r mem in
      let mem := merge_field (fun v => negb (v =? 256.0)%float)
                   memory_limit_mb set_memory_limit_mb o r mem in
      (0, mem)
  | _, _, _ => (-1, mem)
  end.

(** ** Statistics *)

(** [simplex_get_performance_stats] *)
Definition simplex_get_performance_stats (st : engine)
    (stats : option simplex_perf_stats_t) : Z * option simplex_perf_stats_t :=
  match stats with
  | None => (-1, None)
  | Some _ => (0, Some (perf_stats st))
  end.

Definition simplex_get_function_call_count (st : engine) : Z :=
  function_call_count st.

Definition simplex_get_cache_hits (st : engine) : Z := cache_hits st.

Definition simplex_get_cache_misses (st : engine) : Z := cache_misses st.

(** The engine a session leaves behind. *)
Fixpoint session_engine (st : engine) (calls : list (Z * query)) : engine :=
  match calls with
  | [] => st
  | (now, q) :: rest => session_engine (snd (run_query now st q)) rest
  end.

(** * Properties *)

(** ** Loops *)

Lemma for_up_ext {T} (n : nat) (start : Z) (f g : Z -> T -> T) (s : T) :
  (forall i s, start <= i < start + Z.of_nat n -> f i s = g i s) ->
  for_up n start f s = for_up n start g s.
Proof.
  revert start s. induction n as [|n IH]; intros start s H; simpl; [done|].
  rewrite (H start s) by lia. apply IH. intros i s' Hi. apply H. lia.
Qed.

(** The loop-invariant rule for [for_up]. *)
Lemma for_up_inv {T} (P : Z -> T -> Prop) (n : nat) (start : Z)
    (body : Z -> T -> T) (s : T) :
  P start s ->
  (forall i s, start <= i < start + Z.of_nat n -> P i s -> P (i + 1) (body i s)) ->
  P (start + Z.of_nat n) (for_up n start body s).
Proof.
  revert start s. induction n as [|n IH]; intros start s H0 Hstep; simpl.
  - by rewrite Z.add_0_r.
  - replace (start + Z.of_nat (S n)) with (start + 1 + Z.of_nat n) by lia.
    apply IH.
    + apply Hstep; [lia|done].
    + intros i s' Hi. apply Hstep. lia.
Qed.

(** The relational version, for two runs of a loop side by side. *)
Lemma for_up_rel {T U} (R : Z -> T -> U -> Prop) (n : nat) (start : Z)
    (f : Z -> T -> T) (g : Z -> U -> U) (s : T) (t : U) :
  R start s t ->
  (forall i s t, start <= i < start + Z.of_nat n ->
                 R i s t -> R (i + 1) (f i s) (g i t)) ->
  R (start + Z.of_nat n) (for_up n start f s) (for_up n start g t).
Proof.
  revert start s t. induction n as [|n IH]; intros start s t H0 Hstep; simpl.
  - by rewrite Z.add_0_r.
  - replace (start + Z.of_nat (S n)) with (start + 1 + Z.of_nat n) by lia.
    apply IH.
    + apply Hstep; [lia|done].
    + intros i s' t' Hi. apply Hstep. lia.
Qed.

Lemma for_up_snoc {T} (n : nat) (start : Z) (body : Z -> T -> T) (s : T) :
  for_up (S n) start body s = body (start + Z.of_nat n) (for_up n start body s).
Proof.
  revert start s. induction n as [|n IH]; intros start s.
  - simpl. by rewrite Z.add_0_r.
  - change (for_up (S (S n)) start body s)
      with (for_up (S n) (start + 1) body (body start s)).
    rewrite IH. simpl. f_equal. lia.
Qed.

(** ** Lazy initialisation *)

Lemma init_advanced_initialized now st cfg :
  initialized (snd (simplex_noise_init_advanced now st (Some cfg))) = 1.
Proof.
  unfold simplex_noise_init_advanced.
  destruct (shuffle _ _ _ _) as [p ps]. reflexivity.
Qed.

Lemma ensure_init_initialized now st : initialized (ensure_init now st) <> 0.
Proof.
  unfold ensure_init. destruct (initialized st =? 0) eqn:E.
  - unfold simplex_noise_init. by rewrite init_advanced_initialized.
  - by apply Z.eqb_neq.
Qed.

Lemma ensure_init_id now st : initialized st <> 0 -> ensure_init now st = st.
Proof.
  intros H. unfold ensure_init. by apply Z.eqb_neq in H as ->.
Qed.

Lemma ensure_init_idem now now' st :
  ensure_init now' (ensure_init now st) = ensure_init now st.
Proof. apply ensure_init_id, ensure_init_initialized. Qed.

(** ** Variants: ridged and billowy *)

(** C3.  In each of the dimensions 1, 2 and 3 the billowy variant returns
    exactly [|noise|] and the ridged variant exactly [1 - |noise|], where
    [noise] is what the kernel returns at the same point from the same
    engine; the equalities are equalities of doubles, bit for bit. *)
Theorem billowy_ridged_exact (now : Z) (st : engine) (x y z : double) :
  fst (simplex_billowy_1d now st x) = fabs (fst (simplex_noise_1d now st x)) /\
  fst (simplex_billowy_2d now st x y) = fabs (fst (simplex_noise_2d now st x y)) /\
  fst (simplex_billowy_3d now st x y z)
    = fabs (fst (simplex_noise_3d now st x y z)) /\
  fst (simplex_ridged_1d now st x)
    = (1.0 - fabs (fst (simplex_noise_1d now st x)))%float /\
  fst (simplex_ridged_2d now st x y)
    = (1.0 - fabs (fst (simplex_noise_2d now st x y)))%float /\
  fst (simplex_ridged_3d now st x y z)
    = (1.0 - fabs (fst (simplex_noise_3d now st x y z)))%float.
Proof.
  unfold simplex_billowy_1d, simplex_billowy_2d, simplex_billowy_3d,
    simplex_ridged_1d, simplex_ridged_2d, simplex_ridged_3d.
  destruct (simplex_noise_1d now st x) as [n1 s1].
  destruct (simplex_noise_2d now st x y) as [n2 s2].
  destruct (simplex_noise_3d now st x y z) as [n3 s3].
  repeat split.
Qed.

(** ** Fractal sums *)

(** C4.  [simplex_fractal_2d] and [simplex_fbm_2d] return the same value (and
    leave the same engine) on all arguments, and so do [simplex_fractal_3d]
    and [simplex_fbm_3d]. *)
Theorem fractal_eq_fbm (now : Z) (st : engine) (x y z : double) (octaves : Z)
    (persistence lacunarity : double) :
  simplex_fractal_2d now st x y octaves persistence lacunarity
    = simplex_fbm_2d now st x y octaves persistence lacunarity /\
  simplex_fractal_3d now st x y z octaves persistence lacunarity
    = simplex_fbm_3d now st x y z octaves persistence lacunarity.
Proof.
  unfold simplex_fractal_2d, simplex_fbm_2d, simplex_fractal_3d, simplex_fbm_3d.
  split.
  - rewrite (for_up_ext _ _ (fractal_2d_step now x y persistence lacunarity)
               (fbm_2d_step now x y persistence lacunarity)); [done|].
    intros i a _. unfold fractal_2d_step, fbm_2d_step.
    by destruct (simplex_noise_2d _ _ _ _).
  - rewrite (for_up_ext _ _ (fractal_3d_step now x y z persistence lacunarity)
               (fbm_3d_step now x y z persistence lacunarity)); [done|].
    intros i a _. unfold fractal_3d_step, fbm_3d_step.
    by destruct (simplex_noise_3d _ _ _ _ _).
Qed.

(** C10.  With [octaves <= 0] the four fractal sums skip the loop, never
    call the kernel (the engine is returned untouched) and return
    [0.0 / 0.0], which is NaN. *)
Theorem fbm_nonpositive_octaves_nan (now : Z) (st : engine) (x y z : double)
    (octaves : Z) (persistence lacunarity : double) :
  octaves <= 0 ->
  simplex_fbm_2d now st x y octaves persistence lacunarity = (nan, st) /\
  simplex_fbm_3d now st x y z octaves persistence lacunarity = (nan, st) /\
  simplex_fractal_2d now st x y octaves persistence lacunarity = (nan, st) /\
  simplex_fractal_3d now st x y z octaves persistence lacunarity = (nan, st).
Proof.
  intros Ho.
  unfold simplex_fbm_2d, simplex_fbm_3d, simplex_fractal_2d, simplex_fractal_3d.
  replace (Z.to_nat octaves) with 0%nat by lia.
  repeat split.
Qed.

(** ** The hybrid multifractal *)

Lemma simplex_noise_2d_ensure now st x y :
  simplex_noise_2d now st x y
  = (noise_2d_body (perm (ensure_init now st)) x y, ensure_init now st).
Proof. reflexivity. Qed.

Lemma hybrid_loop now st x y persistence lacunarity offset (n : nat) :
  let a := for_up n 0 (hybrid_2d_step now x y persistence lacunarity offset)
             (mk_acc 1.0 1.0 1.0 0.0 st) in
  acc_value a
    = hybrid_multifractal_spec (noise_2d_body (perm (ensure_init now st)))
        x y persistence lacunarity offset n /\
  acc_amplitude a = octave_scale persistence n /\
  acc_frequency a = octave_scale lacunarity n /\
  ensure_init now (acc_engine a) = ensure_init now st.
Proof.
  induction n as [|n IH].
  - simpl. done.
  - rewrite for_up_snoc. cbv zeta in IH.
    destruct (for_up n 0 _ _) as [v amp fr mx e]. simpl in IH.
    destruct IH as (-> & -> & -> & He).
    unfold hybrid_2d_step. rewrite simplex_noise_2d_ensure. simpl.
    rewrite He, ensure_init_idem. done.
Qed.

(** C7.  [simplex_hybrid_multifractal_2d] returns the product the
    specification describes: starting from 1, one factor
    [(offset + |kernel(x * freq_k, y * freq_k)|) * amp_k] per octave, with
    [amp_k] and [freq_k] the running products of the persistence and of the
    lacunarity.  The value returned is that product itself: nothing divides
    it by the sum of the amplitudes. *)
Theorem hybrid_multifractal_2d_spec (now : Z) (st : engine) (x y : double)
    (octaves : Z) (persistence lacunarity offset : double) :
  fst (simplex_hybrid_multifractal_2d now st x y octaves persistence lacunarity
         offset)
  = hybrid_multifractal_spec (noise_2d_body (perm (ensure_init now st)))
      x y persistence lacunarity offset (Z.to_nat octaves).
Proof.
  unfold simplex_hybrid_multifractal_2d. simpl.
  apply (hybrid_loop now st x y persistence lacunarity offset (Z.to_nat octaves)).
Qed.

(** ** Status codes *)

(** What the three setup and bulk functions return. *)
Definition is_null {A} (ptr : option A) : bool :=
  match ptr with None => true | Some _ => false end.

Lemma init_advanced_status_null now st :
  fst (simplex_noise_init_advanced now st None) = -1.
Proof. reflexivity. Qed.

Lemma init_advanced_status_some now st cfg :
  fst (simplex_noise_init_advanced now st (Some cfg)) = 0.
Proof.
  unfold simplex_noise_init_advanced. by destruct (shuffle _ _ _ _).
Qed.

Lemma array_2d_status now st x_start y_start width height step output :
  fst (fst (simplex_noise_array_2d now st x_start y_start width height step
              output))
  = if is_null output || (width <=? 0) || (height <=? 0) then -1 else 0.
Proof.
  unfold simplex_noise_array_2d. destruct output as [buf|]; [|done].
  cbn [is_null orb].
  destruct ((width <=? 0) || (height <=? 0)); [done|].
  by destruct (for_up _ _ _ _).
Qed.

Lemma array_3d_status now st x_start y_start z_start width height depth step
    output :
  fst (fst (simplex_noise_array_3d now st x_start y_start z_start width height
              depth step output))
  = if is_null output || (width <=? 0) || (height <=? 0) || (depth <=? 0)
    then -1 else 0.
Proof.
  unfold simplex_noise_array_3d. destruct output as [buf|]; [|done].
  cbn [is_null orb].
  destruct ((width <=? 0) || (height <=? 0) || (depth <=? 0)); [done|].
  by destruct (for_up _ _ _ _).
Qed.

(** C8.  [simplex_noise_init_advanced] returns -1 exactly for the null
    configuration and 0 for every other one; [simplex_noise_array_2d]
    returns -1 exactly when the output pointer is null or the width or the
    height is not positive, [simplex_noise_array_3d] also when the depth is
    not positive; both return 0 otherwise. *)
Theorem status_codes (now : Z) (st : engine) (config : option simplex_config_t)
    (x_start y_start z_start : double) (width height depth : Z) (step : double)
    (output : option (list double)) :
  let r_init := fst (simplex_noise_init_advanced now st config) in
  let r_2d := fst (fst (simplex_noise_array_2d now st x_start y_start
                          width height step output)) in
  let r_3d := fst (fst (simplex_noise_array_3d now st x_start y_start z_start
                          width height depth step output)) in
  (r_init = -1 <-> config = None) /\
  (r_init = 0 <-> config <> None) /\
  (r_2d = -1 <-> (output = None \/ width <= 0 \/ height <= 0)) /\
  (r_2d = 0 <-> ~ (output = None \/ width <= 0 \/ height <= 0)) /\
  (r_3d = -1 <-> (output = None \/ width <= 0 \/ height <= 0 \/ depth <= 0)) /\
  (r_3d = 0 <-> ~ (output = None \/ width <= 0 \/ height <= 0 \/ depth <= 0)).
Proof.
  cbv zeta.
  rewrite array_2d_status, array_3d_status.
  destruct config as [cfg|];
    [rewrite init_advanced_status_some|rewrite init_advanced_status_null];
    (destruct output as [buf|]; cbn [is_null orb];
     [destruct (Z.leb_spec width 0), (Z.leb_spec height 0),
        (Z.leb_spec depth 0); cbn [orb]|]);
    repeat split; intros;
    solve [intuition (try discriminate; try lia; try congruence)].
Qed.

(** ** Machine integers and arrays: basic facts *)

Lemma s32_id z : INT_MIN <= z <= INT_MAX -> s32 z = z.
Proof.
  unfold s32, INT_MIN, INT_MAX. intros H.
  rewrite Z.mod_small by lia. lia.
Qed.


Lemma length_wr {A} (a : list A) i v : length (wr a i v) = length a.
Proof. apply length_insert. Qed.

Lemma rd_lookup (a : list Z) (i : Z) (v : Z) :
  a !! Z.to_nat i = Some v -> rd a i = v.
Proof. unfold rd. by intros ->. Qed.

Lemma lookup_rd (a : list Z) (i : Z) :
  (Z.to_nat i < length a)%nat -> a !! Z.to_nat i = Some (rd a i).
Proof.
  intros H. unfold rd.
  destruct (lookup_lt_is_Some_2 a _ H) as [v ->]. done.
Qed.

(** ** Bulk arrays *)




(** ** The permutation table *)

Lemma u32_small z : 0 <= z < 2 ^ 32 -> u32 z = z.
Proof. intros H. unfold u32. by rewrite Z.mod_small. Qed.

Lemma perm_identity_spec (p : list Z) :
  let q := perm_identity p in
  length q = length p /\
  (forall k : nat, (k < 256)%nat -> (k < length p)%nat ->
     q !! k = Some (Z.of_nat k)) /\
  (forall k : nat, (256 <= k)%nat -> q !! k = p !! k).
Proof.
  cbv zeta. unfold perm_identity.
  pose proof (for_up_inv
    (fun i b => 0 <= i /\ length b = length p /\
       (forall k : nat, Z.of_nat k < i -> (k < length p)%nat ->
          b !! k = Some (Z.of_nat k)) /\
       (forall k : nat, i <= Z.of_nat k -> b !! k = p !! k))
    256 0 (fun i p => wr p i i) p) as H.
  destruct H as (_ & Hlen & Hlow & Hhigh).
  - split_and!; [lia|done|intros; lia|done].
  - intros i b Hi (H0 & Hlen & Hlow & Hhigh). split_and!.
    + lia.
    + by rewrite length_wr.
    + intros k Hk Hkl. unfold wr.
      destruct (decide (Z.to_nat i = k)) as [<-|Hne].
      * rewrite list_lookup_insert_eq by lia. f_equal. lia.
      * rewrite list_lookup_insert_ne by done. apply Hlow; [lia|done].
    + intros k Hk. unfold wr. rewrite list_lookup_insert_ne by lia.
      apply Hhigh. lia.
  - split_and!; [done| |].
    + intros k Hk Hkl. apply Hlow; [lia|done].
    + intros k Hk. apply Hhigh. lia.
Qed.

Lemma perm_identity_take (p : list Z) :
  (256 <= length p)%nat -> take 256 (perm_identity p) = seqZ 0 256.
Proof.
  intros Hp. destruct (perm_identity_spec p) as (Hlen & Hlow & _).
  apply list_eq. intros k.
  destruct (decide (k < 256)%nat) as [Hk|Hk].
  - rewrite lookup_take_lt by done. rewrite Hlow by lia.
    by rewrite lookup_seqZ_lt by lia.
  - rewrite lookup_take_ge by lia. by rewrite lookup_seqZ_ge by lia.
Qed.

(** One swap of the shuffle, on the first 256 entries. *)
Lemma swap_take (p : list Z) (i j : Z) :
  0 <= i < 256 -> 0 <= j < 256 -> (256 <= length p)%nat ->
  take 256 (wr (wr p i (rd p j)) j (rd p i))
  = wr (wr (take 256 p) i (rd (take 256 p) j)) j (rd (take 256 p) i).
Proof.
  intros Hi Hj Hp. unfold wr.
  rewrite !take_insert_lt by lia.
  unfold rd. by rewrite !lookup_take_lt by lia.
Qed.

Lemma swap_Permutation (l : list Z) (i j : Z) :
  (Z.to_nat i < length l)%nat -> (Z.to_nat j < length l)%nat ->
  wr (wr l i (rd l j)) j (rd l i) ≡ₚ l.
Proof.
  intros Hi Hj. unfold wr.
  apply Permutation_insert_swap; by apply lookup_rd.
Qed.

Lemma shuffle_index (n : nat) (r : Z) :
  (n < 256)%nat ->
  0 <= u32 r mod u32 (Z.of_nat (S n) + 1) <= Z.of_nat (S n).
Proof.
  intros Hn. rewrite (u32_small (Z.of_nat (S n) + 1)) by lia.
  pose proof (Z.mod_pos_bound (u32 r) (Z.of_nat (S n) + 1)). lia.
Qed.

(** The shuffle only moves entries below 256 among themselves. *)
Lemma shuffle_spec (n : nat) (ty : Z) (ps : prng_state_t) (p : list Z) :
  (n < 256)%nat -> (256 <= length p)%nat ->
  length (fst (shuffle n ty ps p)) = length p /\
  take 256 (fst (shuffle n ty ps p)) ≡ₚ take 256 p /\
  drop 256 (fst (shuffle n ty ps p)) = drop 256 p.
Proof.
  revert ps p. induction n as [|n IH]; intros ps p Hn Hp; [done|].
  cbn [shuffle]. destruct (prng_next ty ps) as [r ps'].
  pose proof (shuffle_index n r ltac:(lia)) as Hj.
  set (i := Z.of_nat (S n)) in *.
  set (j := u32 r mod u32 (i + 1)) in *.
  set (p' := wr (wr p i (rd p j)) j (rd p i)).
  assert (length p' = length p) as Hlen' by (unfold p'; by rewrite !length_wr).
  destruct (IH ps' p') as (Hlen & Hperm & Hdrop); [lia|lia|].
  split; [lia|]. split.
  - rewrite Hperm. unfold p'. rewrite swap_take by lia.
    apply swap_Permutation; rewrite length_take; lia.
  - rewrite Hdrop. unfold p', wr. by rewrite !drop_insert_lt by lia.
Qed.

Lemma perm_duplicate_spec (p : list Z) :
  length p = 512%nat ->
  let q := perm_duplicate p in
  length q = 512%nat /\
  (forall k : nat, (k < 256)%nat -> q !! k = p !! k) /\
  (forall k : nat, (k < 256)%nat -> q !! (256 + k)%nat = p !! k).
Proof.
  intros Hp. cbv zeta. unfold perm_duplicate.
  pose proof (for_up_inv
    (fun i b => length b = 512%nat /\
       (forall k : nat, (k < 256)%nat -> b !! k = p !! k) /\
       (forall k : nat, Z.of_nat k < i -> b !! (256 + k)%nat = p !! k))
    256 0 (fun i p => wr p (256 + i) (rd p i)) p) as H.
  destruct H as (Hlen & Hlow & Hhigh).
  - split_and!; [done|done|intros; lia].
  - intros i b Hi (Hlen & Hlow & Hhigh). split_and!.
    + by rewrite length_wr.
    + intros k Hk. unfold wr. rewrite list_lookup_insert_ne by lia. by apply Hlow.
    + intros k Hk. unfold wr.
      destruct (decide (Z.of_nat k = i)) as [<-|Hne].
      * replace (Z.to_nat (256 + Z.of_nat k)) with (256 + k)%nat by lia.
        rewrite list_lookup_insert_eq by lia.
        rewrite <- Hlow by lia. rewrite <- (Nat2Z.id k) at 2.
        symmetry. apply lookup_rd. lia.
      * rewrite list_lookup_insert_ne by lia. apply Hhigh. lia.
  - split_and!; [done|done|]. intros k Hk. apply Hhigh. lia.
Qed.

(** The seed an initialisation really uses: the clock when the configured
    seed is 0. *)
Definition resolved_seed (now : Z) (cfg : simplex_config_t) : Z :=
  if u32 (seed cfg) =? 0 then u32 now else u32 (seed cfg).

(** The table an initialisation leaves, in terms of the three loops. *)
Lemma init_advanced_perm now st cfg :
  perm (snd (simplex_noise_init_advanced now st (Some cfg)))
  = perm_duplicate
      (fst (shuffle 255 (prng_type cfg)
              (prng_init (prng_type cfg) (resolved_seed now cfg) (prng_state st))
              (perm_identity (perm st)))).
Proof.
  unfold simplex_noise_init_advanced, resolved_seed. cbn [seed set_seed].
  destruct (u32 (seed cfg) =? 0); cbn [seed set_seed prng_type];
    by destruct (shuffle 255 _ _ _).
Qed.

(** C2.  After a successful initialisation, from any engine state (with its
    arrays of the declared sizes), with any configuration (any seed, any
    PRNG selector) at any time, the table has 512 entries; its first 256
    entries are a permutation of 0..255: none is repeated and the values
    are exactly those from 0 to 255; and entry [256 + i] equals entry [i]
    for every [i] below 256.  [simplex_noise_init], which calls
    [simplex_noise_init_advanced], leaves such a table too. *)
Theorem permutation_table_valid (now : Z) (st : engine) (cfg : simplex_config_t) :
  wf_engine st ->
  let st' := snd (simplex_noise_init_advanced now st (Some cfg)) in
  fst (simplex_noise_init_advanced now st (Some cfg)) = 0 /\
  length (perm st') = 512%nat /\
  take 256 (perm st') ≡ₚ seqZ 0 256 /\
  NoDup (take 256 (perm st')) /\
  (forall v, v ∈ take 256 (perm st') <-> 0 <= v < 256) /\
  (forall i, 0 <= i < 256 -> perm st' !! Z.to_nat (256 + i) = perm st' !! Z.to_nat i).
Proof.
  intros (Hperm & _). cbv zeta.
  split; [apply init_advanced_status_some|].
  rewrite init_advanced_perm.
  destruct (perm_identity_spec (perm st)) as (Hlen0 & _ & _).
  destruct (shuffle_spec 255 (prng_type cfg)
              (prng_init (prng_type cfg) (resolved_seed now cfg) (prng_state st))
              (perm_identity (perm st))) as (Hlen1 & Hshuf & _); [lia|lia|].
  set (p := fst (shuffle _ _ _ _)) in *.
  destruct (perm_duplicate_spec p) as (Hlen2 & Hlow & Hhigh); [lia|].
  assert (take 256 (perm_duplicate p) = take 256 p) as Htake.
  { apply list_eq. intros k. destruct (decide (k < 256)%nat) as [Hk|Hk].
    - rewrite !lookup_take_lt by done. by apply Hlow.
    - by rewrite !lookup_take_ge by lia. }
  assert (take 256 (perm_duplicate p) ≡ₚ seqZ 0 256) as Hbij.
  { rewrite Htake, Hshuf. by rewrite perm_identity_take by lia. }
  split; [done|]. split; [done|]. split.
  { rewrite Hbij. apply NoDup_seqZ. }
  split.
  { intros v. rewrite Hbij, elem_of_seqZ. lia. }
  intros i Hi.
  replace (Z.to_nat (256 + i)) with (256 + Z.to_nat i)%nat by lia.
  rewrite Hhigh, Hlow by lia. done.
Qed.

(** ** The generators only read and write their own state *)

(** The part of the PRNG state the generator selected by [ty] uses. *)
Definition prng_equiv (ty : Z) (a b : prng_state_t) : Prop :=
  if ty =? SIMPLEX_PRG_MERSENNE_TWISTER then
    mersenne_state a = mersenne_state b /\ mersenne_index a = mersenne_index b
  else if ty =? SIMPLEX_PRG_XORSHIFT then xorshift_state a = xorshift_state b
  else if ty =? SIMPLEX_PRG_PCG then
    pcg_state a = pcg_state b /\ pcg_inc a = pcg_inc b
  else lcg_state a = lcg_state b.

Lemma prng_next_equiv ty a b :
  prng_equiv ty a b ->
  fst (prng_next ty a) = fst (prng_next ty b) /\
  prng_equiv ty (snd (prng_next ty a)) (snd (prng_next ty b)).
Proof.
  unfold prng_equiv, prng_next,
    SIMPLEX_PRG_LINEAR_CONGRUENTIAL, SIMPLEX_PRG_MERSENNE_TWISTER,
    SIMPLEX_PRG_XORSHIFT, SIMPLEX_PRG_PCG.
  destruct a as [l1 m1 i1 x1 s1 c1], b as [l2 m2 i2 x2 s2 c2]. cbn [lcg_state
    mersenne_state mersenne_index xorshift_state pcg_state pcg_inc].
  destruct (ty =? 0) eqn:E0.
  { apply Z.eqb_eq in E0 as ->. cbn [Z.eqb]. intros ->.
    unfold lcg_next. cbn [lcg_state fst snd]. done. }
  destruct (ty =? 1) eqn:E1.
  { intros [-> ->]. unfold mersenne_next, mersenne_generate.
    cbn [mersenne_index]. destruct (i2 =? 0);
      cbn [mersenne_state mersenne_index fst snd]; done. }
  destruct (ty =? 2) eqn:E2.
  { intros ->. unfold xorshift_next. cbn [xorshift_state fst snd]. done. }
  destruct (ty =? 3) eqn:E3.
  { intros [-> ->]. unfold pcg_next. cbn [pcg_state pcg_inc fst snd]. done. }
  intros ->. unfold lcg_next. cbn [lcg_state fst snd]. done.
Qed.

Lemma mersenne_init_loop_det seed ms1 ms2 :
  length ms1 = 624%nat -> length ms2 = 624%nat ->
  mersenne_init_loop seed ms1 = mersenne_init_loop seed ms2.
Proof.
  intros H1 H2. unfold mersenne_init_loop.
  match goal with |- for_up _ _ ?f _ = _ =>
    pose proof (for_up_rel
      (fun i a b => 1 <= i /\ length a = 624%nat /\ length b = 624%nat /\
         forall k : nat, Z.of_nat k < i -> a !! k = b !! k)
      623 1 f f (wr ms1 0 seed) (wr ms2 0 seed)) as H
  end.
  destruct H as (_ & Hl1 & Hl2 & Heq).
  - split_and!; [lia|by rewrite length_wr|by rewrite length_wr|].
    intros k Hk. assert (k = 0%nat) as -> by lia. unfold wr.
    by rewrite !list_lookup_insert_eq by lia.
  - intros i a b Hi (H0 & Hl1 & Hl2 & Heq).
    split_and!; [lia|by rewrite length_wr|by rewrite length_wr|].
    intros k Hk. unfold wr, rd.
    rewrite (Heq (Z.to_nat (i - 1))) by lia.
    destruct (decide (k = Z.to_nat i)) as [->|Hne].
    + by rewrite !list_lookup_insert_eq by lia.
    + rewrite !list_lookup_insert_ne by done. apply Heq. lia.
  - apply list_eq. intros k. destruct (decide (k < 624)%nat).
    + apply Heq. lia.
    + by rewrite !lookup_ge_None_2 by lia.
Qed.

Lemma xorshift_init_det (xs1 xs2 : list Z) (a b c d : Z) :
  length xs1 = 4%nat -> length xs2 = 4%nat ->
  wr (wr (wr (wr xs1 0 a) 1 b) 2 c) 3 d = wr (wr (wr (wr xs2 0 a) 1 b) 2 c) 3 d.
Proof.
  intros H1 H2.
  destruct xs1 as [|? [|? [|? [|? [|]]]]]; try discriminate.
  destruct xs2 as [|? [|? [|? [|? [|]]]]]; try discriminate.
  done.
Qed.

(** Whatever the generators held before, [prng_init] leaves the selected
    one in a state that depends on the seed alone. *)
Lemma prng_init_equiv ty s a b :
  length (mersenne_state a) = 624%nat -> length (mersenne_state b) = 624%nat ->
  length (xorshift_state a) = 4%nat -> length (xorshift_state b) = 4%nat ->
  prng_equiv ty (prng_init ty s a) (prng_init ty s b).
Proof.
  intros Hm1 Hm2 Hx1 Hx2.
  unfold prng_equiv, prng_init,
    SIMPLEX_PRG_LINEAR_CONGRUENTIAL, SIMPLEX_PRG_MERSENNE_TWISTER,
    SIMPLEX_PRG_XORSHIFT, SIMPLEX_PRG_PCG.
  destruct (ty =? 0) eqn:E0.
  { apply Z.eqb_eq in E0 as ->. done. }
  destruct (ty =? 1) eqn:E1.
  { unfold mersenne_init. cbn [mersenne_state mersenne_index].
    split; [by apply mersenne_init_loop_det|done]. }
  destruct (ty =? 2) eqn:E2.
  { unfold xorshift_init. cbn [xorshift_state]. by apply xorshift_init_det. }
  destruct (ty =? 3) eqn:E3; [|done].
  unfold pcg_init, pcg_next. cbn [pcg_state pcg_inc snd]. done.
Qed.

Lemma shuffle_equiv n ty a b p :
  prng_equiv ty a b -> fst (shuffle n ty a p) = fst (shuffle n ty b p).
Proof.
  revert a b p. induction n as [|n IH]; intros a b p Hab; [done|].
  cbn [shuffle]. destruct (prng_next_equiv ty a b Hab) as [Hr Hs].
  destruct (prng_next ty a) as [r a'], (prng_next ty b) as [r' b'].
  simpl in Hr, Hs. subst r'. by apply IH.
Qed.

(** The shuffle reads and writes the first 256 entries only. *)
Lemma shuffle_take n ty ps p :
  (n < 256)%nat -> (256 <= length p)%nat ->
  take 256 (fst (shuffle n ty ps p)) = fst (shuffle n ty ps (take 256 p)).
Proof.
  revert ps p. induction n as [|n IH]; intros ps p Hn Hp; [done|].
  cbn [shuffle]. destruct (prng_next ty ps) as [r ps'].
  pose proof (shuffle_index n r ltac:(lia)) as Hj.
  rewrite IH by (rewrite ?length_wr; lia).
  by rewrite swap_take by lia.
Qed.

Lemma perm_duplicate_take p q :
  length p = 512%nat -> length q = 512%nat -> take 256 p = take 256 q ->
  perm_duplicate p = perm_duplicate q.
Proof.
  intros Hp Hq Hpq.
  destruct (perm_duplicate_spec p Hp) as (Hlp & Hp1 & Hp2).
  destruct (perm_duplicate_spec q Hq) as (Hlq & Hq1 & Hq2).
  assert (forall k : nat, (k < 256)%nat -> p !! k = q !! k) as Hlow.
  { intros k Hk. rewrite <- (lookup_take_lt p 256 k), <- (lookup_take_lt q 256 k) by done.
    by rewrite Hpq. }
  apply list_eq. intros k.
  destruct (decide (k < 256)%nat) as [Hk|Hk].
  { rewrite Hp1, Hq1 by done. by apply Hlow. }
  destruct (decide (k < 512)%nat) as [Hk'|Hk'].
  - replace k with (256 + (k - 256))%nat by lia.
    rewrite Hp2, Hq2 by lia. apply Hlow. lia.
  - by rewrite !lookup_ge_None_2 by lia.
Qed.

(** The table left by an initialisation depends on the PRNG selector and on
    the resolved seed, and on nothing else the engine held before. *)
Lemma init_advanced_perm_det now1 now2 st1 st2 cfg1 cfg2 :
  wf_engine st1 -> wf_engine st2 ->
  prng_type cfg1 = prng_type cfg2 ->
  resolved_seed now1 cfg1 = resolved_seed now2 cfg2 ->
  perm (snd (simplex_noise_init_advanced now1 st1 (Some cfg1)))
  = perm (snd (simplex_noise_init_advanced now2 st2 (Some cfg2))).
Proof.
  intros (Hp1 & Hm1 & Hx1 & _) (Hp2 & Hm2 & Hx2 & _) Hty Hseed.
  rewrite !init_advanced_perm, <- Hty, <- Hseed.
  set (ty := prng_type cfg1). set (s := resolved_seed now1 cfg1).
  destruct (perm_identity_spec (perm st1)) as (Hl1 & _ & _).
  destruct (perm_identity_spec (perm st2)) as (Hl2 & _ & _).
  destruct (shuffle_spec 255 ty (prng_init ty s (prng_state st1))
              (perm_identity (perm st1))) as (Hs1 & _ & _); [lia|lia|].
  destruct (shuffle_spec 255 ty (prng_init ty s (prng_state st2))
              (perm_identity (perm st2))) as (Hs2 & _ & _); [lia|lia|].
  apply perm_duplicate_take; [lia|lia|].
  rewrite !shuffle_take by lia.
  rewrite !perm_identity_take by lia.
  apply shuffle_equiv. by apply prng_init_equiv.
Qed.

(** ** What sampling depends on *)

(** Two engines that sample alike: the same table, and either both are
    initialised, or neither is and the lazy initialisation will find the
    same generator state in both. *)
Definition sample_equiv (st1 st2 : engine) : Prop :=
  perm st1 = perm st2 /\
  ((initialized st1 <> 0 /\ initialized st2 <> 0) \/
   (initialized st1 = 0 /\ initialized st2 = 0 /\
    prng_state st1 = prng_state st2)).

Definition acc_equiv (a1 a2 : octave_acc) : Prop :=
  acc_value a1 = acc_value a2 /\ acc_amplitude a1 = acc_amplitude a2 /\
  acc_frequency a1 = acc_frequency a2 /\ acc_maxValue a1 = acc_maxValue a2 /\
  sample_equiv (acc_engine a1) (acc_engine a2).

Lemma sample_equiv_refl st : sample_equiv st st.
Proof.
  split; [done|]. destruct (decide (initialized st = 0)); [by right|by left].
Qed.

Lemma ensure_init_equiv now st1 st2 :
  sample_equiv st1 st2 ->
  perm (ensure_init now st1) = perm (ensure_init now st2) /\
  sample_equiv (ensure_init now st1) (ensure_init now st2).
Proof.
  intros [Hp [[H1 H2]|(H1 & H2 & Hs)]].
  - rewrite !ensure_init_id by done. split; [done|]. split; [done|by left].
  - assert (perm (ensure_init now st1) = perm (ensure_init now st2)) as Hperm.
    { unfold ensure_init. rewrite H1, H2. cbn [Z.eqb].
      unfold simplex_noise_init. rewrite !init_advanced_perm. by rewrite Hp, Hs. }
    split; [done|]. split; [done|]. left.
    split; apply ensure_init_initialized.
Qed.

Lemma simplex_noise_1d_ensure now st x :
  simplex_noise_1d now st x
  = (noise_1d_body (perm (ensure_init now st)) x, ensure_init now st).
Proof. reflexivity. Qed.

Lemma simplex_noise_3d_ensure now st x y z :
  simplex_noise_3d now st x y z
  = (noise_3d_body (perm (ensure_init now st)) x y z, ensure_init now st).
Proof. reflexivity. Qed.

Lemma simplex_noise_4d_ensure now st x y z w :
  simplex_noise_4d now st x y z w
  = (noise_4d_body (perm (ensure_init now st)) x y z w, ensure_init now st).
Proof. reflexivity. Qed.

(** Rewrites every kernel call into its body on the initialised engine. *)
Ltac kernel_calls :=
  rewrite ?simplex_noise_1d_ensure, ?simplex_noise_2d_ensure,
    ?simplex_noise_3d_ensure, ?simplex_noise_4d_ensure.

Lemma fbm_2d_step_equiv now x y p l i a1 a2 :
  acc_equiv a1 a2 ->
  acc_equiv (fbm_2d_step now x y p l i a1) (fbm_2d_step now x y p l i a2).
Proof.
  destruct a1, a2. intros (Hv & Ha & Hf & Hm & He). cbn in Hv, Ha, Hf, Hm, He. subst.
  destruct (ensure_init_equiv now _ _ He) as [Hp He'].
  unfold fbm_2d_step. kernel_calls. cbn [acc_engine acc_frequency]. rewrite Hp.
  by split_and!.
Qed.

Lemma fbm_3d_step_equiv now x y z p l i a1 a2 :
  acc_equiv a1 a2 ->
  acc_equiv (fbm_3d_step now x y z p l i a1) (fbm_3d_step now x y z p l i a2).
Proof.
  destruct a1, a2. intros (Hv & Ha & Hf & Hm & He). cbn in Hv, Ha, Hf, Hm, He. subst.
  destruct (ensure_init_equiv now _ _ He) as [Hp He'].
  unfold fbm_3d_step. kernel_calls. cbn [acc_engine acc_frequency]. rewrite Hp.
  by split_and!.
Qed.

Lemma fractal_2d_step_equiv now x y p l i a1 a2 :
  acc_equiv a1 a2 ->
  acc_equiv (fractal_2d_step now x y p l i a1) (fractal_2d_step now x y p l i a2).
Proof. apply fbm_2d_step_equiv. Qed.

Lemma fractal_3d_step_equiv now x y z p l i a1 a2 :
  acc_equiv a1 a2 ->
  acc_equiv (fractal_3d_step now x y z p l i a1)
            (fractal_3d_step now x y z p l i a2).
Proof. apply fbm_3d_step_equiv. Qed.

Lemma hybrid_2d_step_equiv now x y p l o i a1 a2 :
  acc_equiv a1 a2 ->
  acc_equiv (hybrid_2d_step now x y p l o i a1) (hybrid_2d_step now x y p l o i a2).
Proof.
  destruct a1, a2. intros (Hv & Ha & Hf & Hm & He). cbn in Hv, Ha, Hf, Hm, He. subst.
  destruct (ensure_init_equiv now _ _ He) as [Hp He'].
  unfold hybrid_2d_step. kernel_calls. cbn [acc_engine acc_frequency]. rewrite Hp.
  by split_and!.
Qed.

Lemma octave_loop_equiv (step : Z -> octave_acc -> octave_acc) n a1 a2 :
  (forall i b1 b2, acc_equiv b1 b2 -> acc_equiv (step i b1) (step i b2)) ->
  acc_equiv a1 a2 ->
  acc_equiv (for_up n 0 step a1) (for_up n 0 step a2).
Proof.
  intros Hstep H. apply (for_up_rel (fun _ => acc_equiv)); [done|].
  intros i b1 b2 _. apply Hstep.
Qed.

(** What it means for a sampling function to answer alike on engines that
    sample alike. *)
Definition respects_equiv (f : engine -> double * engine) : Prop :=
  forall st1 st2, sample_equiv st1 st2 ->
    fst (f st1) = fst (f st2) /\ sample_equiv (snd (f st1)) (snd (f st2)).

Lemma noise_1d_equiv now x : respects_equiv (fun st => simplex_noise_1d now st x).
Proof.
  intros st1 st2 He. destruct (ensure_init_equiv now _ _ He) as [Hp He'].
  rewrite !simplex_noise_1d_ensure. cbn [fst snd]. by rewrite Hp.
Qed.

Lemma noise_2d_equiv now x y :
  respects_equiv (fun st => simplex_noise_2d now st x y).
Proof.
  intros st1 st2 He. destruct (ensure_init_equiv now _ _ He) as [Hp He'].
  rewrite !simplex_noise_2d_ensure. cbn [fst snd]. by rewrite Hp.
Qed.

Lemma noise_3d_equiv now x y z :
  respects_equiv (fun st => simplex_noise_3d now st x y z).
Proof.
  intros st1 st2 He. destruct (ensure_init_equiv now _ _ He) as [Hp He'].
  rewrite !simplex_noise_3d_ensure. cbn [fst snd]. by rewrite Hp.
Qed.

Lemma noise_4d_equiv now x y z w :
  respects_equiv (fun st => simplex_noise_4d now st x y z w).
Proof.
  intros st1 st2 He. destruct (ensure_init_equiv now _ _ He) as [Hp He'].
  rewrite !simplex_noise_4d_ensure. cbn [fst snd]. by rewrite Hp.
Qed.

(** A sampling function followed by a map on the value. *)
Lemma respects_equiv_map (g : double -> double) f :
  respects_equiv f ->
  respects_equiv (fun st => let '(n, st) := f st in (g n, st)).
Proof.
  intros Hf st1 st2 He. destruct (Hf st1 st2 He) as [Hv Hs].
  destruct (f st1), (f st2). cbn [fst snd] in *. by subst.
Qed.

Lemma fbm_2d_equiv now x y o p l :
  respects_equiv (fun st => simplex_fbm_2d now st x y o p l).
Proof.
  intros st1 st2 He. unfold simplex_fbm_2d. cbn [fst snd].
  destruct (octave_loop_equiv _ (Z.to_nat o) (mk_acc 0.0 1.0 1.0 0.0 st1)
              (mk_acc 0.0 1.0 1.0 0.0 st2) (fbm_2d_step_equiv now x y p l))
    as (-> & _ & _ & -> & ?); [by split_and!|done].
Qed.

Lemma fbm_3d_equiv now x y z o p l :
  respects_equiv (fun st => simplex_fbm_3d now st x y z o p l).
Proof.
  intros st1 st2 He. unfold simplex_fbm_3d. cbn [fst snd].
  destruct (octave_loop_equiv _ (Z.to_nat o) (mk_acc 0.0 1.0 1.0 0.0 st1)
              (mk_acc 0.0 1.0 1.0 0.0 st2) (fbm_3d_step_equiv now x y z p l))
    as (-> & _ & _ & -> & ?); [by split_and!|done].
Qed.

Lemma fractal_2d_equiv now x y o p l :
  respects_equiv (fun st => simplex_fractal_2d now st x y o p l).
Proof.
  intros st1 st2 He. unfold simplex_fractal_2d. cbn [fst snd].
  destruct (octave_loop_equiv _ (Z.to_nat o) (mk_acc 0.0 1.0 1.0 0.0 st1)
              (mk_acc 0.0 1.0 1.0 0.0 st2) (fractal_2d_step_equiv now x y p l))
    as (-> & _ & _ & -> & ?); [by split_and!|done].
Qed.

Lemma fractal_3d_equiv now x y z o p l :
  respects_equiv (fun st => simplex_fractal_3d now st x y z o p l).
Proof.
  intros st1 st2 He. unfold simplex_fractal_3d. cbn [fst snd].
  destruct (octave_loop_equiv _ (Z.to_nat o) (mk_acc 0.0 1.0 1.0 0.0 st1)
              (mk_acc 0.0 1.0 1.0 0.0 st2) (fractal_3d_step_equiv now x y z p l))
    as (-> & _ & _ & -> & ?); [by split_and!|done].
Qed.

Lemma hybrid_2d_equiv now x y o p l f :
  respects_equiv (fun st => simplex_hybrid_multifractal_2d now st x y o p l f).
Proof.
  intros st1 st2 He. unfold simplex_hybrid_multifractal_2d. cbn [fst snd].
  destruct (octave_loop_equiv _ (Z.to_nat o) (mk_acc 1.0 1.0 1.0 0.0 st1)
              (mk_acc 1.0 1.0 1.0 0.0 st2) (hybrid_2d_step_equiv now x y p l f))
    as (-> & _ & _ & _ & ?); [by split_and!|done].
Qed.

Lemma domain_warp_2d_equiv now x y w :
  respects_equiv (fun st => simplex_domain_warp_2d now st x y w).
Proof.
  intros st1 st2 He. destruct (ensure_init_equiv now _ _ He) as [Hp He'].
  unfold simplex_domain_warp_2d. rewrite !simplex_noise_2d_ensure.
  rewrite !ensure_init_idem. cbn [fst snd]. by rewrite Hp.
Qed.

(** Engines that sample alike answer every call alike, and still sample
    alike afterwards. *)
Lemma run_query_equiv now q : respects_equiv (fun st => run_query now st q).
Proof.
  destruct q; cbn [run_query].
  - apply noise_1d_equiv.
  - apply noise_2d_equiv.
  - apply noise_3d_equiv.
  - apply noise_4d_equiv.
  - apply (respects_equiv_map (fun n => (1.0 - fabs n)%float)), noise_1d_equiv.
  - apply (respects_equiv_map (fun n => (1.0 - fabs n)%float)), noise_2d_equiv.
  - apply (respects_equiv_map (fun n => (1.0 - fabs n)%float)), noise_3d_equiv.
  - apply (respects_equiv_map fabs), noise_1d_equiv.
  - apply (respects_equiv_map fabs), noise_2d_equiv.
  - apply (respects_equiv_map fabs), noise_3d_equiv.
  - apply fbm_2d_equiv.
  - apply fbm_3d_equiv.
  - apply hybrid_2d_equiv.
  - apply domain_warp_2d_equiv.
  - apply fractal_2d_equiv.
  - apply fractal_3d_equiv.
Qed.

(** ** An initialised engine is only read *)

(** On an initialised engine a sampling function ignores the clock and
    hands the engine back as it found it. *)
Definition clock_free (f : Z -> engine -> double * engine) : Prop :=
  forall now now' st, initialized st <> 0 ->
    f now st = f now' st /\ snd (f now st) = st.

Lemma noise_1d_clock_free x : clock_free (fun now st => simplex_noise_1d now st x).
Proof.
  intros now now' st H. rewrite !simplex_noise_1d_ensure.
  by rewrite !ensure_init_id by done.
Qed.

Lemma noise_2d_clock_free x y :
  clock_free (fun now st => simplex_noise_2d now st x y).
Proof.
  intros now now' st H. rewrite !simplex_noise_2d_ensure.
  by rewrite !ensure_init_id by done.
Qed.

Lemma noise_3d_clock_free x y z :
  clock_free (fun now st => simplex_noise_3d now st x y z).
Proof.
  intros now now' st H. rewrite !simplex_noise_3d_ensure.
  by rewrite !ensure_init_id by done.
Qed.

Lemma noise_4d_clock_free x y z w :
  clock_free (fun now st => simplex_noise_4d now st x y z w).
Proof.
  intros now now' st H. rewrite !simplex_noise_4d_ensure.
  by rewrite !ensure_init_id by done.
Qed.

Lemma clock_free_map (g : double -> double) f :
  clock_free f ->
  clock_free (fun now st => let '(n, st) := f now st in (g n, st)).
Proof.
  intros Hf now now' st H. destruct (Hf now now' st H) as [Heq Hs].
  rewrite <- Heq. by destruct (f now st); cbn [snd] in *; subst.
Qed.

(** An octave loop whose step is clock-free. *)
Lemma octave_loop_clock_free (step : Z -> Z -> octave_acc -> octave_acc)
    now now' n a :
  (forall i b, initialized (acc_engine b) <> 0 ->
     step now i b = step now' i b /\ acc_engine (step now i b) = acc_engine b) ->
  initialized (acc_engine a) <> 0 ->
  for_up n 0 (step now) a = for_up n 0 (step now') a /\
  acc_engine (for_up n 0 (step now) a) = acc_engine a.
Proof.
  intros Hstep Ha.
  pose proof (for_up_rel (fun _ b b' => b = b' /\ acc_engine b = acc_engine a)
                n 0 (step now) (step now') a a) as H.
  destruct H as [H1 H2]; [done| |by rewrite <- H1].
  intros i b b' _ [<- Hb].
  destruct (Hstep i b) as [H1 H2]; [by rewrite Hb|]. split; [done|congruence].
Qed.

Ltac step_clock_free :=
  intros ? ? ?; kernel_calls; by rewrite !ensure_init_id by done.

Lemma fbm_2d_clock_free x y o p l :
  clock_free (fun now st => simplex_fbm_2d now st x y o p l).
Proof.
  intros now now' st H. unfold simplex_fbm_2d.
  destruct (octave_loop_clock_free (fun now => fbm_2d_step now x y p l)
              now now' (Z.to_nat o) (mk_acc 0.0 1.0 1.0 0.0 st)) as [-> He];
    [unfold fbm_2d_step; step_clock_free|done|].
  cbn [snd]. split; [done|exact He].
Qed.

Lemma fbm_3d_clock_free x y z o p l :
  clock_free (fun now st => simplex_fbm_3d now st x y z o p l).
Proof.
  intros now now' st H. unfold simplex_fbm_3d.
  destruct (octave_loop_clock_free (fun now => fbm_3d_step now x y z p l)
              now now' (Z.to_nat o) (mk_acc 0.0 1.0 1.0 0.0 st)) as [-> He];
    [unfold fbm_3d_step; step_clock_free|done|].
  cbn [snd]. split; [done|exact He].
Qed.

Lemma fractal_2d_clock_free x y o p l :
  clock_free (fun now st => simplex_fractal_2d now st x y o p l).
Proof.
  intros now now' st H. unfold simplex_fractal_2d.
  destruct (octave_loop_clock_free (fun now => fractal_2d_step now x y p l)
              now now' (Z.to_nat o) (mk_acc 0.0 1.0 1.0 0.0 st)) as [-> He];
    [unfold fractal_2d_step; step_clock_free|done|].
  cbn [snd]. split; [done|exact He].
Qed.

Lemma fractal_3d_clock_free x y z o p l :
  clock_free (fun now st => simplex_fractal_3d now st x y z o p l).
Proof.
  intros now now' st H. unfold simplex_fractal_3d.
  destruct (octave_loop_clock_free (fun now => fractal_3d_step now x y z p l)
              now now' (Z.to_nat o) (mk_acc 0.0 1.0 1.0 0.0 st)) as [-> He];
    [unfold fractal_3d_step; step_clock_free|done|].
  cbn [snd]. split; [done|exact He].
Qed.

Lemma hybrid_2d_clock_free x y o p l f :
  clock_free (fun now st => simplex_hybrid_multifractal_2d now st x y o p l f).
Proof.
  intros now now' st H. unfold simplex_hybrid_multifractal_2d.
  destruct (octave_loop_clock_free (fun now => hybrid_2d_step now x y p l f)
              now now' (Z.to_nat o) (mk_acc 1.0 1.0 1.0 0.0 st)) as [-> He];
    [unfold hybrid_2d_step; step_clock_free|done|].
  cbn [snd]. split; [done|exact He].
Qed.

Lemma domain_warp_2d_clock_free x y w :
  clock_free (fun now st => simplex_domain_warp_2d now st x y w).
Proof.
  intros now now' st H. unfold simplex_domain_warp_2d. kernel_calls.
  rewrite !ensure_init_idem. by rewrite !(ensure_init_id _ st) by done.
Qed.

Lemma run_query_clock_free q : clock_free (fun now st => run_query now st q).
Proof.
  destruct q; cbn [run_query].
  - apply noise_1d_clock_free.
  - apply noise_2d_clock_free.
  - apply noise_3d_clock_free.
  - apply noise_4d_clock_free.
  - apply (clock_free_map (fun n => (1.0 - fabs n)%float)), noise_1d_clock_free.
  - apply (clock_free_map (fun n => (1.0 - fabs n)%float)), noise_2d_clock_free.
  - apply (clock_free_map (fun n => (1.0 - fabs n)%float)), noise_3d_clock_free.
  - apply (clock_free_map fabs), noise_1d_clock_free.
  - apply (clock_free_map fabs), noise_2d_clock_free.
  - apply (clock_free_map fabs), noise_3d_clock_free.
  - apply fbm_2d_clock_free.
  - apply fbm_3d_clock_free.
  - apply hybrid_2d_clock_free.
  - apply domain_warp_2d_clock_free.
  - apply fractal_2d_clock_free.
  - apply fractal_3d_clock_free.
Qed.

(** ** Sessions *)

Lemma run_session_equiv st1 st2 calls :
  sample_equiv st1 st2 -> run_session st1 calls = run_session st2 calls.
Proof.
  revert st1 st2. induction calls as [|[now q] calls IH]; intros st1 st2 He; [done|].
  cbn [run_session]. destruct (run_query_equiv now q st1 st2 He) as [Hv Hs].
  destruct (run_query now st1 q) as [v1 e1], (run_query now st2 q) as [v2 e2].
  cbn [fst snd] in Hv, Hs. subst v2. f_equal. by apply IH.
Qed.

Lemma run_session_clock_free st calls1 calls2 :
  initialized st <> 0 -> calls1.*2 = calls2.*2 ->
  run_session st calls1 = run_session st calls2.
Proof.
  intros Hinit. revert calls2.
  induction calls1 as [|[now q] calls1 IH]; intros [|[now' q'] calls2] Hq;
    try discriminate; [done|].
  cbn [fmap list_fmap snd] in Hq. injection Hq as <- Hq.
  cbn [run_session].
  destruct (run_query_clock_free q now now' st Hinit) as [Heq Hst].
  rewrite <- Heq. destruct (run_query now st q) as [v e]. cbn [snd] in Hst.
  subst e. f_equal. by apply IH.
Qed.

(** ** Determinism *)

Lemma resolved_seed_nonzero now cfg :
  0 < seed cfg < 2 ^ 32 -> resolved_seed now cfg = seed cfg.
Proof.
  intros H. unfold resolved_seed. rewrite u32_small by lia.
  destruct (Z.eqb_spec (seed cfg) 0); [lia|done].
Qed.

(** C1.  Two runs that initialise the engine with the same configuration,
    whose seed is a nonzero 32-bit number, and then make the same calls of
    kernels and composers with the same arguments, return the same doubles,
    call by call and bit for bit: whatever the PRNG selector, whatever the
    engine held before each initialisation, and whatever the clock reads
    during either run.  Both initialisations succeed.  The same holds for
    [simplex_noise_init] with a nonzero 32-bit seed. *)
Theorem init_then_sample_deterministic (now1 now2 : Z) (st1 st2 : engine)
    (cfg : simplex_config_t) (s : Z) (calls1 calls2 : list (Z * query)) :
  wf_engine st1 -> wf_engine st2 ->
  0 < seed cfg < 2 ^ 32 -> 0 < s < 2 ^ 32 ->
  calls1.*2 = calls2.*2 ->
  fst (simplex_noise_init_advanced now1 st1 (Some cfg)) = 0 /\
  fst (simplex_noise_init_advanced now2 st2 (Some cfg)) = 0 /\
  run_session (snd (simplex_noise_init_advanced now1 st1 (Some cfg))) calls1
  = run_session (snd (simplex_noise_init_advanced now2 st2 (Some cfg))) calls2 /\
  run_session (simplex_noise_init now1 st1 s) calls1
  = run_session (simplex_noise_init now2 st2 s) calls2.
Proof.
  intros Hwf1 Hwf2 Hseed Hs Hcalls.
  assert (Hrun : forall c, 0 < seed c < 2 ^ 32 ->
            run_session (snd (simplex_noise_init_advanced now1 st1 (Some c))) calls1
            = run_session (snd (simplex_noise_init_advanced now2 st2 (Some c)))
                calls2).
  { intros c Hc.
    set (e1 := snd (simplex_noise_init_advanced now1 st1 (Some c))).
    set (e2 := snd (simplex_noise_init_advanced now2 st2 (Some c))).
    assert (initialized e1 <> 0) as Hi1
      by (unfold e1; by rewrite init_advanced_initialized).
    assert (initialized e2 <> 0) as Hi2
      by (unfold e2; by rewrite init_advanced_initialized).
    rewrite (run_session_clock_free e1 calls1 calls2) by done.
    apply run_session_equiv. split; [|by left].
    apply init_advanced_perm_det; [done|done|done|].
    by rewrite !resolved_seed_nonzero. }
  split_and!; try apply init_advanced_status_some.
  - by apply Hrun.
  - unfold simplex_noise_init. by apply Hrun.
Qed.

(** ** The cache *)

(** C9.  The caching flag changes no output.  Initialising with a
    configuration whose [enable_caching] is [b1] or [b2] and otherwise the
    same, from the same engine at the same time, gives engines that return
    the same doubles in every session of kernel and composer calls; so do an
    engine and the engine after [simplex_set_caching] turned the flag on or
    off.  No call of a kernel or composer on an initialised engine changes
    the engine: the cache slots and the hit and miss counters, which
    [cache_lookup] and [cache_store] would change, stay as they were. *)
Theorem caching_flag_no_effect (now now0 : Z) (st : engine)
    (cfg : simplex_config_t) (b1 b2 enable : Z) (calls : list (Z * query))
    (q : query) :
  run_session (snd (simplex_noise_init_advanced now st
                      (Some (set_enable_caching cfg b1)))) calls
  = run_session (snd (simplex_noise_init_advanced now st
                        (Some (set_enable_caching cfg b2)))) calls /\
  run_session (snd (simplex_set_caching st enable)) calls = run_session st calls /\
  snd (run_query now (ensure_init now0 st) q) = ensure_init now0 st.
Proof.
  split_and!.
  - apply run_session_equiv. split.
    + by rewrite !init_advanced_perm.
    + left. by rewrite !init_advanced_initialized.
  - apply run_session_equiv. split; [done|].
    unfold simplex_set_caching. cbn [snd initialized prng_state].
    destruct (decide (initialized st = 0)); [by right|by left].
  - apply (run_query_clock_free q now now), ensure_init_initialized.
Qed.

(** ** The 2D kernel returns a finite value *)

Lemma grad2_at_unit (k : Z) :
  unit64 (fst (grad2_at k)) /\ unit64 (snd (grad2_at k)).
Proof.
  unfold grad2_at, unit64.
  destruct (Z.to_nat k) as [|[|[|[|[|[|[|[|n]]]]]]]]; cbn; try tauto.
  destruct n; cbn; tauto.
Qed.

Lemma unit_bnd (g : double) : unit64 g -> bnd g 1.
Proof. by intros [->|[->| ->]]. Qed.

(** A corner contributes at most [0.125] in magnitude: when its guard
    passes, both coordinates are below [1] and [t] is at most [0.5]. *)
Lemma corner2_bnd (gi : Z) (x y : double) :
  bnd (corner2 (0.5 - x * x - y * y) gi x y) 0.125.
Proof.
  unfold corner2. destruct (0 <=? _)%float eqn:Hg; [|done].
  destruct (guard_inv _ _ (sq_like_sq x) (sq_like_sq y) Hg)
    as (Hfa & Hfb & Hfu & Hft & Ha & Hb & Hu & Ht).
  destruct (mul_finite_inv _ _ Hfa) as [Hx _].
  destruct (mul_finite_inv _ _ Hfb) as [Hy _].
  assert (rk (1 * 1) = 2 ^ 1074 /\ rk 0.5 = 2 ^ 1073 /\ rk 1 = 2 ^ 1074)
    as (H11 & H05 & H1) by (by vm_compute).
  assert (2 ^ 1073 < 2 ^ 1074) as Hlt by done.
  assert (bnd x 1) as Hbx.
  { split; [done|]. pose proof (sq_lt_inv x 1 Hx eq_refl). lia. }
  assert (bnd y 1) as Hby.
  { split; [done|]. pose proof (sq_lt_inv y 1 Hy eq_refl). lia. }
  assert (bnd (0.5 - x * x - y * y) 0.5) as Hbt by (split; [done|lia]).
  destruct (grad2_at_unit gi) as [Hg0 Hg1].
  pose proof (bnd_mul _ _ _ _ Hbt Hbt eq_refl) as Hbtt.
  pose proof (bnd_mul _ _ _ _ Hbtt Hbtt eq_refl) as HbT.
  pose proof (bnd_mul _ _ _ _ (unit_bnd _ Hg0) Hbx eq_refl) as Hb0.
  pose proof (bnd_mul _ _ _ _ (unit_bnd _ Hg1) Hby eq_refl) as Hb1.
  pose proof (bnd_add _ _ _ _ Hb0 Hb1 eq_refl) as Hbd.
  exact (bnd_mul _ _ _ _ HbT Hbd eq_refl).
Qed.

Lemma corners_sum_finite (n0 n1 n2 : double) :
  bnd n0 0.125 -> bnd n1 0.125 -> bnd n2 0.125 ->
  finite64 (70.0 * (n0 + n1 + n2)) = true.
Proof.
  intros H0 H1 H2.
  pose proof (bnd_add _ _ _ _ H0 H1 eq_refl) as H01.
  pose proof (bnd_add _ _ _ _ H01 H2 eq_refl) as H012.
  assert (bnd 70.0 70.0) as H70 by done.
  exact (proj1 (bnd_mul _ _ _ _ H70 H012 eq_refl)).
Qed.

Lemma noise_2d_body_finite (p : list Z) (x y : double) :
  finite64 (noise_2d_body p x y) = true.
Proof.
  unfold noise_2d_body. cbv zeta.
  destruct (_ <? _)%float; apply corners_sum_finite; apply corner2_bnd.
Qed.

(** ** Corners next to a coordinate that is zero

    When one of the two offsets from the first corner is a zero, the other
    two corners cannot both contribute [-0.0]: either a guard fails (and the
    contribution is the literal [0.0]) or the corner is well inside its
    disc and its gradient term is not a negative zero. *)

Lemma G2_facts :
  finite64 G2 = true /\ bnd G2 1 /\ 0 < rk G2 /\
  (2 ^ 1019 | rk G2) /\ (2 ^ 1018 | rk G2) /\ 2 ^ 1071 + 2 ^ 1070 <= rk G2.
Proof.
  split_and!.
  - reflexivity.
  - split; [reflexivity|]. apply Z.leb_le. by vm_compute.
  - apply Z.ltb_lt. by vm_compute.
  - exists (rk G2 / 2 ^ 1019). by vm_compute.
  - exists (rk G2 / 2 ^ 1018). by vm_compute.
  - apply Z.leb_le. by vm_compute.
Qed.

(** If [v - 1 + 2 G2] is below [0.41] in magnitude, [v] lies strictly
    between [0.16] and [1]. *)
Lemma window (v : double) :
  finite64 (v - 1 + 2 * G2) = true ->
  Z.abs (rk (v - 1 + 2 * G2)) < rk 0.41 ->
  finite64 v = true /\ rk 0.16 < rk v < rk 1.
Proof.
  intros Hf Hw.
  destruct (add_finite_inv _ _ Hf) as [Hf1 HfG].
  destruct (sub_finite_inv _ _ Hf1) as [Hv _].
  split; [done|]. split.
  - destruct (Z_lt_ge_dec (rk 0.16) (rk v)) as [|Hge]; [done|]. exfalso.
    pose proof (sub_rk_mono v 0.16 1 1 Hv eq_refl eq_refl eq_refl
                  ltac:(lia) ltac:(lia)) as H1.
    pose proof (add_rk_mono (v - 1) (0.16 - 1) (2 * G2) (2 * G2)
                  Hf1 eq_refl HfG HfG H1 ltac:(lia)) as H2.
    assert (rk (0.16 - 1 + 2 * G2) <= - rk 0.41)
      by (apply Z.leb_le; by vm_compute).
    lia.
  - destruct (Z_lt_ge_dec (rk v) (rk 1)) as [|Hge]; [done|]. exfalso.
    pose proof (sub_rk_mono 1 v 1 1 eq_refl Hv eq_refl eq_refl
                  ltac:(lia) ltac:(lia)) as H1.
    pose proof (add_rk_mono (1 - 1) (v - 1) (2 * G2) (2 * G2)
                  eq_refl Hf1 HfG HfG H1 ltac:(lia)) as H2.
    assert (rk 0.41 <= rk (1 - 1 + 2 * G2))
      by (apply Z.leb_le; by vm_compute).
    lia.
Qed.

Lemma mid_coord (v : double) :
  finite64 v = true -> rk 0.16 < rk v < rk 1 ->
  bnd (v - 1 + G2) 0.63 /\ (2 ^ 1018 | rk (v - 1 + G2)).
Proof.
  intros Hv Hr. destruct G2_facts as (HfG & _ & _ & Hg19 & _ & Hlo).
  assert (itv v 0.16 1) as Hi by (split; [done|lia]).
  pose proof (itv_sub _ _ _ _ _ _ Hi (itv_const 1 eq_refl) eq_refl eq_refl)
    as Hi1.
  pose proof (itv_add _ _ _ _ _ _ Hi1 (itv_const G2 HfG) eq_refl eq_refl)
    as Hi2.
  split.
  - apply (itv_bnd _ _ _ _ Hi2); apply Z.leb_le; by vm_compute.
  - apply add_near_grid; [by destruct Hi1|done..].
Qed.

Lemma far_A (c w : double) :
  finite64 w = true -> rk c < rk (0.41 * 0.41) ->
  rk (w * w) <= rk c -> Z.abs (rk w) < rk 0.41.
Proof.
  intros Hw Hc Hle. apply (sq_lt_inv w 0.41 Hw eq_refl); [by vm_compute|lia].
Qed.

Lemma far_B (c w : double) :
  finite64 w = true -> finite64 (w * w) = true ->
  rk (0.5 - 0.41 * 0.41) < rk c ->
  rk c <= rk (0.5 - w * w) -> Z.abs (rk w) < rk 0.41.
Proof.
  intros Hw Hww Hc Hle.
  destruct (Z_lt_ge_dec (Z.abs (rk w)) (rk 0.41)) as [|Hge]; [done|]. exfalso.
  pose proof (sq_ge w 0.41 Hw eq_refl) as Hsq.
  assert (0 <= rk 0.41) by (by vm_compute).
  pose proof (sub_rk_mono 0.5 0.5 (w * w) (0.41 * 0.41) eq_refl eq_refl
                Hww eq_refl ltac:(lia) ltac:(lia)). lia.
Qed.

(** The fourth power of [t] is far from underflow when [t >= tl > 0.05]. *)
Lemma corner2_mid (t tl : double) (gi : Z) (a b : double) :
  bnd t 0.5 -> finite64 tl = true ->
  (2 ^ 1056 <=? rk (tl * tl * (tl * tl))) = true -> (0 <=? rk tl) = true ->
  rk tl <= rk t ->
  bnd a 1 -> bnd b 1 -> (2 ^ 1018 | rk a) -> (2 ^ 1018 | rk b) ->
  0 < rk a \/ 0 < rk b ->
  negzero64 (t * t * (t * t) * dot2d (grad2_at gi) a b) = false.
Proof.
  intros Hbt Hftl HT Htl0 Htl Ha Hb Hga Hgb Hpos.
  apply Z.leb_le in HT, Htl0.
  assert (finite64 t = true) as Hft by apply Hbt.
  pose proof (bnd_mul _ _ _ _ Hbt Hbt eq_refl) as Hbtt.
  pose proof (bnd_mul _ _ _ _ Hbtt Hbtt eq_refl) as HbT.
  pose proof (sq_ge t tl Hft Hftl ltac:(lia)) as H1.
  destruct (mul_rk tl tl Hftl Hftl) as [_ Hr].
  assert (0 <= rk (tl * tl)) as H2 by (rewrite Hr; apply Rs_nonneg; nia).
  assert (finite64 (tl * tl) = true) as Hftt.
  { apply finite_of_rk; [by destruct (mul_rk tl tl Hftl Hftl)|].
    destruct Hbtt as [Hf Hle]. pose proof (rk_lt_inf _ Hf). lia. }
  pose proof (sq_ge (t * t) (tl * tl) (proj1 Hbtt) Hftt ltac:(lia)) as H3.
  destruct (grad2_at_unit gi) as [Hg0 Hg1].
  destruct (dot_sign _ _ a b Hg0 Hg1 Ha Hb Hga Hgb Hpos) as [Hbd Hs].
  unfold dot2d. apply mul_not_negzero; [apply HbT|apply Hbd| |].
  - assert (0 < 2 ^ 1056) by done. lia.
  - destruct Hs as [Hs|Hs]; [by left|right].
    assert (2 ^ 1074 <= 2 ^ 1056 * 2 ^ 1018) by (by vm_compute).
    assert (0 < 2 ^ 1056) by done. nia.
Qed.

Lemma corner2_mid_x (gi : Z) (z : double) :
  bnd z 0.63 -> (2 ^ 1018 | rk z) ->
  negzero64 (corner2 (0.5 - z * z - G2 * G2) gi z G2) = false.
Proof.
  intros Hbz Hgz. destruct G2_facts as (HfG & HbG & HpG & _ & HgG & _).
  unfold corner2. destruct (0 <=? _)%float eqn:Hg; [|done].
  destruct (guard_inv _ _ (sq_like_sq z) (sq_like_sq G2) Hg)
    as (Hfa & Hfb & Hfu & Hft & Ha & Hb & Hu & Ht).
  pose proof (sq_le z 0.63 (proj1 Hbz) eq_refl (proj2 Hbz)) as Hsq.
  apply corner2_mid with (tl := (0.5 - 0.63 * 0.63 - G2 * G2)%float).
  - split; [done|lia].
  - reflexivity.
  - by vm_compute.
  - by vm_compute.
  - apply sub_rk_mono; [reflexivity|done..| |lia].
    apply sub_rk_mono; [reflexivity|reflexivity|reflexivity|done|lia|done].
  - apply (bnd_weaken _ _ _ Hbz). apply Z.leb_le. by vm_compute.
  - done.
  - done.
  - done.
  - by right.
Qed.

Lemma corner2_mid_y (gi : Z) (z : double) :
  bnd z 0.63 -> (2 ^ 1018 | rk z) ->
  negzero64 (corner2 (0.5 - G2 * G2 - z * z) gi G2 z) = false.
Proof.
  intros Hbz Hgz. destruct G2_facts as (HfG & HbG & HpG & _ & HgG & _).
  unfold corner2. destruct (0 <=? _)%float eqn:Hg; [|done].
  destruct (guard_inv _ _ (sq_like_sq G2) (sq_like_sq z) Hg)
    as (Hfa & Hfb & Hfu & Hft & Ha & Hb & Hu & Ht).
  pose proof (sq_le z 0.63 (proj1 Hbz) eq_refl (proj2 Hbz)) as Hsq.
  apply corner2_mid with (tl := (0.5 - G2 * G2 - 0.63 * 0.63)%float).
  - split; [done|lia].
  - reflexivity.
  - by vm_compute.
  - by vm_compute.
  - apply sub_rk_mono; [reflexivity|done|reflexivity|done|lia|done].
  - done.
  - apply (bnd_weaken _ _ _ Hbz). apply Z.leb_le. by vm_compute.
  - done.
  - done.
  - by left.
Qed.

(** A corner one unit away in [x] (or in [y]) from a zero offset is outside
    its disc. *)
Lemma corner2_off_x (gi : Z) (x0 y1 : double) :
  zero64 x0 = true ->
  corner2 (0.5 - (x0 - 1 + G2) * (x0 - 1 + G2) - y1 * y1) gi (x0 - 1 + G2) y1
  = 0%float.
Proof.
  intros Hx. rewrite (sub_zero_l x0 0 1 Hx eq_refl eq_refl).
  set (c := (0 - 1 + G2)%float).
  unfold corner2. destruct (0 <=? _)%float eqn:Hg; [exfalso|done].
  destruct (guard_inv _ _ (sq_like_sq c) (sq_like_sq y1) Hg)
    as (_ & _ & _ & _ & Ha & _).
  subst c.
  assert (rk 0.5 < rk ((0 - 1 + G2) * (0 - 1 + G2)))
    by (apply Z.ltb_lt; by vm_compute).
  lia.
Qed.

Lemma corner2_off_y (gi : Z) (x1 y0 : double) :
  zero64 y0 = true ->
  corner2 (0.5 - x1 * x1 - (y0 - 1 + G2) * (y0 - 1 + G2)) gi x1 (y0 - 1 + G2)
  = 0%float.
Proof.
  intros Hy. rewrite (sub_zero_l y0 0 1 Hy eq_refl eq_refl).
  set (c := (0 - 1 + G2)%float).
  unfold corner2. destruct (0 <=? _)%float eqn:Hg; [exfalso|done].
  destruct (guard_inv _ _ (sq_like_sq x1) (sq_like_sq c) Hg)
    as (_ & _ & _ & _ & _ & Hb & Hu & _).
  subst c.
  assert (rk 0.5 < rk ((0 - 1 + G2) * (0 - 1 + G2)))
    by (apply Z.ltb_lt; by vm_compute).
  lia.
Qed.

Lemma zero_sub0_add (x0 c : double) :
  zero64 x0 = true -> zero64 c = false -> (x0 - 0 + c)%float = c.
Proof. intros Hx Hc. apply add_zero_l; [by apply sub_zeros|done]. Qed.

(** The two far corners when the middle corner is the one at [(1, 0)]. *)
Lemma corners_lt (gi1 gi2 : Z) (x0 y0 : double) :
  zero64 x0 = true \/ zero64 y0 = true ->
  negzero64 (corner2 (0.5 - (x0 - 1 + G2) * (x0 - 1 + G2)
                          - (y0 - 0 + G2) * (y0 - 0 + G2))
               gi1 (x0 - 1 + G2) (y0 - 0 + G2)) = false \/
  negzero64 (corner2 (0.5 - (x0 - 1 + 2 * G2) * (x0 - 1 + 2 * G2)
                          - (y0 - 1 + 2 * G2) * (y0 - 1 + 2 * G2))
               gi2 (x0 - 1 + 2 * G2) (y0 - 1 + 2 * G2)) = false.
Proof.
  intros [Hx|Hy].
  - left. by rewrite corner2_off_x.
  - rewrite (zero_sub0_add y0 G2 Hy eq_refl).
    rewrite (sub_zero_l y0 0 1 Hy eq_refl eq_refl).
    set (c := (0 - 1 + 2 * G2)%float).
    destruct (0 <=? 0.5 - (x0 - 1 + 2 * G2) * (x0 - 1 + 2 * G2) - c * c)%float
      eqn:Hg2.
    + left.
      destruct (guard_inv _ _ (sq_like_sq (x0 - 1 + 2 * G2)) (sq_like_sq c) Hg2)
        as (Hfa & _ & _ & _ & _ & Hb & _).
      subst c.
      destruct (mul_finite_inv _ _ Hfa) as [Hx2 _].
      assert (rk (0.5 - 0.41 * 0.41) < rk ((0 - 1 + 2 * G2) * (0 - 1 + 2 * G2)))
        as Hc by (apply Z.ltb_lt; by vm_compute).
      pose proof (far_B _ _ Hx2 Hfa Hc (proj2 Hb)) as Hw.
      destruct (window x0 Hx2 Hw) as [Hv Hr].
      destruct (mid_coord x0 Hv Hr) as [Hbz Hgz].
      by apply corner2_mid_x.
    + right. unfold corner2 at 1. by rewrite Hg2.
Qed.

(** The two far corners when the middle corner is the one at [(0, 1)]. *)
Lemma corners_ge (gi1 gi2 : Z) (x0 y0 : double) :
  zero64 x0 = true \/ zero64 y0 = true ->
  negzero64 (corner2 (0.5 - (x0 - 0 + G2) * (x0 - 0 + G2)
                          - (y0 - 1 + G2) * (y0 - 1 + G2))
               gi1 (x0 - 0 + G2) (y0 - 1 + G2)) = false \/
  negzero64 (corner2 (0.5 - (x0 - 1 + 2 * G2) * (x0 - 1 + 2 * G2)
                          - (y0 - 1 + 2 * G2) * (y0 - 1 + 2 * G2))
               gi2 (x0 - 1 + 2 * G2) (y0 - 1 + 2 * G2)) = false.
Proof.
  intros [Hx|Hy].
  - rewrite (zero_sub0_add x0 G2 Hx eq_refl).
    rewrite (sub_zero_l x0 0 1 Hx eq_refl eq_refl).
    set (c := (0 - 1 + 2 * G2)%float).
    destruct (0 <=? 0.5 - c * c - (y0 - 1 + 2 * G2) * (y0 - 1 + 2 * G2))%float
      eqn:Hg2.
    + left.
      destruct (guard_inv _ _ (sq_like_sq c) (sq_like_sq (y0 - 1 + 2 * G2)) Hg2)
        as (_ & Hfb & _ & _ & _ & Hb & _).
      subst c.
      destruct (mul_finite_inv _ _ Hfb) as [Hy2 _].
      assert (rk (0.5 - (0 - 1 + 2 * G2) * (0 - 1 + 2 * G2)) < rk (0.41 * 0.41))
        as Hc by (apply Z.ltb_lt; by vm_compute).
      pose proof (far_A _ _ Hy2 Hc (proj2 Hb)) as Hw.
      destruct (window y0 Hy2 Hw) as [Hv Hr].
      destruct (mid_coord y0 Hv Hr) as [Hbz Hgz].
      by apply corner2_mid_y.
    + right. unfold corner2 at 1. by rewrite Hg2.
  - left. by rewrite corner2_off_y.
Qed.

(** ** The kernel does not see the sign of a zero coordinate *)

(** [noise_2d_body] from the offsets [x0], [y0] of the first corner on. *)
Definition noise_2d_corners (p : list Z) (i j : Z) (x0 y0 : double) : double :=
  let '(i1, j1) := if (y0 <? x0)%float then (1, 0) else (0, 1) in
  let x1 := (x0 - double_of_int i1 + G2)%float in
  let y1 := (y0 - double_of_int j1 + G2)%float in
  let x2 := (x0 - 1.0 + 2.0 * G2)%float in
  let y2 := (y0 - 1.0 + 2.0 * G2)%float in
  let ii := Z.land i 255 in
  let jj := Z.land j 255 in
  let gi0 := Z.rem (rd p (ii + rd p jj)) 8 in
  let gi1 := Z.rem (rd p (ii + i1 + rd p (jj + j1))) 8 in
  let gi2 := Z.rem (rd p (ii + 1 + rd p (jj + 1))) 8 in
  let n0 := corner2 (0.5 - x0 * x0 - y0 * y0)%float gi0 x0 y0 in
  let n1 := corner2 (0.5 - x1 * x1 - y1 * y1)%float gi1 x1 y1 in
  let n2 := corner2 (0.5 - x2 * x2 - y2 * y2)%float gi2 x2 y2 in
  (70.0 * (n0 + n1 + n2))%float.

Lemma noise_2d_body_corners (p : list Z) (x y : double) :
  noise_2d_body p x y
  = let s := ((x + y) * F2)%float in
    let i := fast_floor (x + s)%float in
    let j := fast_floor (y + s)%float in
    let t := (double_of_int (s32 (i + j)) * G2)%float in
    noise_2d_corners p i j (x - (double_of_int i - t))%float
                           (y - (double_of_int j - t))%float.
Proof. reflexivity. Qed.

Lemma fast_floor_zeq (a a' : double) :
  zeq a a' -> fast_floor a = fast_floor a'.
Proof.
  intros [->|[Ha Ha']]; [done|].
  unfold fast_floor, int_of_double, trunc_double.
  rewrite !ltb_spec. unfold zero64 in *.
  by destruct (Prim2SF a), (Prim2SF a').
Qed.

Lemma corner2_zeq (t : double) (gi : Z) (x x' y y' : double) :
  zeq x x' -> zeq y y' -> zeq (corner2 t gi x y) (corner2 t gi x' y').
Proof.
  intros Hx Hy. unfold corner2, dot2d.
  destruct (0 <=? t)%float; [|apply zeq_refl].
  by apply zeq_mul_r, zeq_add; apply zeq_mul_r.
Qed.

Lemma corners_sum_zeq (n0 n0' n1 n2 : double) :
  zeq n0 n0' -> negzero64 n1 = false \/ negzero64 n2 = false ->
  (70.0 * (n0 + n1 + n2))%float = (70.0 * (n0' + n1 + n2))%float.
Proof.
  intros [->|[Hz Hz']] Hn; [done|]. f_equal.
  destruct (negzero64 n1) eqn:H1.
  - destruct Hn as [?|H2]; [done|]. apply negzero_zero in H1.
    apply add_zero_not_negzero; [by apply add_zeros..|done].
  - f_equal. by apply add_zero_not_negzero.
Qed.

Lemma noise_2d_corners_zeq (p : list Z) (i j : Z) (x0 y0 x0' y0' : double) :
  zeq x0 x0' -> zeq y0 y0' ->
  noise_2d_corners p i j x0 y0 = noise_2d_corners p i j x0' y0'.
Proof.
  intros Hx Hy.
  assert ((zero64 x0 = true \/ zero64 y0 = true) \/ (x0 = x0' /\ y0 = y0'))
    as [Hz|[-> ->]]; [| |done].
  { destruct Hx as [->|[? ?]], Hy as [->|[? ?]]; auto. }
  unfold noise_2d_corners.
  rewrite <- (zeq_ltb y0 y0' x0 x0' Hy Hx).
  destruct (y0 <? x0)%float; cbv zeta beta iota;
    change (double_of_int 1) with 1%float;
    change (double_of_int 0) with 0%float;
    rewrite <- !(zeq_sub_nz x0 x0' 1 Hx eq_refl);
    rewrite <- !(zeq_sub_nz y0 y0' 1 Hy eq_refl);
    rewrite <- !(zeq_sq x0 x0' Hx), <- !(zeq_sq y0 y0' Hy).
  - rewrite <- !(zeq_add_nz (y0 - 0) (y0' - 0) G2
                   (zeq_sub _ _ _ _ Hy (zeq_refl 0)) eq_refl).
    apply corners_sum_zeq; [by apply corner2_zeq|by apply corners_lt].
  - rewrite <- !(zeq_add_nz (x0 - 0) (x0' - 0) G2
                   (zeq_sub _ _ _ _ Hx (zeq_refl 0)) eq_refl).
    apply corners_sum_zeq; [by apply corner2_zeq|by apply corners_ge].
Qed.

Lemma noise_2d_body_zeq (p : list Z) (x y x' y' : double) :
  zeq x x' -> zeq y y' -> noise_2d_body p x y = noise_2d_body p x' y'.
Proof.
  intros Hx Hy. rewrite !noise_2d_body_corners. cbv zeta.
  assert (zeq ((x + y) * F2) ((x' + y') * F2)) as Hs
    by (by apply zeq_mul_l, zeq_add).
  rewrite <- (fast_floor_zeq _ _ (zeq_add _ _ _ _ Hx Hs)).
  rewrite <- (fast_floor_zeq _ _ (zeq_add _ _ _ _ Hy Hs)).
  apply noise_2d_corners_zeq; apply zeq_sub; (done || apply zeq_refl).
Qed.

(** C5.  With [warp_strength = 0], [simplex_domain_warp_2d] returns exactly
    (bit for bit) what [simplex_noise_2d] returns at the same point, for
    every pair of doubles and from every state of the engine, and leaves
    the engine in the same state.  The warped coordinates are [x] and [y]
    themselves: both noise samples are finite, so [n * 0] is a zero and
    [x + n * 0] is [x], up to the sign of a zero coordinate ([-0.0] may
    come out as [+0.0], which C's [==] does not tell apart), and the
    kernel does not see the sign of a zero coordinate. *)
Theorem domain_warp_zero_strength (now : Z) (st : engine) (x y : double) :
  simplex_domain_warp_2d now st x y 0 = simplex_noise_2d now st x y /\
  let '(n1, st1) := simplex_noise_2d now st x y in
  let '(n2, _) := simplex_noise_2d now st1 (x + 100) (y + 100) in
  zeq (x + n1 * 0) x /\ zeq (y + n2 * 0) y.
Proof.
  unfold simplex_domain_warp_2d. rewrite !simplex_noise_2d_ensure.
  rewrite !ensure_init_idem.
  set (p := perm (ensure_init now st)).
  assert (forall a b c, zeq (a + noise_2d_body p b c * 0) a) as Hw'.
  { intros a b c. apply add_zero_zeq, finite_mul_zero, noise_2d_body_finite. }
  split; [|by split]. f_equal. by apply noise_2d_body_zeq.
Qed.

(** ** What the kernels return

    The guards [t >= 0] make the 2D, 3D and 4D kernels total on doubles:
    whatever the coordinates (NaN and the infinities included) and whatever
    the table holds, the result is a number of bounded magnitude.  The 1D
    kernel has no guard. *)

Lemma noise_2d_body_bnd (p : list Z) (x y : double) :
  bnd (noise_2d_body p x y) 26.25.
Proof.
  unfold noise_2d_body. cbv zeta.
  assert (forall n0 n1 n2, bnd n0 0.125 -> bnd n1 0.125 -> bnd n2 0.125 ->
            bnd (70.0 * (n0 + n1 + n2)) 26.25) as Hsum.
  { intros n0 n1 n2 H0 H1 H2.
    pose proof (bnd_add _ _ _ _ H0 H1 eq_refl) as H01.
    pose proof (bnd_add _ _ _ _ H01 H2 eq_refl) as H012.
    assert (bnd 70.0 70.0) as H70 by done.
    exact (bnd_mul _ _ _ _ H70 H012 eq_refl). }
  destruct (_ <? _)%float; apply Hsum; apply corner2_bnd.
Qed.

(** X1.  [simplex_noise_2d] returns a number for every pair of doubles
    (NaN and the infinities included), from every state of the engine and
    whatever the table holds: the result is never NaN and lies between
    [-26.25] and [26.25]. *)
Theorem simplex_noise_2d_bounded (now : Z) (st : engine) (x y : double) :
  let v := fst (simplex_noise_2d now st x y) in
  nan64 v = false /\ (-26.25 <=? v)%float = true /\ (v <=? 26.25)%float = true.
Proof.
  cbv zeta. rewrite simplex_noise_2d_ensure. cbn [fst].
  pose proof (noise_2d_body_bnd (perm (ensure_init now st)) x y) as Hb.
  split; [apply finite_not_nan, Hb|]. exact (bnd_leb _ _ Hb eq_refl).
Qed.

Lemma nonfinite_offset (a c d : double) :
  finite64 a = false -> finite64 (a - c + d) = false.
Proof.
  intros Ha. destruct (finite64 (a - c + d)) eqn:H; [|done].
  apply add_finite_inv in H as [H _]. apply sub_finite_inv in H as [H _].
  congruence.
Qed.

Lemma corner2_nonfinite (gi : Z) (x y : double) :
  finite64 x = false \/ finite64 y = false ->
  corner2 (0.5 - x * x - y * y) gi x y = 0%float.
Proof.
  intros Hxy. unfold corner2. destruct (0 <=? _)%float eqn:Hg; [exfalso|done].
  destruct (guard_inv _ _ (sq_like_sq x) (sq_like_sq y) Hg) as (Hfa & Hfb & _).
  apply mul_finite_inv in Hfa as [Hx _]. apply mul_finite_inv in Hfb as [Hy _].
  destruct Hxy; congruence.
Qed.

(** An offset [a - c1 - c2 + c3] of a coordinate that is not finite is not
    finite either. *)
Ltac nonfinite_offsets H :=
  let E := fresh "E" in
  destruct H as [H|H]; [left|right];
  match goal with
  | |- finite64 ?e = false => destruct (finite64 e) eqn:E; [exfalso|reflexivity]
  end;
  repeat first [apply add_finite_inv in E as [E _]
               |apply sub_finite_inv in E as [E _]];
  congruence.

Lemma noise_2d_body_nonfinite (p : list Z) (x y : double) :
  finite64 x = false \/ finite64 y = false -> noise_2d_body p x y = 0%float.
Proof.
  intros Hxy. unfold noise_2d_body. cbv zeta.
  destruct (_ <? _)%float;
    rewrite !corner2_nonfinite by nonfinite_offsets Hxy; reflexivity.
Qed.

(** X2.  When a coordinate is NaN or infinite, every corner guard of
    [simplex_noise_2d] fails and the result is [+0.0]. *)
Theorem simplex_noise_2d_nonfinite (now : Z) (st : engine) (x y : double) :
  finite64 x = false \/ finite64 y = false ->
  fst (simplex_noise_2d now st x y) = 0%float.
Proof.
  intros H. rewrite simplex_noise_2d_ensure. cbn [fst].
  by apply noise_2d_body_nonfinite.
Qed.

(** X3.  [simplex_noise_2d] does not see the sign of a zero coordinate:
    at [-0.0] it returns, bit for bit, what it returns at [+0.0]. *)
Theorem simplex_noise_2d_signed_zero (now : Z) (st : engine) (c : double) :
  simplex_noise_2d now st (-0) c = simplex_noise_2d now st 0 c /\
  simplex_noise_2d now st c (-0) = simplex_noise_2d now st c 0 /\
  simplex_noise_2d now st (-0) (-0) = simplex_noise_2d now st 0 0.
Proof.
  rewrite !simplex_noise_2d_ensure.
  assert (zeq (-0) 0) as Hz by (by right).
  split_and!; f_equal; apply noise_2d_body_zeq; (done || apply zeq_refl).
Qed.

Lemma grad3_at_unit (k : Z) :
  let '(g0, g1, g2) := grad3_at k in unit64 g0 /\ unit64 g1 /\ unit64 g2.
Proof.
  unfold grad3_at, unit64. generalize (Z.to_nat k). intros n.
  do 12 (destruct n as [|n]; [cbn; tauto|]). destruct n; cbn; tauto.
Qed.

Lemma grad4_at_unit (k : Z) :
  let '(g0, g1, g2, g3) := grad4_at k in
  unit64 g0 /\ unit64 g1 /\ unit64 g2 /\ unit64 g3.
Proof.
  unfold grad4_at, unit64. generalize (Z.to_nat k). intros n.
  do 32 (destruct n as [|n]; [cbn; tauto|]). destruct n; cbn; tauto.
Qed.

(** What a passing guard [0.6 - a - b - c >= 0] says of three squares. *)
Lemma guard_inv3 (x y z : double) :
  (0 <=? 0.6 - x * x - y * y - z * z)%float = true ->
  bnd x 1 /\ bnd y 1 /\ bnd z 1 /\ bnd (0.6 - x * x - y * y - z * z) 0.6.
Proof.
  intros Hg. apply leb0_true in Hg as [Hn Hr].
  pose proof (down_like_finite 0.6 eq_refl) as H0.
  pose proof (down_like_sub _ _ H0 (sq_like_sq x)) as H1.
  pose proof (down_like_sub _ _ H1 (sq_like_sq y)) as H2.
  destruct (guard_step _ _ H2 (sq_like_sq z) Hn Hr)
    as (Hf2 & Hfc & Hft & Hc & Ht).
  destruct (guard_step _ _ H1 (sq_like_sq y) (finite_not_nan _ Hf2) ltac:(lia))
    as (Hf1 & Hfb & _ & Hb & Hu2).
  destruct (guard_step _ _ H0 (sq_like_sq x) (finite_not_nan _ Hf1) ltac:(lia))
    as (_ & Hfa & _ & Ha & Hu1).
  apply mul_finite_inv in Hfa as Hx. apply mul_finite_inv in Hfb as Hy.
  apply mul_finite_inv in Hfc as Hz.
  assert (rk 0.6 < rk (1 * 1)) as H61 by (apply Z.ltb_lt; by vm_compute).
  assert (0 <= rk 1) as H1p by (apply Z.leb_le; by vm_compute).
  assert (forall v, finite64 v = true -> rk (v * v) <= rk 0.6 -> bnd v 1) as Hsq.
  { intros v Hv Hle. split; [done|].
    pose proof (sq_lt_inv v 1 Hv eq_refl H1p). lia. }
  split_and!; [apply Hsq; [apply Hx|lia]|apply Hsq; [apply Hy|lia]
              |apply Hsq; [apply Hz|lia]|split; [done|lia]].
Qed.

Lemma guard_inv4 (x y z w : double) :
  (0 <=? 0.6 - x * x - y * y - z * z - w * w)%float = true ->
  bnd x 1 /\ bnd y 1 /\ bnd z 1 /\ bnd w 1 /\
  bnd (0.6 - x * x - y * y - z * z - w * w) 0.6.
Proof.
  intros Hg. apply leb0_true in Hg as [Hn Hr].
  pose proof (down_like_finite 0.6 eq_refl) as H0.
  pose proof (down_like_sub _ _ H0 (sq_like_sq x)) as H1.
  pose proof (down_like_sub _ _ H1 (sq_like_sq y)) as H2.
  pose proof (down_like_sub _ _ H2 (sq_like_sq z)) as H3.
  destruct (guard_step _ _ H3 (sq_like_sq w) Hn Hr)
    as (Hf3 & Hfd & Hft & Hd & Ht).
  destruct (guard_step _ _ H2 (sq_like_sq z) (finite_not_nan _ Hf3) ltac:(lia))
    as (Hf2 & Hfc & _ & Hc & Hu3).
  destruct (guard_step _ _ H1 (sq_like_sq y) (finite_not_nan _ Hf2) ltac:(lia))
    as (Hf1 & Hfb & _ & Hb & Hu2).
  destruct (guard_step _ _ H0 (sq_like_sq x) (finite_not_nan _ Hf1) ltac:(lia))
    as (_ & Hfa & _ & Ha & Hu1).
  apply mul_finite_inv in Hfa as Hx. apply mul_finite_inv in Hfb as Hy.
  apply mul_finite_inv in Hfc as Hz. apply mul_finite_inv in Hfd as Hw.
  assert (rk 0.6 < rk (1 * 1)) as H61 by (apply Z.ltb_lt; by vm_compute).
  assert (0 <= rk 1) as H1p by (apply Z.leb_le; by vm_compute).
  assert (forall v, finite64 v = true -> rk (v * v) <= rk 0.6 -> bnd v 1) as Hsq.
  { intros v Hv Hle. split; [done|].
    pose proof (sq_lt_inv v 1 Hv eq_refl H1p). lia. }
  split_and!; [apply Hsq; [apply Hx|lia]|apply Hsq; [apply Hy|lia]
              |apply Hsq; [apply Hz|lia]|apply Hsq; [apply Hw|lia]
              |split; [done|lia]].
Qed.

Lemma corner3_bnd (gi : Z) (x y z : double) :
  bnd (corner3 (0.6 - x * x - y * y - z * z) gi x y z) 0.4.
Proof.
  unfold corner3. destruct (0 <=? _)%float eqn:Hg; [|done].
  destruct (guard_inv3 x y z Hg) as (Hx & Hy & Hz & Ht).
  pose proof (grad3_at_unit gi) as Hu. unfold dot3d.
  destruct (grad3_at gi) as [[g0 g1] g2]. destruct Hu as (H0 & H1 & H2).
  pose proof (bnd_mul _ _ _ _ Ht Ht eq_refl) as Htt.
  pose proof (bnd_mul _ _ _ _ Htt Htt eq_refl) as HT.
  pose proof (bnd_mul _ _ _ _ (unit_bnd _ H0) Hx eq_refl) as Hb0.
  pose proof (bnd_mul _ _ _ _ (unit_bnd _ H1) Hy eq_refl) as Hb1.
  pose proof (bnd_mul _ _ _ _ (unit_bnd _ H2) Hz eq_refl) as Hb2.
  pose proof (bnd_add _ _ _ _ Hb0 Hb1 eq_refl) as Hb01.
  pose proof (bnd_add _ _ _ _ Hb01 Hb2 eq_refl) as Hd.
  apply (bnd_weaken _ _ _ (bnd_mul _ _ _ _ HT Hd eq_refl)).
  apply Z.leb_le. by vm_compute.
Qed.

Lemma corner4_bnd (gi : Z) (x y z w : double) :
  bnd (corner4 (0.6 - x * x - y * y - z * z - w * w) gi x y z w) 0.52.
Proof.
  unfold corner4. destruct (0 <=? _)%float eqn:Hg; [|done].
  destruct (guard_inv4 x y z w Hg) as (Hx & Hy & Hz & Hw & Ht).
  pose proof (grad4_at_unit gi) as Hu. unfold dot4d.
  destruct (grad4_at gi) as [[[g0 g1] g2] g3]. destruct Hu as (H0 & H1 & H2 & H3).
  pose proof (bnd_mul _ _ _ _ Ht Ht eq_refl) as Htt.
  pose proof (bnd_mul _ _ _ _ Htt Htt eq_refl) as HT.
  pose proof (bnd_mul _ _ _ _ (unit_bnd _ H0) Hx eq_refl) as Hb0.
  pose proof (bnd_mul _ _ _ _ (unit_bnd _ H1) Hy eq_refl) as Hb1.
  pose proof (bnd_mul _ _ _ _ (unit_bnd _ H2) Hz eq_refl) as Hb2.
  pose proof (bnd_mul _ _ _ _ (unit_bnd _ H3) Hw eq_refl) as Hb3.
  pose proof (bnd_add _ _ _ _ Hb0 Hb1 eq_refl) as Hb01.
  pose proof (bnd_add _ _ _ _ Hb01 Hb2 eq_refl) as Hb012.
  pose proof (bnd_add _ _ _ _ Hb012 Hb3 eq_refl) as Hd.
  apply (bnd_weaken _ _ _ (bnd_mul _ _ _ _ HT Hd eq_refl)).
  apply Z.leb_le. by vm_compute.
Qed.

Lemma noise_3d_body_bnd (p : list Z) (x y z : double) :
  bnd (noise_3d_body p x y z) 51.2.
Proof.
  unfold noise_3d_body. cbv zeta.
  assert (forall n0 n1 n2 n3,
            bnd n0 0.4 -> bnd n1 0.4 -> bnd n2 0.4 -> bnd n3 0.4 ->
            bnd (32.0 * (n0 + n1 + n2 + n3)) 51.2) as Hsum.
  { intros n0 n1 n2 n3 H0 H1 H2 H3.
    pose proof (bnd_add _ _ _ _ H0 H1 eq_refl) as H01.
    pose proof (bnd_add _ _ _ _ H01 H2 eq_refl) as H012.
    pose proof (bnd_add _ _ _ _ H012 H3 eq_refl) as H0123.
    assert (bnd 32.0 32.0) as H32 by done.
    apply (bnd_weaken _ _ _ (bnd_mul _ _ _ _ H32 H0123 eq_refl)).
    apply Z.leb_le. by vm_compute. }
  repeat (destruct (_ <=? _)%float || destruct (_ <? _)%float);
    apply Hsum; apply corner3_bnd.
Qed.

Lemma noise_4d_body_bnd (p : list Z) (x y z w : double) :
  bnd (noise_4d_body p x y z w) 70.5.
Proof.
  unfold noise_4d_body. cbv zeta.
  assert (forall n0 n1 n2 n3 n4,
            bnd n0 0.52 -> bnd n1 0.52 -> bnd n2 0.52 -> bnd n3 0.52 ->
            bnd n4 0.52 -> bnd (27.0 * (n0 + n1 + n2 + n3 + n4)) 70.5) as Hsum.
  { intros n0 n1 n2 n3 n4 H0 H1 H2 H3 H4.
    pose proof (bnd_add _ _ _ _ H0 H1 eq_refl) as H01.
    pose proof (bnd_add _ _ _ _ H01 H2 eq_refl) as H012.
    pose proof (bnd_add _ _ _ _ H012 H3 eq_refl) as H0123.
    pose proof (bnd_add _ _ _ _ H0123 H4 eq_refl) as H01234.
    assert (bnd 27.0 27.0) as H27 by done.
    apply (bnd_weaken _ _ _ (bnd_mul _ _ _ _ H27 H01234 eq_refl)).
    apply Z.leb_le. by vm_compute. }
  destruct (simplex_at _) as [[[s0 s1] s2] s3].
  apply Hsum; apply corner4_bnd.
Qed.

(** X4.  [simplex_noise_3d] returns a number for every triple of doubles,
    from every state of the engine: never NaN, between [-51.2] and
    [51.2]. *)
Theorem simplex_noise_3d_bounded (now : Z) (st : engine) (x y z : double) :
  let v := fst (simplex_noise_3d now st x y z) in
  nan64 v = false /\ (-51.2 <=? v)%float = true /\ (v <=? 51.2)%float = true.
Proof.
  cbv zeta. rewrite simplex_noise_3d_ensure. cbn [fst].
  pose proof (noise_3d_body_bnd (perm (ensure_init now st)) x y z) as Hb.
  split; [apply finite_not_nan, Hb|]. exact (bnd_leb _ _ Hb eq_refl).
Qed.

(** X5.  [simplex_noise_4d] returns a number for all doubles, from every
    state of the engine: never NaN, between [-70.5] and [70.5]. *)
Theorem simplex_noise_4d_bounded (now : Z) (st : engine) (x y z w : double) :
  let v := fst (simplex_noise_4d now st x y z w) in
  nan64 v = false /\ (-70.5 <=? v)%float = true /\ (v <=? 70.5)%float = true.
Proof.
  cbv zeta. rewrite simplex_noise_4d_ensure. cbn [fst].
  pose proof (noise_4d_body_bnd (perm (ensure_init now st)) x y z w) as Hb.
  split; [apply finite_not_nan, Hb|]. exact (bnd_leb _ _ Hb eq_refl).
Qed.

Ltac nonfinite_goal :=
  let E := fresh "E" in
  match goal with
  | |- finite64 ?e = false => destruct (finite64 e) eqn:E; [exfalso|reflexivity]
  end;
  repeat first [apply add_finite_inv in E as [E _]
               |apply sub_finite_inv in E as [E _]];
  congruence.

Lemma corner3_nonfinite (gi : Z) (x y z : double) :
  finite64 x = false \/ finite64 y = false \/ finite64 z = false ->
  corner3 (0.6 - x * x - y * y - z * z) gi x y z = 0%float.
Proof.
  intros H. unfold corner3. destruct (0 <=? _)%float eqn:Hg; [exfalso|done].
  destruct (guard_inv3 x y z Hg) as ([Hx _] & [Hy _] & [Hz _] & _).
  destruct H as [H|[H|H]]; congruence.
Qed.

Lemma corner4_nonfinite (gi : Z) (x y z w : double) :
  finite64 x = false \/ finite64 y = false \/ finite64 z = false \/
  finite64 w = false ->
  corner4 (0.6 - x * x - y * y - z * z - w * w) gi x y z w = 0%float.
Proof.
  intros H. unfold corner4. destruct (0 <=? _)%float eqn:Hg; [exfalso|done].
  destruct (guard_inv4 x y z w Hg) as ([Hx _] & [Hy _] & [Hz _] & [Hw _] & _).
  destruct H as [H|[H|[H|H]]]; congruence.
Qed.

Lemma noise_3d_body_nonfinite (p : list Z) (x y z : double) :
  finite64 x = false \/ finite64 y = false \/ finite64 z = false ->
  noise_3d_body p x y z = 0%float.
Proof.
  intros H. unfold noise_3d_body. cbv zeta.
  repeat (destruct (_ <=? _)%float || destruct (_ <? _)%float);
    rewrite !corner3_nonfinite
      by (destruct H as [H|[H|H]];
          [left|right; left|right; right]; nonfinite_goal);
    reflexivity.
Qed.

Lemma noise_4d_body_nonfinite (p : list Z) (x y z w : double) :
  finite64 x = false \/ finite64 y = false \/ finite64 z = false \/
  finite64 w = false ->
  noise_4d_body p x y z w = 0%float.
Proof.
  intros H. unfold noise_4d_body. cbv zeta.
  destruct (simplex_at _) as [[[s0 s1] s2] s3].
  rewrite !corner4_nonfinite
    by (destruct H as [H|[H|[H|H]]];
        [left|right; left|right; right; left|right; right; right];
        nonfinite_goal).
  reflexivity.
Qed.

(** X6.  When a coordinate is NaN or infinite, [simplex_noise_3d] returns
    [+0.0]. *)
Theorem simplex_noise_3d_nonfinite (now : Z) (st : engine) (x y z : double) :
  finite64 x = false \/ finite64 y = false \/ finite64 z = false ->
  fst (simplex_noise_3d now st x y z) = 0%float.
Proof.
  intros H. rewrite simplex_noise_3d_ensure. cbn [fst].
  by apply noise_3d_body_nonfinite.
Qed.

(** X7.  When a coordinate is NaN or infinite, [simplex_noise_4d] returns
    [+0.0]. *)
Theorem simplex_noise_4d_nonfinite (now : Z) (st : engine) (x y z w : double) :
  finite64 x = false \/ finite64 y = false \/ finite64 z = false \/
  finite64 w = false ->
  fst (simplex_noise_4d now st x y z w) = 0%float.
Proof.
  intros H. rewrite simplex_noise_4d_ensure. cbn [fst].
  by apply noise_4d_body_nonfinite.
Qed.

(** X8.  [simplex_noise_1d] has no guard: at NaN or an infinity it returns
    NaN or an infinity. *)
Theorem simplex_noise_1d_nonfinite (now : Z) (st : engine) (x : double) :
  finite64 x = false -> finite64 (fst (simplex_noise_1d now st x)) = false.
Proof.
  intros H. rewrite simplex_noise_1d_ensure. cbn [fst].
  unfold noise_1d_body. cbv zeta.
  match goal with
  | |- finite64 ?e = false => destruct (finite64 e) eqn:E; [exfalso|reflexivity]
  end.
  apply mul_finite_inv in E as [_ E]. apply add_finite_inv in E as [E _].
  apply mul_finite_inv in E as [E _]. apply mul_finite_inv in E as [E _].
  apply mul_finite_inv in E as [E _]. apply sub_finite_inv in E as [_ E].
  apply mul_finite_inv in E as [E _]. apply sub_finite_inv in E as [E _].
  congruence.
Qed.

(** X9.  The billowy variants are never negative and the ridged variants
    never exceed [1]: in 2D, [0 <= billowy <= 26.25] and
    [-25.25 <= ridged <= 1]; in 3D, [0 <= billowy <= 51.2] and
    [-50.5 <= ridged <= 1]; none of them is NaN, whatever the point. *)
Theorem variants_2d_3d_range (now : Z) (st : engine) (x y z : double) :
  let b2 := fst (simplex_billowy_2d now st x y) in
  let r2 := fst (simplex_ridged_2d now st x y) in
  let b3 := fst (simplex_billowy_3d now st x y z) in
  let r3 := fst (simplex_ridged_3d now st x y z) in
  ((0 <=? b2)%float = true /\ (b2 <=? 26.25)%float = true) /\
  ((-25.25 <=? r2)%float = true /\ (r2 <=? 1)%float = true) /\
  ((0 <=? b3)%float = true /\ (b3 <=? 51.2)%float = true) /\
  ((-50.5 <=? r3)%float = true /\ (r3 <=? 1)%float = true).
Proof.
  cbv zeta.
  unfold simplex_billowy_2d, simplex_ridged_2d,
    simplex_billowy_3d, simplex_ridged_3d.
  rewrite simplex_noise_2d_ensure, simplex_noise_3d_ensure. cbn [fst].
  set (p := perm (ensure_init now st)). unfold fabs.
  pose proof (abs_itv _ _ (noise_2d_body_bnd p x y)) as H2.
  pose proof (abs_itv _ _ (noise_3d_body_bnd p x y z)) as H3.
  pose proof (itv_sub _ _ _ _ _ _ (itv_const 1 eq_refl) H2 eq_refl eq_refl)
    as Hr2.
  pose proof (itv_sub _ _ _ _ _ _ (itv_const 1 eq_refl) H3 eq_refl eq_refl)
    as Hr3.
  split_and!.
  - by apply (itv_leb _ _ _ H2).
  - by apply (itv_leb _ _ _ H2).
  - by apply (itv_leb _ _ _ Hr2).
  - by apply (itv_leb _ _ _ Hr2).
  - by apply (itv_leb _ _ _ H3).
  - by apply (itv_leb _ _ _ H3).
  - apply (itv_leb _ (-50.5) 1); [|done..].
    apply (itv_weaken _ _ _ _ _ Hr3); apply Z.leb_le; by vm_compute.
  - by apply (itv_leb _ _ _ Hr3).
Qed.

(** ** The 3D bulk array *)

Lemma simplex_noise_3d_initialized now st x y z :
  initialized st <> 0 ->
  simplex_noise_3d now st x y z = (noise_3d_body (perm st) x y z, st).
Proof. intros H. unfold simplex_noise_3d. by rewrite ensure_init_id. Qed.

(** Row-major indices of a grid are distinct. *)
Lemma row_major_inj (w a a' i i' : Z) :
  0 <= i < w -> 0 <= i' < w -> a * w + i = a' * w + i' -> a = a' /\ i = i'.
Proof. intros Hi Hi' He. assert (a = a') by nia. split; [done|nia]. Qed.

(** X10.  On an initialised engine, for positive sizes and a buffer with
    room for [width * height * depth] doubles (the product fitting an
    [int], as the index is computed in [int]), [simplex_noise_array_3d]
    returns 0 and leaves in cell [(k * height + j) * width + i] the value of
    [simplex_noise_3d] at
    [(x_start + i * step, y_start + j * step, z_start + k * step)], for
    every [i < width], [j < height], [k < depth]; the engine and the rest
    of the buffer are unchanged. *)
Theorem array_3d_matches_scalar (now : Z) (st : engine)
    (x_start y_start z_start : double) (width height depth : Z) (step : double)
    (buf : list double) :
  initialized st <> 0 ->
  0 < width -> 0 < height -> 0 < depth ->
  width * height * depth <= INT_MAX ->
  width * height * depth <= Z.of_nat (length buf) ->
  exists buf',
    simplex_noise_array_3d now st x_start y_start z_start width height depth
      step (Some buf) = (0, Some buf', st) /\
    length buf' = length buf /\
    (forall i j k, 0 <= i < width -> 0 <= j < height -> 0 <= k < depth ->
       buf' !! Z.to_nat ((k * height + j) * width + i)
       = Some (fst (simplex_noise_3d now st
                      (x_start + double_of_int i * step)%float
                      (y_start + double_of_int j * step)%float
                      (z_start + double_of_int k * step)%float))) /\
    (forall n, (Z.to_nat (width * height * depth) <= n)%nat ->
       buf' !! n = buf !! n).
Proof.
  intros Hinit Hw Hh Hd Hfit Hroom.
  set (val := fun i j k : Z =>
         fst (simplex_noise_3d now st (x_start + double_of_int i * step)%float
                (y_start + double_of_int j * step)%float
                (z_start + double_of_int k * step)%float)).
  (* the cells filled when the loops stand at slice [z], row [y], column [x] *)
  set (P := fun (z y x : Z) (bs : fill_state) =>
         snd bs = st /\ length (fst bs) = length buf /\
         (forall i j k, 0 <= i < width -> 0 <= j < height -> 0 <= k < depth ->
            k < z \/ (k = z /\ (j < y \/ (j = y /\ i < x))) ->
            fst bs !! Z.to_nat ((k * height + j) * width + i)
            = Some (val i j k)) /\
         (forall n, (Z.to_nat (width * height * depth) <= n)%nat ->
            fst bs !! n = buf !! n)).
  assert (Hrange : forall i j k, 0 <= i < width -> 0 <= j < height ->
            0 <= k < depth ->
            0 <= k * height + j < height * depth /\
            0 <= (k * height + j) * width + i < width * height * depth).
  { intros i j k Hi Hj Hk. assert (0 <= k * height + j < height * depth) by nia.
    split; [done|]. nia. }
  assert (Hcell : forall z y x bs, 0 <= z < depth -> 0 <= y < height ->
            0 <= x < width -> P z y x bs ->
            P z y (x + 1)
              (array_3d_cell now x_start y_start z_start width height step
                 z y x bs)).
  { intros z y x [b e] Hz Hy Hx (He & Hlen & Hdone & Hrest).
    simpl in He, Hlen, Hdone, Hrest. subst e.
    unfold array_3d_cell. rewrite simplex_noise_3d_initialized by done.
    destruct (Hrange x y z Hx Hy Hz) as [Hr1 Hr2].
    unfold INT_MAX in Hfit.
    assert (0 <= z * height <= height * depth) by nia.
    assert (height * depth <= width * height * depth) by nia.
    rewrite (s32_id (z * height)) by (unfold INT_MIN, INT_MAX; lia).
    rewrite (s32_id (z * height + y)) by (unfold INT_MIN, INT_MAX; lia).
    rewrite (s32_id ((z * height + y) * width))
      by (unfold INT_MIN, INT_MAX; nia).
    rewrite s32_id by (unfold INT_MIN, INT_MAX; lia).
    split; [done|]. split; [simpl; by rewrite length_wr|]. simpl. split.
    - intros i j k Hi Hj Hk Hbefore. unfold wr.
      destruct (Hrange i j k Hi Hj Hk) as [Hq1 Hq2].
      destruct (decide (k = z /\ j = y /\ i = x)) as [(-> & -> & ->)|Hne].
      + rewrite list_lookup_insert_eq by lia.
        unfold val. by rewrite simplex_noise_3d_initialized.
      + assert ((k * height + j) * width + i <> (z * height + y) * width + x).
        { intros He. apply row_major_inj in He as [He ->]; [|done..].
          apply row_major_inj in He as [-> ->]; [|done..]. by apply Hne. }
        rewrite list_lookup_insert_ne by lia.
        apply Hdone; [done..|]. lia.
    - intros n Hn. unfold wr. rewrite list_lookup_insert_ne by lia.
      by apply Hrest. }
  assert (Hrow : forall z y bs, 0 <= z < depth -> 0 <= y < height ->
            P z y 0 bs ->
            P z (y + 1) 0
              (for_up (Z.to_nat width) 0
                 (array_3d_cell now x_start y_start z_start width height step
                    z y) bs)).
  { intros z y bs Hz Hy H0.
    pose proof (for_up_inv (P z y) (Z.to_nat width) 0
                  (array_3d_cell now x_start y_start z_start width height step
                     z y) bs H0) as Hinv.
    destruct Hinv as (He & Hlen & Hdone & Hrest).
    { intros x bs' Hx. apply Hcell; lia. }
    split_and!; try done.
    intros i j k Hi Hj Hk Hbefore. apply Hdone; [done..|]. lia. }
  assert (Hslice : forall z bs, 0 <= z < depth -> P z 0 0 bs ->
            P (z + 1) 0 0
              (for_up (Z.to_nat height) 0
                 (fun y => for_up (Z.to_nat width) 0
                    (array_3d_cell now x_start y_start z_start width height
                       step z y)) bs)).
  { intros z bs Hz H0.
    pose proof (for_up_inv (fun y => P z y 0) (Z.to_nat height) 0
                  (fun y => for_up (Z.to_nat width) 0
                     (array_3d_cell now x_start y_start z_start width height
                        step z y)) bs H0) as Hinv.
    destruct Hinv as (He & Hlen & Hdone & Hrest).
    { intros y bs' Hy. apply Hrow; lia. }
    split_and!; try done.
    intros i j k Hi Hj Hk Hbefore. apply Hdone; [done..|]. lia. }
  pose proof (for_up_inv (fun z => P z 0 0) (Z.to_nat depth) 0
                (fun z => for_up (Z.to_nat height) 0
                   (fun y => for_up (Z.to_nat width) 0
                      (array_3d_cell now x_start y_start z_start width height
                         step z y)))
                (buf, st)) as Hall.
  destruct Hall as (He & Hlen & Hdone & Hrest).
  { split_and!; try done. intros i j k Hi Hj Hk Hbefore. lia. }
  { intros z bs Hz. apply Hslice. lia. }
  unfold simplex_noise_array_3d.
  destruct (Z.leb_spec width 0); [lia|]. destruct (Z.leb_spec height 0); [lia|].
  destruct (Z.leb_spec depth 0); [lia|].
  simpl. destruct (for_up (Z.to_nat depth) _ _ _) as [buf' st'].
  simpl in *. subst st'. exists buf'. split_and!; try done.
  intros i j k Hi Hj Hk. apply Hdone; [done..|]. lia.
Qed.

(** ** The cache: store, then look up *)

Lemma cache_hash_range (x y z w : double) : 0 <= cache_hash x y z w < 1024.
Proof.
  unfold cache_hash, CACHE_SIZE. cbv zeta.
  set (a := Z.lxor _ _).
  pose proof (Z.rem_bound_abs a 1024 ltac:(lia)) as Hb.
  destruct (Z.ltb_spec (Z.rem a 1024) 0).
  - rewrite s32_id by (unfold INT_MIN, INT_MAX; lia). lia.
  - lia.
Qed.

(** X11.  With the cache enabled, a value stored by [cache_store] is found
    again by [cache_lookup] at the same coordinates, and counted as a hit,
    exactly when the four coordinates are finite; with a NaN or infinite
    coordinate [fabs(c - c) < 1e-9] fails, the lookup returns [0.0] and is
    counted as a miss. *)
Theorem cache_store_then_lookup (st : engine) (x y z w r : double) :
  cache_enabled st <> 0 -> length (noise_cache st) = 1024%nat ->
  let '(v, st') := cache_lookup (cache_store st x y z w r) x y z w in
  if finite64 x && finite64 y && finite64 z && finite64 w
  then v = r /\ cache_hits st' = s32 (cache_hits st + 1) /\
       cache_misses st' = cache_misses st
  else v = 0%float /\ cache_hits st' = cache_hits st /\
       cache_misses st' = s32 (cache_misses st + 1).
Proof.
  intros Hen Hlen. apply Z.eqb_neq in Hen.
  unfold cache_lookup, cache_store. rewrite Hen.
  cbn [cache_enabled noise_cache cache_hits cache_misses]. rewrite Hen.
  pose proof (cache_hash_range x y z w) as Hh. unfold wr.
  rewrite list_lookup_insert_eq by lia.
  cbn [ce_valid ce_x ce_y ce_z ce_w ce_result Z.eqb negb andb]. unfold fabs.
  assert (0 < rk 1e-9) as Hpos by (apply Z.ltb_lt; by vm_compute).
  rewrite !(abs_sub_self_ltb _ 1e-9 eq_refl Hpos).
  by destruct (finite64 x && finite64 y && finite64 z && finite64 w).
Qed.

(** ** Run-time setters and clean-up *)

(** X12.  Once the engine is initialised, the run-time setters change no
    sample: after [simplex_set_prng] (which restarts the selected
    generator but does not reshuffle the table),
    [simplex_set_noise_variant], [simplex_set_interpolation],
    [simplex_set_simd] or [simplex_set_profiling], whether the call
    succeeds or is refused, every session of kernel and composer calls
    returns the doubles it returned before. *)
Theorem setters_keep_samples (st : engine) (ty v i e p : Z)
    (calls : list (Z * query)) :
  initialized st <> 0 ->
  run_session (snd (simplex_set_prng st ty)) calls = run_session st calls /\
  run_session (snd (simplex_set_noise_variant st v)) calls
  = run_session st calls /\
  run_session (snd (simplex_set_interpolation st i)) calls
  = run_session st calls /\
  run_session (snd (simplex_set_simd st e)) calls = run_session st calls /\
  run_session (snd (simplex_set_profiling st p)) calls = run_session st calls.
Proof.
  intros Hinit.
  split_and!; apply run_session_equiv; (split; [|left; split; [|done]]).
  - unfold simplex_set_prng. by destruct (_ <=? _).
  - unfold simplex_set_prng. by destruct (_ <=? _).
  - unfold simplex_set_noise_variant. by destruct (_ <=? _).
  - unfold simplex_set_noise_variant. by destruct (_ <=? _).
  - unfold simplex_set_interpolation. by destruct (_ <=? _).
  - unfold simplex_set_interpolation. by destruct (_ <=? _).
  - done.
  - done.
  - done.
  - done.
Qed.

(** A selector other than the three implemented generators draws from the
    LCG. *)
Lemma shuffle_fallback (n : nat) (ty : Z) (ps : prng_state_t) (p : list Z) :
  (ty =? 1) || (ty =? 2) || (ty =? 3) = false ->
  shuffle n ty ps p = shuffle n 0 ps p.
Proof.
  intros Hty. apply orb_false_elim in Hty as [Hty H3].
  apply orb_false_elim in Hty as [H1 H2].
  revert ps p. induction n as [|n IH]; intros ps p; [done|].
  cbn [shuffle].
  assert (prng_next ty ps = prng_next 0 ps) as ->.
  { unfold prng_next, SIMPLEX_PRG_LINEAR_CONGRUENTIAL,
      SIMPLEX_PRG_MERSENNE_TWISTER, SIMPLEX_PRG_XORSHIFT, SIMPLEX_PRG_PCG.
    rewrite H1, H2, H3. by destruct (ty =? 0). }
  destruct (prng_next 0 ps) as [r ps']. apply IH.
Qed.

(** X13.  A PRNG selector other than [MERSENNE_TWISTER], [XORSHIFT] and
    [PCG] (the value [SIMPLEX_PRG_CUSTOM], which [simplex_validate_config]
    accepts, or any unknown one) initialises exactly the table of
    [LINEAR_CONGRUENTIAL]: with the same seed at the same time, the tables
    and all later samples are equal. *)
Theorem unknown_prng_is_lcg (now : Z) (st : engine) (cfg : simplex_config_t)
    (ty : Z) (calls : list (Z * query)) :
  (ty =? 1) || (ty =? 2) || (ty =? 3) = false ->
  let e1 := snd (simplex_noise_init_advanced now st
                   (Some (set_prng_type cfg ty))) in
  let e2 := snd (simplex_noise_init_advanced now st
                   (Some (set_prng_type cfg SIMPLEX_PRG_LINEAR_CONGRUENTIAL))) in
  perm e1 = perm e2 /\ run_session e1 calls = run_session e2 calls.
Proof.
  intros Hty. cbv zeta.
  assert (perm (snd (simplex_noise_init_advanced now st
                       (Some (set_prng_type cfg ty))))
          = perm (snd (simplex_noise_init_advanced now st
                         (Some (set_prng_type cfg
                                  SIMPLEX_PRG_LINEAR_CONGRUENTIAL))))) as Hp.
  { rewrite !init_advanced_perm. cbn [prng_type set_prng_type].
    unfold resolved_seed. cbn [seed set_prng_type].
    rewrite (shuffle_fallback _ ty) by done.
    assert (forall s ps, prng_init ty s ps
                         = prng_init SIMPLEX_PRG_LINEAR_CONGRUENTIAL s ps) as ->;
      [|done].
    intros s ps. apply orb_false_elim in Hty as [Hty H3].
    apply orb_false_elim in Hty as [H1 H2].
    unfold prng_init, SIMPLEX_PRG_LINEAR_CONGRUENTIAL,
      SIMPLEX_PRG_MERSENNE_TWISTER, SIMPLEX_PRG_XORSHIFT, SIMPLEX_PRG_PCG.
    rewrite H1, H2, H3. by destruct (ty =? 0). }
  split; [done|]. apply run_session_equiv. split; [done|]. left.
  by rewrite !init_advanced_initialized.
Qed.

Lemma cache_invalidate_spec (c : list cache_entry) :
  length (cache_invalidate c) = length c /\
  (length c = 1024%nat ->
   forall (k : nat) e, cache_invalidate c !! k = Some e -> ce_valid e = 0).
Proof.
  unfold cache_invalidate.
  pose proof (for_up_inv
    (fun i b => length b = length c /\
       forall (k : nat) e, Z.of_nat k < i -> b !! k = Some e -> ce_valid e = 0)
    1024 0
    (fun i c =>
       match c !! Z.to_nat i with
       | Some e => wr c i (mk_cache_entry (ce_x e) (ce_y e) (ce_z e) (ce_w e)
                             (ce_result e) 0)
       | None => c
       end) c) as H.
  destruct H as [Hlen Hall].
  - split; [done|]. intros; lia.
  - intros i b Hi [Hlen Hall].
    destruct (b !! Z.to_nat i) as [e|] eqn:He.
    + split; [by rewrite length_wr|]. intros k e' Hk. unfold wr.
      destruct (decide (k = Z.to_nat i)) as [->|Hne].
      * rewrite list_lookup_insert_eq by (apply lookup_lt_Some in He; lia).
        by intros [= <-].
      * rewrite list_lookup_insert_ne by done. apply Hall. lia.
    + split; [done|]. intros k e' Hk Hk'.
      destruct (decide (k = Z.to_nat i)) as [->|Hne]; [congruence|].
      apply (Hall k); [lia|done].
  - split; [done|]. intros Hc k e Hk. apply (Hall k); [|done].
    apply lookup_lt_Some in Hk. simpl. lia.
Qed.

(** X14.  [simplex_cleanup] forgets the initialisation: the engine is
    marked uninitialised, the cache is off with every slot invalid, and the
    counters are zero.  The table is not kept in use: the next kernel call
    re-initialises with seed 0, that is from the clock, and returns what a
    fresh [simplex_noise_init(0)] at that time would return, whatever seed
    the engine was initialised with before. *)
Theorem cleanup_then_sample (now : Z) (st : engine) (x y z w : double) :
  wf_engine st ->
  let st' := simplex_cleanup st in
  let fresh := simplex_noise_init now st 0 in
  initialized st' = 0 /\ cache_enabled st' = 0 /\
  cache_hits st' = 0 /\ cache_misses st' = 0 /\ function_call_count st' = 0 /\
  (forall (k : nat) e, noise_cache st' !! k = Some e -> ce_valid e = 0) /\
  fst (simplex_noise_1d now st' x) = fst (simplex_noise_1d now fresh x) /\
  fst (simplex_noise_2d now st' x y) = fst (simplex_noise_2d now fresh x y) /\
  fst (simplex_noise_3d now st' x y z) = fst (simplex_noise_3d now fresh x y z) /\
  fst (simplex_noise_4d now st' x y z w)
  = fst (simplex_noise_4d now fresh x y z w).
Proof.
  intros Hwf. cbv zeta.
  destruct (cache_invalidate_spec (noise_cache st)) as [Hlen Hinv].
  assert (wf_engine (simplex_cleanup st)) as Hwf'.
  { destruct Hwf as (H1 & H2 & H3 & H4).
    unfold wf_engine, simplex_cleanup, simplex_reset_performance_stats.
    cbn [perm prng_state noise_cache]. rewrite Hlen. by split_and!. }
  assert (perm (ensure_init now (simplex_cleanup st))
          = perm (ensure_init now (simplex_noise_init now st 0))) as Hp.
  { rewrite (ensure_init_id now (simplex_noise_init now st 0))
      by (unfold simplex_noise_init; by rewrite init_advanced_initialized).
    unfold ensure_init at 1. cbn [simplex_cleanup initialized
      simplex_reset_performance_stats Z.eqb].
    unfold simplex_noise_init. by apply init_advanced_perm_det. }
  do 5 (split; [reflexivity|]).
  split; [apply Hinv, Hwf|].
  rewrite !simplex_noise_1d_ensure, !simplex_noise_2d_ensure,
    !simplex_noise_3d_ensure, !simplex_noise_4d_ensure.
  cbn [fst]. rewrite Hp. by split_and!.
Qed.

(** ** The unused [init_permutation] *)

Lemma legacy_shuffle_lcg (n : nat) (s : Z) (ps : prng_state_t) (p : list Z) :
  lcg_state ps = s ->
  legacy_shuffle n s p
  = fst (shuffle n SIMPLEX_PRG_LINEAR_CONGRUENTIAL ps p).
Proof.
  revert s ps p. induction n as [|n IH]; intros s ps p Hs; [done|].
  cbn [legacy_shuffle shuffle].
  change (prng_next SIMPLEX_PRG_LINEAR_CONGRUENTIAL ps) with (lcg_next ps).
  unfold lcg_next. rewrite Hs.
  rewrite (u32_small (u32 _))
    by (unfold u32; apply Z.mod_pos_bound; lia).
  by apply IH.
Qed.

(** X15.  The unused [init_permutation(seed)] builds exactly the table
    that [simplex_noise_init_advanced] builds with the
    [LINEAR_CONGRUENTIAL] selector and the same seed (a zero seed being
    replaced by the clock in both): its inline generator is the LCG.  So
    its table, too, has a permutation of 0..255 in its first half, repeated
    in the second. *)
Theorem init_permutation_is_lcg_init (now : Z) (st : engine)
    (cfg : simplex_config_t) (s : Z) :
  length (perm st) = 512%nat ->
  let p := perm (init_permutation now st s) in
  p = perm (snd (simplex_noise_init_advanced now st
                   (Some (set_prng_type (set_seed cfg s)
                            SIMPLEX_PRG_LINEAR_CONGRUENTIAL)))) /\
  length p = 512%nat /\
  take 256 p ≡ₚ seqZ 0 256 /\
  (forall i, 0 <= i < 256 -> p !! Z.to_nat (256 + i) = p !! Z.to_nat i).
Proof.
  intros Hlen. cbv zeta.
  assert (perm (init_permutation now st s)
          = perm (snd (simplex_noise_init_advanced now st
                         (Some (set_prng_type (set_seed cfg s)
                                  SIMPLEX_PRG_LINEAR_CONGRUENTIAL))))) as He.
  { rewrite init_advanced_perm. unfold init_permutation, resolved_seed.
    cbn [perm prng_type set_prng_type seed set_seed]. cbv zeta.
    set (s0 := if u32 s =? 0 then u32 now else u32 s).
    by rewrite (legacy_shuffle_lcg 255 s0
                  (prng_init SIMPLEX_PRG_LINEAR_CONGRUENTIAL s0 (prng_state st))). }
  split; [exact He|]. rewrite He, init_advanced_perm.
  destruct (perm_identity_spec (perm st)) as (Hlen0 & _ & _).
  set (ps := prng_init _ _ _).
  destruct (shuffle_spec 255 SIMPLEX_PRG_LINEAR_CONGRUENTIAL ps
              (perm_identity (perm st))) as (Hlen1 & Hshuf & _); [lia|lia|].
  cbn [prng_type set_prng_type]. 
  set (q := fst (shuffle _ _ _ _)) in *.
  destruct (perm_duplicate_spec q) as (Hlen2 & Hlow & Hhigh); [lia|].
  split; [done|]. split.
  - assert (take 256 (perm_duplicate q) = take 256 q) as ->.
    { apply list_eq. intros k. destruct (decide (k < 256)%nat) as [Hk|Hk].
      - rewrite !lookup_take_lt by done. by apply Hlow.
      - by rewrite !lookup_take_ge by lia. }
    rewrite Hshuf. by rewrite perm_identity_take by lia.
  - intros i Hi.
    replace (Z.to_nat (256 + i)) with (256 + Z.to_nat i)%nat by lia.
    rewrite Hhigh, Hlow by lia. done.
Qed.

(** ** The configuration by key *)

Lemma s32_u32 (v : Z) : INT_MIN <= v <= INT_MAX -> s32 (u32 v) = v.
Proof.
  unfold INT_MIN, INT_MAX, s32, u32. intros Hv.
  destruct (Z_lt_ge_dec v 0) as [Hn|Hp].
  - rewrite <- (Z_mod_plus_full v 1 (2 ^ 32)).
    rewrite (Z.mod_small (v + 1 * 2 ^ 32)) by lia.
    rewrite <- (Z_mod_plus_full _ (-1) (2 ^ 32)).
    rewrite Z.mod_small by lia. lia.
  - rewrite (Z.mod_small v) by lia. rewrite Z.mod_small by lia. lia.
Qed.

(** Splits on the key, one case for each name the function knows and one
    for a name it does not know. *)
Ltac key_cases k :=
  repeat match goal with
  | |- context [String.eqb k ?s] =>
      destruct (String.eqb_spec k s) as [->|?]
  end.

(** X16.  A value written with [simplex_set_config_int] is read back by
    [simplex_get_config_int] under the same key, for every key the setter
    accepts (the enumeration selectors and the unsigned seed included);
    a key the setter refuses is refused by the getter too, and then
    neither the configuration nor the result cell is changed. *)
Theorem config_int_set_get (c : simplex_config_t) (key : string) (v old : Z) :
  INT_MIN <= v <= INT_MAX ->
  let '(r, c') := simplex_set_config_int (Some c) (Some key) v in
  if r =? 0
  then simplex_get_config_int c' (Some key) (Some old) = (0, Some v)
  else r = -1 /\ c' = Some c /\
       simplex_get_config_int (Some c) (Some key) (Some old) = (-1, Some old).
Proof.
  intros Hv. pose proof (s32_u32 v Hv) as Hr.
  unfold simplex_set_config_int, simplex_get_config_int.
  key_cases key; cbn; rewrite ?Hr; done.
Qed.

(** X17.  A double written with [simplex_set_config_double] is read back,
    bit for bit, by [simplex_get_config_double] under the same key; a key
    the setter refuses is refused by the getter too, and then neither the
    configuration nor the result cell is changed. *)
Theorem config_double_set_get (c : simplex_config_t) (key : string)
    (v old : double) :
  let '(r, c') := simplex_set_config_double (Some c) (Some key) v in
  if r =? 0
  then simplex_get_config_double c' (Some key) (Some old) = (0, Some v)
  else r = -1 /\ c' = Some c /\
       simplex_get_config_double (Some c) (Some key) (Some old)
       = (-1, Some old).
Proof.
  unfold simplex_set_config_double, simplex_get_config_double.
  key_cases key; cbn; done.
Qed.

(** X18.  Setting one key changes the value of no other key: after
    [simplex_set_config_int] or [simplex_set_config_double] with key [k],
    both getters return under every other key [k'] what they returned
    before. *)
Theorem config_set_other_key (c : simplex_config_t) (k k' : string)
    (v oi : Z) (d od : double) :
  k <> k' ->
  simplex_get_config_int (snd (simplex_set_config_int (Some c) (Some k) v))
    (Some k') (Some oi)
  = simplex_get_config_int (Some c) (Some k') (Some oi) /\
  simplex_get_config_double (snd (simplex_set_config_int (Some c) (Some k) v))
    (Some k') (Some od)
  = simplex_get_config_double (Some c) (Some k') (Some od) /\
  simplex_get_config_int (snd (simplex_set_config_double (Some c) (Some k) d))
    (Some k') (Some oi)
  = simplex_get_config_int (Some c) (Some k') (Some oi) /\
  simplex_get_config_double
    (snd (simplex_set_config_double (Some c) (Some k) d)) (Some k') (Some od)
  = simplex_get_config_double (Some c) (Some k') (Some od).
Proof.
  intros Hk.
  unfold simplex_set_config_int, simplex_set_config_double,
    simplex_get_config_int, simplex_get_config_double.
  key_cases k; cbn [snd]; (split_and!; key_cases k'; done).
Qed.

(** ** Merging configurations *)

Lemma sel_Z (x c : Z) : (if negb (x =? c) then x else c) = x.
Proof. by destruct (Z.eqb_spec x c). Qed.

Lemma sel_double (x c : double) :
  zero64 c = false -> (if negb (x =? c)%float then x else c) = x.
Proof.
  intros Hc. destruct (x =? c)%float eqn:E; [|done].
  symmetry. by apply eqb_eq_nonzero.
Qed.

Lemma sel_string (s : string) :
  (if 0 <? Z.of_nat (String.length s) then s else EmptyString) = s.
Proof. by destruct s. Qed.

(** The record [s] with each field that differs from the field of [r] put
    under the condition [c]. *)
Ltac zip_fields c s r :=
  lazymatch s with
  | ?sf ?sa =>
      lazymatch r with
      | ?rf ?ra =>
          let h := zip_fields c sf rf in
          match constr:(Set) with
          | _ => let _ := match goal with _ => constr_eq sa ra end in
                 constr:(h ra)
          | _ => constr:(h (if c then sa else ra))
          end
      end
  | _ => s
  end.

(** One conditional assignment, when [result] is an object other than
    [override]: the store is the one before the call, with the result
    rewritten. *)
Lemma merge_field_step {A : Type} (differs : A -> bool)
    (get : simplex_config_t -> A)
    (set : simplex_config_t -> A -> simplex_config_t)
    (o r : nat) (mem : config_store) (co R : simplex_config_t) :
  r <> o -> mem !! o = Some co -> (r < length mem)%nat ->
  merge_field differs get set o r (<[r := R]> mem)
  = <[r := when (differs (get co)) (fun c => set c (get co)) R]> mem.
Proof.
  intros Hne Ho Hr. unfold merge_field, when.
  rewrite list_lookup_insert_ne, Ho, list_lookup_insert_eq by done.
  destruct (differs (get co)); [|done].
  by rewrite list_insert_insert_eq.
Qed.

(** One conditional assignment, when [result] is [override]: the field
    read is the field written. *)
Lemma merge_field_self {A : Type} (differs : A -> bool)
    (get : simplex_config_t -> A)
    (set : simplex_config_t -> A -> simplex_config_t)
    (r : nat) (mem : config_store) (R : simplex_config_t) :
  (forall c, set c (get c) = c) -> (r < length mem)%nat ->
  merge_field differs get set r r (<[r := R]> mem) = <[r := R]> mem.
Proof.
  intros Hset Hr. unfold merge_field.
  rewrite list_lookup_insert_eq by done.
  destruct (differs (get R)); [|done].
  by rewrite Hset, list_insert_insert_eq.
Qed.

(** The sequence of conditional assignments, field by field, when
    [result] is an object other than [override]. *)
Lemma merge_config_fields (mem : config_store) (b o r : nat)
    (cb co : simplex_config_t) :
  mem !! b = Some cb -> mem !! o = Some co -> (r < length mem)%nat ->
  r <> o ->
  simplex_merge_config mem (Some b) (Some o) (Some r)
  = (0, <[r := mk_config
       (if negb (prng_type co =? SIMPLEX_PRG_PCG) then prng_type co
        else prng_type cb)
       (if negb (noise_variant co =? 0) then noise_variant co
        else noise_variant cb)
       (if negb (interp_type co =? 3) then interp_type co else interp_type cb)
       (if negb (precision co =? 1) then precision co else precision cb)
       (if negb (seed co =? 0) then seed co else seed cb)
       (if negb (enable_simd co =? 0) then enable_simd co else enable_simd cb)
       (if negb (enable_caching co =? 1) then enable_caching co
        else enable_caching cb)
       (if negb (enable_profiling co =? 0) then enable_profiling co
        else enable_profiling cb)
       (if negb (persistence co =? 0.5)%float then persistence co
        else persistence cb)
       (if negb (lacunarity co =? 2.0)%float then lacunarity co
        else lacunarity cb)
       (if negb (octaves co =? 4) then octaves co else octaves cb)
       (if negb (frequency co =? 1.0)%float then frequency co else frequency cb)
       (if negb (amplitude co =? 1.0)%float then amplitude co else amplitude cb)
       (if negb (offset co =? 0.0)%float then offset co else offset cb)
       (if negb (scale co =? 1.0)%float then scale co else scale cb)
       (if 0 <? Z.of_nat (String.length (config_file co)) then config_file co
        else config_file cb)
       (if 0 <? Z.of_nat (String.length (output_file co)) then output_file co
        else output_file cb)
       (if negb (verbose_mode co =? 0) then verbose_mode co else verbose_mode cb)
       (if negb (debug_mode co =? 0) then debug_mode co else debug_mode cb)
       (if negb (auto_save co =? 0) then auto_save co else auto_save cb)
       (if negb (validate_inputs co =? 1) then validate_inputs co
        else validate_inputs cb)
       (if negb (cache_size_mb co =? 16.0)%float then cache_size_mb co
        else cache_size_mb cb)
       (if negb (max_threads co =? 1) then max_threads co else max_threads cb)
       (if negb (chunk_size co =? 1024) then chunk_size co else chunk_size cb)
       (if negb (memory_limit_mb co =? 256.0)%float then memory_limit_mb co
        else memory_limit_mb cb)]> mem).
Proof.
  intros Hb Ho Hr Hne. unfold simplex_merge_config. rewrite Hb.
  cbv zeta.
  repeat rewrite (merge_field_step _ _ _ o r mem co) by done.
  cbv beta.
  destruct cb as [b1 b2 b3 b4 b5 b6 b7 b8 b9 b10 b11 b12 b13 b14 b15 b16 b17
                  b18 b19 b20 b21 b22 b23 b24 b25].
  repeat lazymatch goal with
  | |- context [when ?c ?f (mk_config ?a1 ?a2 ?a3 ?a4 ?a5 ?a6 ?a7 ?a8 ?a9 ?a10
                  ?a11 ?a12 ?a13 ?a14 ?a15 ?a16 ?a17 ?a18 ?a19 ?a20 ?a21 ?a22
                  ?a23 ?a24 ?a25)] =>
      let R := constr:(mk_config a1 a2 a3 a4 a5 a6 a7 a8 a9 a10 a11 a12 a13
                         a14 a15 a16 a17 a18 a19 a20 a21 a22 a23 a24 a25) in
      let s0 := eval cbv beta delta [set_prng_type set_noise_variant
        set_interp_type set_precision set_seed set_enable_simd
        set_enable_caching set_enable_profiling set_persistence
        set_lacunarity set_octaves set_frequency set_amplitude set_offset
        set_scale set_config_file set_output_file set_verbose_mode
        set_debug_mode set_auto_save set_validate_inputs set_cache_size_mb
        set_max_threads set_chunk_size set_memory_limit_mb] in (f R) in
      let s := eval cbn [prng_type noise_variant interp_type precision seed
        enable_simd enable_caching enable_profiling persistence lacunarity
        octaves frequency amplitude offset scale config_file output_file
        verbose_mode debug_mode auto_save validate_inputs cache_size_mb
        max_threads chunk_size memory_limit_mb] in s0 in
      let R' := zip_fields c s R in
      replace (when c f R) with R'
        by (unfold when; generalize c; intros []; reflexivity)
  end.
  reflexivity.
Qed.

(** With [result == override] the override is gone after [*result = *base]:
    every field read from it is the field of the base, and the result is a
    copy of the base. *)
Lemma merge_config_alias (mem : config_store) (b r : nat)
    (cb : simplex_config_t) :
  mem !! b = Some cb -> (r < length mem)%nat ->
  simplex_merge_config mem (Some b) (Some r) (Some r) = (0, <[r := cb]> mem).
Proof.
  intros Hb Hr. unfold simplex_merge_config. rewrite Hb. cbv zeta.
  repeat rewrite merge_field_self by (done || by intros []).
  reflexivity.
Qed.

Lemma sel_idem {A} (c : bool) (x y : A) :
  (if c then x else if c then x else y) = (if c then x else y).
Proof. by destruct c. Qed.

Ltac config_projections :=
  cbn [prng_type noise_variant interp_type precision seed enable_simd
    enable_caching enable_profiling persistence lacunarity octaves frequency
    amplitude offset scale config_file output_file verbose_mode debug_mode
    auto_save validate_inputs cache_size_mb max_threads chunk_size
    memory_limit_mb].

(** X19.  The default configuration is neutral for the merge when [result]
    is an object other than [override]: an override that holds the default
    configuration leaves in [result] a copy of the base, and merging an
    override onto a base that holds the default configuration leaves in
    [result] a copy of the override, except that an [offset] of [-0.0]
    compares equal to the default [0.0] and so becomes [+0.0].  With
    [result == override] the override is overwritten by [*result = *base]
    before it is read, and [result] ends as a copy of the base whatever
    the override held (stated for a base with empty [config_file] and
    [output_file], so that no string is copied onto itself).  [base] may
    be the same object as [result] or as [override] throughout; no other
    object of the store changes, and the call returns 0. *)
Theorem merge_config_default (mem : config_store) (b o r : nat)
    (cb co : simplex_config_t) :
  mem !! b = Some cb -> mem !! o = Some co -> (r < length mem)%nat ->
  (r <> o -> co = simplex_get_default_config ->
   simplex_merge_config mem (Some b) (Some o) (Some r)
   = (0, <[r := cb]> mem)) /\
  (r <> o -> cb = simplex_get_default_config ->
   simplex_merge_config mem (Some b) (Some o) (Some r)
   = (0, <[r := if (offset co =? 0.0)%float then set_offset co 0.0 else co]>
           mem)) /\
  (r = o -> config_file cb = EmptyString -> output_file cb = EmptyString ->
   simplex_merge_config mem (Some b) (Some o) (Some r)
   = (0, <[r := cb]> mem)).
Proof.
  intros Hb Ho Hr. split; [|split].
  - intros Hne ->. rewrite (merge_config_fields mem b o r cb _ Hb Ho Hr Hne).
    by destruct cb.
  - intros Hne ->. rewrite (merge_config_fields mem b o r _ co Hb Ho Hr Hne).
    cbn [simplex_get_default_config prng_type noise_variant interp_type
      precision seed enable_simd enable_caching enable_profiling persistence
      lacunarity octaves frequency amplitude offset scale config_file
      output_file verbose_mode debug_mode auto_save validate_inputs
      cache_size_mb max_threads chunk_size memory_limit_mb].
    rewrite !sel_Z, !sel_string.
    rewrite (sel_double _ 0.5), (sel_double _ 2.0), !(sel_double _ 1.0),
      (sel_double _ 16.0), (sel_double _ 256.0) by reflexivity.
    do 2 f_equal. destruct (offset co =? 0)%float; by destruct co.
  - intros <- _ _. by apply merge_config_alias.
Qed.

(** X20.  Merging composes, as long as no call has its [result] on its
    [override] and the temporary is an object of its own.  Overriding the
    base with [o1] into [r] and then [r] in place with [o2] leaves in [r]
    what one merge of the base with [t] leaves there, [t] holding [o2]
    merged onto [o1] (for [r] other than [o1], [o2] and [t], and [t] other
    than [b] and [o2]).  And merging the same override into [r] in place a
    second time changes nothing in the store (for [r] other than [o1]). *)
Theorem merge_config_compose (mem : config_store) (b o1 o2 t r : nat) :
  (b < length mem)%nat -> (o1 < length mem)%nat -> (o2 < length mem)%nat ->
  (t < length mem)%nat -> (r < length mem)%nat ->
  r <> o1 -> r <> o2 -> r <> t -> t <> b -> t <> o2 ->
  snd (simplex_merge_config
         (snd (simplex_merge_config mem (Some b) (Some o1) (Some r)))
         (Some r) (Some o2) (Some r)) !! r
  = snd (simplex_merge_config
           (snd (simplex_merge_config mem (Some o1) (Some o2) (Some t)))
           (Some b) (Some t) (Some r)) !! r /\
  simplex_merge_config
    (snd (simplex_merge_config mem (Some b) (Some o1) (Some r)))
    (Some r) (Some o1) (Some r)
  = simplex_merge_config mem (Some b) (Some o1) (Some r).
Proof.
  intros Hb Ho1 Ho2 Ht Hr Hro1 Hro2 Hrt Htb Hto2.
  apply lookup_lt_is_Some_2 in Hb as [cb Hb].
  apply lookup_lt_is_Some_2 in Ho1 as [c1 Ho1].
  apply lookup_lt_is_Some_2 in Ho2 as [c2 Ho2].
  rewrite (merge_config_fields mem b o1 r cb c1 Hb Ho1 Hr Hro1).
  rewrite (merge_config_fields mem o1 o2 t c1 c2 Ho1 Ho2 Ht Hto2).
  cbn [snd]. split.
  - erewrite (merge_config_fields (<[r := _]> mem) r o2 r);
      [ | by apply list_lookup_insert_eq
        | by rewrite list_lookup_insert_ne
        | by rewrite length_insert
        | done ].
    erewrite (merge_config_fields (<[t := _]> mem) b t r);
      [ | by rewrite list_lookup_insert_ne
        | by apply list_lookup_insert_eq
        | by rewrite length_insert
        | done ].
    cbn [snd]. rewrite !list_lookup_insert_eq by by rewrite !length_insert.
    config_projections. do 2 f_equal;
      match goal with
      | |- (if ?c then _ else _) = _ =>
          let E := fresh "E" in destruct c eqn:E; rewrite ?E; reflexivity
      end.
  - erewrite (merge_config_fields (<[r := _]> mem) r o1 r);
      [ | by apply list_lookup_insert_eq
        | by rewrite list_lookup_insert_ne
        | by rewrite length_insert
        | done ].
    config_projections. rewrite list_insert_insert_eq.
    by rewrite !sel_idem.
Qed.

(** ** Validation *)

(** The five checks that raise errors, on the outcome of their tests. *)
Lemma validation_error_steps (c1 c2 c3 c4 c5 : bool) :
  let v :=
    when c5 (validation_error "Octaves must be between 1 and 16")
      (when c4 (validation_error "Invalid precision type")
         (when c3 (validation_error "Invalid interpolation type")
            (when c2 (validation_error "Invalid noise variant")
               (when c1 (validation_error "Invalid PRNG type")
                  (set_val_valid validation_zero 1))))) in
  (val_valid v = 1 <-> c1 || c2 || c3 || c4 || c5 = false) /\
  (val_valid v = 1 <-> val_error_count v = 0) /\
  (val_valid v = 1 \/ val_valid v = 0) /\
  0 <= val_error_count v <= 5 /\
  length (val_errors v) = 10%nat /\
  (forall i : nat, (i < 10)%nat ->
     val_errors v !! i = Some EmptyString
     <-> (Z.to_nat (val_error_count v) <= i)%nat) /\
  val_warnings v = replicate 10 EmptyString /\
  val_warning_count v = 0.
Proof.
  destruct c1, c2, c3, c4, c5; cbv zeta; split_and!;
    first [ by vm_compute
          | vm_compute; split; intros; (congruence || lia)
          | vm_compute; (by left) || (by right)
          | intros i Hi;
            do 10 (destruct i as [|i];
                   [vm_compute; split; intros; (congruence || lia)|]); lia ].
Qed.

(** The four checks that raise warnings. *)
Lemma validation_warning_steps (c6 c7 c8 c9 : bool)
    (v0 : simplex_config_validation_t) :
  val_warnings v0 = replicate 10 EmptyString -> val_warning_count v0 = 0 ->
  let v :=
    when c9 (validation_warning "Max threads should be between 1 and 64")
      (when c8 (validation_warning
                  "Cache size should be between 0.0 and 1024.0 MB")
         (when c7 (validation_warning
                     "Lacunarity should be between 1.0 and 4.0")
            (when c6 (validation_warning
                        "Persistence should be between 0.0 and 1.0") v0))) in
  val_valid v = val_valid v0 /\ val_error_count v = val_error_count v0 /\
  val_errors v = val_errors v0 /\
  val_warning_count v
  = Z.b2z c6 + Z.b2z c7 + Z.b2z c8 + Z.b2z c9 /\
  length (val_warnings v) = 10%nat /\
  (forall i : nat, (i < 10)%nat ->
     val_warnings v !! i = Some EmptyString
     <-> (Z.to_nat (val_warning_count v) <= i)%nat).
Proof.
  destruct v0 as [vv ec es ws wc]. cbn [val_warnings val_warning_count].
  intros -> ->.
  destruct c6, c7, c8, c9; cbv zeta; split_and!;
    first [ reflexivity
          | intros i Hi;
            do 10 (destruct i as [|i];
                   [vm_compute; split; intros; (congruence || lia)|]); lia ].
Qed.

(** X21.  [simplex_validate_config] succeeds on every configuration.  The
    result is marked valid exactly when no error is counted, that is when
    the four selectors are below their [_COUNT] and the octaves are between
    1 and 16; the settings that only raise warnings never make it invalid.
    At most 5 errors and 4 warnings are counted, so the ten slots of each
    message array are enough, and the messages fill the first
    [error_count] (resp. [warning_count]) slots, the others staying
    empty. *)
Theorem validate_config_spec (c : simplex_config_t)
    (v0 : simplex_config_validation_t) :
  exists v,
    simplex_validate_config (Some c) (Some v0) = (0, Some v) /\
    (val_valid v = 1 <->
       prng_type c < SIMPLEX_PRG_COUNT /\
       noise_variant c < SIMPLEX_NOISE_COUNT /\
       interp_type c < SIMPLEX_INTERP_COUNT /\
       precision c < SIMPLEX_PRECISION_COUNT /\
       1 <= octaves c <= 16) /\
    (val_valid v = 1 <-> val_error_count v = 0) /\
    (val_valid v = 1 \/ val_valid v = 0) /\
    0 <= val_error_count v <= 5 /\
    0 <= val_warning_count v <= 4 /\
    length (val_errors v) = 10%nat /\
    length (val_warnings v) = 10%nat /\
    (forall i : nat, (i < 10)%nat ->
       (val_errors v !! i = Some EmptyString
        <-> (Z.to_nat (val_error_count v) <= i)%nat) /\
       (val_warnings v !! i = Some EmptyString
        <-> (Z.to_nat (val_warning_count v) <= i)%nat)).
Proof.
  eexists. split; [reflexivity|]. cbv zeta.
  set (c1 := SIMPLEX_PRG_COUNT <=? prng_type c).
  set (c2 := SIMPLEX_NOISE_COUNT <=? noise_variant c).
  set (c3 := SIMPLEX_INTERP_COUNT <=? interp_type c).
  set (c4 := SIMPLEX_PRECISION_COUNT <=? precision c).
  set (c5 := (octaves c <? 1) || (16 <? octaves c)).
  pose proof (validation_error_steps c1 c2 c3 c4 c5) as He.
  cbv zeta in He. revert He.
  set (ve := when c5 _ _).
  intros (Hv & Hv0 & Hv1 & Hec & Hel & Hem & Hw & Hwc).
  match goal with
  | |- context [when ?c9 _ (when ?c8 _ (when ?c7 _ (when ?c6 _ ve)))] =>
      pose proof (validation_warning_steps c6 c7 c8 c9 ve Hw Hwc) as Hws;
      cbv zeta in Hws; revert Hws;
      generalize c6 c7 c8 c9
  end.
  intros c6 c7 c8 c9. set (v := when c9 _ _).
  intros (-> & -> & -> & Hc & Hl & Hm).
  assert (0 <= val_warning_count v <= 4) as Hwr
    by (rewrite Hc; destruct c6, c7, c8, c9; cbn; lia).
  split_and!; try done; try lia.
  - rewrite Hv. subst c1 c2 c3 c4 c5.
    unfold SIMPLEX_PRG_COUNT, SIMPLEX_NOISE_COUNT, SIMPLEX_INTERP_COUNT,
      SIMPLEX_PRECISION_COUNT.
    rewrite !orb_false_iff, !Z.leb_gt, !Z.ltb_ge. lia.
  - intros i Hi. split; [by apply Hem|by apply Hm].
Qed.


(** ** Statistics *)

Lemma session_engine_initialized (st : engine) (calls : list (Z * query)) :
  initialized st <> 0 -> session_engine st calls = st.
Proof.
  intros Hi. induction calls as [|[now q] calls IH]; [done|].
  cbn [session_engine].
  destruct (run_query_clock_free q now now st Hi) as [_ ->]. done.
Qed.

(** X24.  Sampling records nothing.  After an initialisation, whatever the
    configuration asks for (profiling and caching included), no sequence of
    kernel and composer calls changes the engine: the call counter stays 0,
    the performance statistics stay all zero, and the cache counters keep
    the values they had before the initialisation. *)
Theorem sampling_records_nothing (now : Z) (st : engine)
    (cfg : simplex_config_t) (calls : list (Z * query))
    (s0 : simplex_perf_stats_t) :
  let st1 := snd (simplex_noise_init_advanced now st (Some cfg)) in
  let st2 := session_engine st1 calls in
  st2 = st1 /\
  simplex_get_function_call_count st2 = 0 /\
  simplex_get_performance_stats st2 (Some s0) = (0, Some perf_stats_zero) /\
  simplex_get_cache_hits st2 = cache_hits st /\
  simplex_get_cache_misses st2 = cache_misses st.
Proof.
  intros st1 st2.
  assert (st2 = st1) as ->.
  { apply session_engine_initialized. subst st1.
    by rewrite init_advanced_initialized. }
  split; [done|]. subst st1. unfold simplex_noise_init_advanced.
  destruct (shuffle _ _ _ _) as [p ps]. by split_and!.
Qed.

(** ** [fast_floor] *)

Lemma int_of_double_quot (x : double) :
  finite64 x = true ->
  INT_MIN <= Z.quot (rk x) (2 ^ 1074) <= INT_MAX ->
  int_of_double x = Z.quot (rk x) (2 ^ 1074).
Proof.
  intros Hf Hr. unfold int_of_double. rewrite trunc_double_rk by done.
  destruct (Z.leb_spec INT_MIN (Z.quot (rk x) (2 ^ 1074))); [|lia].
  destruct (Z.leb_spec (Z.quot (rk x) (2 ^ 1074)) INT_MAX); [done|lia].
Qed.

(** On a finite double whose floor fits an [int], [fast_floor] returns the
    floor, or one less on the integers that are not positive. *)
Lemma fast_floor_floor (x : double) :
  finite64 x = true ->
  INT_MIN < rk x / 2 ^ 1074 <= INT_MAX ->
  fast_floor x
  = if (0 <? rk x) || negb (rk x mod 2 ^ 1074 =? 0)
    then rk x / 2 ^ 1074 else rk x / 2 ^ 1074 - 1.
Proof.
  intros Hf Hr. unfold fast_floor.
  rewrite (ltb_rk 0 x) by (by apply finite_not_nan).
  change (rk 0) with 0.
  assert (0 < 2 ^ 1074) as HP by done.
  set (P := 2 ^ 1074) in *. set (r := rk x) in *.
  pose proof (Z.mod_pos_bound r P HP) as Hm.
  pose proof (Z.div_mod r P ltac:(lia)) as Hd.
  pose proof (int_of_double_quot x Hf) as Hi. fold r P in Hi.
  unfold INT_MIN, INT_MAX in *.
  destruct (Z.ltb_spec 0 r) as [Hpos|Hneg]; cbn [orb].
  - pose proof (Z.quot_div_nonneg r P ltac:(lia) HP) as Hq.
    rewrite Hi by lia. done.
  - assert (Z.quot r P = - (- r / P)) as Hq.
    { replace r with (- - r) at 1 by lia.
      rewrite Z.quot_opp_l by lia. f_equal. apply Z.quot_div_nonneg; lia. }
    destruct (Z.eqb_spec (r mod P) 0) as [Hz|Hnz]; cbn [negb].
    + rewrite (Z.div_opp_l_z r P) in Hq by lia.
      rewrite Hi by lia. rewrite Hq, Z.opp_involutive. apply s32_id.
      unfold INT_MIN, INT_MAX. lia.
    + rewrite (Z.div_opp_l_nz r P) in Hq by lia.
      rewrite Hi by lia. rewrite Hq.
      rewrite s32_id by (unfold INT_MIN, INT_MAX; lia). lia.
Qed.

(** X23.  With [rk x] the value of [x] in units of [2 ^ -1074], so that
    [rk x / 2 ^ 1074] is the floor of [x]: on a finite double whose floor
    fits an [int], [fast_floor] returns the floor, except on the integers
    that are not positive (zero included), where it returns one less. *)
Theorem fast_floor_spec (x : double) :
  finite64 x = true ->
  INT_MIN < rk x / 2 ^ 1074 <= INT_MAX ->
  fast_floor x
  = if (0 <? rk x) || negb (rk x mod 2 ^ 1074 =? 0)
    then rk x / 2 ^ 1074 else rk x / 2 ^ 1074 - 1.
Proof.
  apply fast_floor_floor.
Qed.

(** ** The 1D kernel on the integers *)

Lemma zero64_cases (x : double) :
  zero64 x = true -> x = 0%float \/ x = (-0)%float.
Proof.
  unfold zero64. intros H.
  destruct (Prim2SF x) as [[]| | |] eqn:E; try discriminate.
  - right. by apply Prim2SF_inj.
  - left. by apply Prim2SF_inj.
Qed.

Lemma land7_cases (v : Z) :
  let k := Z.land v 7 in
  k = 0 \/ k = 1 \/ k = 2 \/ k = 3 \/ k = 4 \/ k = 5 \/ k = 6 \/ k = 7.
Proof.
  cbv zeta. change (Z.land v 7) with (Z.land v (Z.ones 3)).
  rewrite Z.land_ones by lia.
  pose proof (Z.mod_pos_bound v (2 ^ 3) ltac:(lia)) as H.
  change (2 ^ 3) with 8 in *. lia.
Qed.

(** The two corners of [simplex_noise_1d] at the offsets an integer has. *)
Lemma noise_1d_corners_lattice (x0 x1 : double) (a b : Z) :
  (zero64 x0 = true /\ x1 = (-1)%float) \/ (x0 = 1%float /\ zero64 x1 = true) ->
  let t0 := (1.0 - x0 * x0)%float in
  let t1 := (1.0 - x1 * x1)%float in
  let t0 := (t0 * t0)%float in
  let t1 := (t1 * t1)%float in
  let n0 := (t0 * t0 * dot2d (grad2_at (Z.land a 7)) x0 0)%float in
  let n1 := (t1 * t1 * dot2d (grad2_at (Z.land b 7)) x1 0)%float in
  zero64 (70.0 * (n0 + n1)) = true.
Proof.
  intros H. cbv zeta.
  destruct (land7_cases a) as [->|[->|[->|[->|[->|[->|[->| ->]]]]]]];
    destruct (land7_cases b) as [->|[->|[->|[->|[->|[->|[->| ->]]]]]]];
    destruct H as [[[->| ->]%zero64_cases ->]|[-> [->| ->]%zero64_cases]];
    reflexivity.
Qed.

(** X25.  [simplex_noise_1d] vanishes on the integers: at every double that
    is an integer strictly between [INT_MIN] and [INT_MAX + 1] the result
    is a zero, whatever the permutation table holds. *)
Theorem simplex_noise_1d_lattice (now : Z) (st : engine) (x : double) :
  finite64 x = true ->
  (2 ^ 1074 | rk x) ->
  INT_MIN < rk x / 2 ^ 1074 <= INT_MAX ->
  zero64 (fst (simplex_noise_1d now st x)) = true.
Proof.
  intros Hf [n Hn] Hr. rewrite simplex_noise_1d_ensure. cbn [fst].
  assert (0 < 2 ^ 1074) as HP by done.
  assert (rk x / 2 ^ 1074 = n) as Hfl by (rewrite Hn; by apply Z.div_mul).
  assert (rk x mod 2 ^ 1074 = 0) as Hmod
    by (rewrite Hn; by apply Z.mod_mul).
  pose proof (fast_floor_floor x Hf Hr) as Hff.
  rewrite Hfl, Hmod in Hff. cbn [Z.eqb negb] in Hff. rewrite orb_false_r in Hff.
  rewrite Hfl in Hr. unfold INT_MIN, INT_MAX in Hr.
  assert (2 ^ 31 < 2 ^ 53) as H53 by done.
  unfold noise_1d_body.
  set (i0 := fast_floor x) in *.
  set (x0 := (x - double_of_int i0)%float).
  apply (noise_1d_corners_lattice x0 _ (rd _ (Z.land i0 255))
           (rd _ (Z.land (s32 (i0 + 1)) 255))).
  pose proof (finite_not_nan x Hf) as Hnx.
  destruct (Z.ltb_spec 0 (rk x)) as [Hpos|Hneg]; subst i0.
  - left. destruct (rk_double_of_int n ltac:(lia)) as [Hfd Hrd].
    assert (x = double_of_int n) as Hx.
    { apply rk_inj; [done|by apply finite_not_nan|lia|lia]. }
    assert (zero64 x0 = true) as Hz.
    { subst x0. rewrite Hff, <- Hx.
      destruct (sub_self_finite x Hf) as [Hf0 Hb]. change (rk 0) with 0 in Hb.
      apply rk_zero; [done|lia]. }
    split; [done|].
    destruct (zero64_cases _ Hz) as [-> | ->]; reflexivity.
  - right. destruct (rk_double_of_int (n - 1) ltac:(lia)) as [Hfd Hrd].
    assert (x0 = 1%float) as Hx0.
    { subst x0. rewrite Hff.
      destruct (sub_rk x (double_of_int (n - 1)) Hf Hfd) as [Hn0 Hr0].
      symmetry. apply rk_inj; [done|exact Hn0| |by vm_compute]. symmetry.
      rewrite Hr0, Hrd, Hn.
      replace ((n * 2 ^ 1074 - (n - 1) * 2 ^ 1074) * 2 ^ 1074)
        with (rk 1 * 2 ^ 1074) by (change (rk 1) with (2 ^ 1074); ring).
      by apply Rs_rk. }
    split; [done|]. by rewrite Hx0.
Qed.

End Engine.

(** * Concrete runs *)

(** What x86-64 returns for an out-of-range conversion to [int]. *)
Definition int_of_double_x86 (x : double) : Z := INT_MIN.

(** The engine of a fresh process after [simplex_noise_init(12345)]. *)
Definition engine_12345 : engine := simplex_noise_init 0 engine_zero 12345.

(** A Mersenne-Twister configuration with seed 777. *)
Definition config_mt_777 : simplex_config_t :=
  set_prng_type (set_seed simplex_get_default_config 777)
    SIMPLEX_PRG_MERSENNE_TWISTER.

(** Three calls, made while the clock reads [t], [t + 1] and [t + 2]. *)
Definition sample_calls (t : Z) : list (Z * query) :=
  [(t, Q_noise_2d 1.0 2.0);
   (t + 1, Q_fbm_2d 0.3 0.7 4 0.5 2.0);
   (t + 2, Q_noise_4d 0.3 0.7 (-1.9) 5.25)].

Lemma wf_engine_zero : wf_engine engine_zero.
Proof. repeat split. Qed.

Lemma wf_engine_12345 : wf_engine engine_12345.
Proof. repeat split; vm_compute; reflexivity. Qed.

Lemma init_then_sample_deterministic_witness :
  fst (simplex_noise_init_advanced 5 engine_zero (Some config_mt_777)) = 0 /\
  fst (simplex_noise_init_advanced 8999 engine_12345 (Some config_mt_777)) = 0 /\
  run_session int_of_double_x86
    (snd (simplex_noise_init_advanced 5 engine_zero (Some config_mt_777)))
    (sample_calls 10)
  = run_session int_of_double_x86
      (snd (simplex_noise_init_advanced 8999 engine_12345 (Some config_mt_777)))
      (sample_calls 9000) /\
  run_session int_of_double_x86 (simplex_noise_init 5 engine_zero 42)
    (sample_calls 10)
  = run_session int_of_double_x86 (simplex_noise_init 8999 engine_12345 42)
      (sample_calls 9000).
Proof.
  apply (init_then_sample_deterministic int_of_double_x86 5 8999 engine_zero
           engine_12345 config_mt_777 42).
  - exact wf_engine_zero.
  - exact wf_engine_12345.
  - vm_compute. split; reflexivity.
  - lia.
  - reflexivity.
Defined.

Lemma permutation_table_valid_witness :
  let st' := snd (simplex_noise_init_advanced 0 engine_12345 (Some config_mt_777)) in
  fst (simplex_noise_init_advanced 0 engine_12345 (Some config_mt_777)) = 0 /\
  length (perm st') = 512%nat /\
  take 256 (perm st') ≡ₚ seqZ 0 256 /\
  NoDup (take 256 (perm st')) /\
  (forall v, v ∈ take 256 (perm st') <-> 0 <= v < 256) /\
  (forall i, 0 <= i < 256 -> perm st' !! Z.to_nat (256 + i) = perm st' !! Z.to_nat i).
Proof.
  apply (permutation_table_valid 0 engine_12345 config_mt_777).
  exact wf_engine_12345.
Defined.



Lemma fbm_nonpositive_octaves_nan_witness :
  simplex_fbm_2d int_of_double_x86 0 engine_12345 1.0 2.0 (-3) 0.5 2.0
    = (nan, engine_12345) /\
  simplex_fbm_3d int_of_double_x86 0 engine_12345 1.0 2.0 3.0 (-3) 0.5 2.0
    = (nan, engine_12345) /\
  simplex_fractal_2d int_of_double_x86 0 engine_12345 1.0 2.0 (-3) 0.5 2.0
    = (nan, engine_12345) /\
  simplex_fractal_3d int_of_double_x86 0 engine_12345 1.0 2.0 3.0 (-3) 0.5 2.0
    = (nan, engine_12345).
Proof.
  apply (fbm_nonpositive_octaves_nan int_of_double_x86 0 engine_12345 1.0 2.0 3.0
           (-3) 0.5 2.0).
  lia.
Defined.

(** The sign of a zero coordinate can change on the way: from the state
    seeded with 12345 the first sample at [(-0.0, 1.3)] is positive, so
    the warped [x] is [+0.0] where [x] is [-0.0]. *)
Lemma warp_x_negzero_example :
  let n1 := fst (simplex_noise_2d int_of_double_x86 0 engine_12345 (-0) 1.3) in
  Prim2SF (-0) = S754_zero true /\
  Prim2SF (-0 + n1 * 0) = S754_zero false.
Proof. by vm_compute. Qed.

(** ** Runs of the further properties *)

Lemma simplex_noise_2d_nonfinite_witness :
  fst (simplex_noise_2d int_of_double_x86 0 engine_12345 nan 1.5) = 0%float.
Proof.
  apply (simplex_noise_2d_nonfinite int_of_double_x86 0 engine_12345 nan 1.5).
  left. reflexivity.
Defined.

Lemma simplex_noise_3d_nonfinite_witness :
  fst (simplex_noise_3d int_of_double_x86 0 engine_12345 0.5 infinity 1.5)
  = 0%float.
Proof.
  apply (simplex_noise_3d_nonfinite int_of_double_x86 0 engine_12345
           0.5 infinity 1.5).
  right. left. reflexivity.
Defined.

Lemma simplex_noise_4d_nonfinite_witness :
  fst (simplex_noise_4d int_of_double_x86 0 engine_12345 0.5 1.5 2.5
         neg_infinity) = 0%float.
Proof.
  apply (simplex_noise_4d_nonfinite int_of_double_x86 0 engine_12345
           0.5 1.5 2.5 neg_infinity).
  right. right. right. reflexivity.
Defined.

Lemma simplex_noise_1d_nonfinite_witness :
  finite64 (fst (simplex_noise_1d int_of_double_x86 0 engine_12345 infinity))
  = false.
Proof.
  apply (simplex_noise_1d_nonfinite int_of_double_x86 0 engine_12345 infinity).
  reflexivity.
Defined.

Lemma array_3d_matches_scalar_witness :
  exists buf',
    simplex_noise_array_3d int_of_double_x86 0 engine_12345 0.25 (-1.5) 2.0
      3 2 2 0.125 (Some (replicate 14 0%float))
    = (0, Some buf', engine_12345) /\
    length buf' = length (replicate 14 0%float) /\
    (forall i j k, 0 <= i < 3 -> 0 <= j < 2 -> 0 <= k < 2 ->
       buf' !! Z.to_nat ((k * 2 + j) * 3 + i)
       = Some (fst (simplex_noise_3d int_of_double_x86 0 engine_12345
                      (0.25 + double_of_int i * 0.125)%float
                      (-1.5 + double_of_int j * 0.125)%float
                      (2.0 + double_of_int k * 0.125)%float))) /\
    (forall n, (Z.to_nat (3 * 2 * 2) <= n)%nat ->
       buf' !! n = replicate 14 0%float !! n).
Proof.
  apply (array_3d_matches_scalar int_of_double_x86 0 engine_12345
           0.25 (-1.5) 2.0 3 2 2 0.125 (replicate 14 0%float)).
  - vm_compute. discriminate.
  - lia.
  - lia.
  - lia.
  - vm_compute. discriminate.
  - vm_compute. discriminate.
Defined.

Lemma cache_store_then_lookup_witness :
  let '(v, st') :=
    cache_lookup int_of_double_x86
      (cache_store int_of_double_x86 engine_12345 0.5 1.5 2.5 3.5 0.25)
      0.5 1.5 2.5 3.5 in
  if finite64 0.5 && finite64 1.5 && finite64 2.5 && finite64 3.5
  then v = 0.25%float /\ cache_hits st' = s32 (cache_hits engine_12345 + 1) /\
       cache_misses st' = cache_misses engine_12345
  else v = 0%float /\ cache_hits st' = cache_hits engine_12345 /\
       cache_misses st' = s32 (cache_misses engine_12345 + 1).
Proof.
  apply (cache_store_then_lookup int_of_double_x86 engine_12345
           0.5 1.5 2.5 3.5 0.25).
  - vm_compute. discriminate.
  - vm_compute. reflexivity.
Defined.

Lemma setters_keep_samples_witness :
  run_session int_of_double_x86
    (snd (simplex_set_prng engine_12345 SIMPLEX_PRG_MERSENNE_TWISTER))
    (sample_calls 7)
  = run_session int_of_double_x86 engine_12345 (sample_calls 7) /\
  run_session int_of_double_x86 (snd (simplex_set_noise_variant engine_12345 1))
    (sample_calls 7)
  = run_session int_of_double_x86 engine_12345 (sample_calls 7) /\
  run_session int_of_double_x86 (snd (simplex_set_interpolation engine_12345 9))
    (sample_calls 7)
  = run_session int_of_double_x86 engine_12345 (sample_calls 7) /\
  run_session int_of_double_x86 (snd (simplex_set_simd engine_12345 1))
    (sample_calls 7)
  = run_session int_of_double_x86 engine_12345 (sample_calls 7) /\
  run_session int_of_double_x86 (snd (simplex_set_profiling engine_12345 1))
    (sample_calls 7)
  = run_session int_of_double_x86 engine_12345 (sample_calls 7).
Proof.
  apply (setters_keep_samples int_of_double_x86 engine_12345
           SIMPLEX_PRG_MERSENNE_TWISTER 1 9 1 1 (sample_calls 7)).
  vm_compute. discriminate.
Defined.

Lemma unknown_prng_is_lcg_witness :
  perm (snd (simplex_noise_init_advanced 0 engine_zero
               (Some (set_prng_type config_mt_777 SIMPLEX_PRG_CUSTOM))))
  = perm (snd (simplex_noise_init_advanced 0 engine_zero
                 (Some (set_prng_type config_mt_777
                          SIMPLEX_PRG_LINEAR_CONGRUENTIAL)))) /\
  run_session int_of_double_x86
    (snd (simplex_noise_init_advanced 0 engine_zero
            (Some (set_prng_type config_mt_777 SIMPLEX_PRG_CUSTOM))))
    (sample_calls 7)
  = run_session int_of_double_x86
      (snd (simplex_noise_init_advanced 0 engine_zero
              (Some (set_prng_type config_mt_777
                       SIMPLEX_PRG_LINEAR_CONGRUENTIAL))))
      (sample_calls 7).
Proof.
  apply (unknown_prng_is_lcg int_of_double_x86 0 engine_zero config_mt_777
           SIMPLEX_PRG_CUSTOM (sample_calls 7)).
  reflexivity.
Defined.

Lemma cleanup_then_sample_witness :
  initialized (simplex_cleanup engine_12345) = 0 /\
  cache_enabled (simplex_cleanup engine_12345) = 0 /\
  cache_hits (simplex_cleanup engine_12345) = 0 /\
  cache_misses (simplex_cleanup engine_12345) = 0 /\
  function_call_count (simplex_cleanup engine_12345) = 0 /\
  (forall (k : nat) e,
     noise_cache (simplex_cleanup engine_12345) !! k = Some e ->
     ce_valid e = 0) /\
  fst (simplex_noise_1d int_of_double_x86 99 (simplex_cleanup engine_12345) 0.5)
  = fst (simplex_noise_1d int_of_double_x86 99
           (simplex_noise_init 99 engine_12345 0) 0.5) /\
  fst (simplex_noise_2d int_of_double_x86 99 (simplex_cleanup engine_12345)
         0.5 1.5)
  = fst (simplex_noise_2d int_of_double_x86 99
           (simplex_noise_init 99 engine_12345 0) 0.5 1.5) /\
  fst (simplex_noise_3d int_of_double_x86 99 (simplex_cleanup engine_12345)
         0.5 1.5 2.5)
  = fst (simplex_noise_3d int_of_double_x86 99
           (simplex_noise_init 99 engine_12345 0) 0.5 1.5 2.5) /\
  fst (simplex_noise_4d int_of_double_x86 99 (simplex_cleanup engine_12345)
         0.5 1.5 2.5 3.5)
  = fst (simplex_noise_4d int_of_double_x86 99
           (simplex_noise_init 99 engine_12345 0) 0.5 1.5 2.5 3.5).
Proof.
  apply (cleanup_then_sample int_of_double_x86 99 engine_12345 0.5 1.5 2.5 3.5).
  exact wf_engine_12345.
Defined.

Lemma init_permutation_is_lcg_init_witness :
  perm (init_permutation 0 engine_zero 12345)
  = perm (snd (simplex_noise_init_advanced 0 engine_zero
                 (Some (set_prng_type (set_seed config_mt_777 12345)
                          SIMPLEX_PRG_LINEAR_CONGRUENTIAL)))) /\
  length (perm (init_permutation 0 engine_zero 12345)) = 512%nat /\
  take 256 (perm (init_permutation 0 engine_zero 12345)) ≡ₚ seqZ 0 256 /\
  (forall i, 0 <= i < 256 ->
     perm (init_permutation 0 engine_zero 12345) !! Z.to_nat (256 + i)
     = perm (init_permutation 0 engine_zero 12345) !! Z.to_nat i).
Proof.
  apply (init_permutation_is_lcg_init 0 engine_zero config_mt_777 12345).
  reflexivity.
Defined.

Lemma config_int_set_get_witness :
  let '(r, c') :=
    simplex_set_config_int (Some simplex_get_default_config)
      (Some "octaves"%string) 6 in
  if r =? 0
  then simplex_get_config_int c' (Some "octaves"%string) (Some 0)
       = (0, Some 6)
  else r = -1 /\ c' = Some simplex_get_default_config /\
       simplex_get_config_int (Some simplex_get_default_config)
         (Some "octaves"%string) (Some 0) = (-1, Some 0).
Proof.
  apply (config_int_set_get simplex_get_default_config "octaves" 6 0).
  unfold INT_MIN, INT_MAX. lia.
Defined.

Lemma config_set_other_key_witness :
  simplex_get_config_int
    (snd (simplex_set_config_int (Some simplex_get_default_config)
            (Some "seed"%string) 42))
    (Some "octaves"%string) (Some 0)
  = simplex_get_config_int (Some simplex_get_default_config)
      (Some "octaves"%string) (Some 0) /\
  simplex_get_config_double
    (snd (simplex_set_config_int (Some simplex_get_default_config)
            (Some "seed"%string) 42))
    (Some "octaves"%string) (Some 0%float)
  = simplex_get_config_double (Some simplex_get_default_config)
      (Some "octaves"%string) (Some 0%float) /\
  simplex_get_config_int
    (snd (simplex_set_config_double (Some simplex_get_default_config)
            (Some "seed"%string) 0.25))
    (Some "octaves"%string) (Some 0)
  = simplex_get_config_int (Some simplex_get_default_config)
      (Some "octaves"%string) (Some 0) /\
  simplex_get_config_double
    (snd (simplex_set_config_double (Some simplex_get_default_config)
            (Some "seed"%string) 0.25))
    (Some "octaves"%string) (Some 0%float)
  = simplex_get_config_double (Some simplex_get_default_config)
      (Some "octaves"%string) (Some 0%float).
Proof.
  apply (config_set_other_key simplex_get_default_config "seed" "octaves"
           42 0 0.25 0).
  discriminate.
Defined.


Lemma fast_floor_spec_witness :
  fast_floor int_of_double_x86 (-2)
  = if (0 <? rk (-2)) || negb (rk (-2) mod 2 ^ 1074 =? 0)
    then rk (-2) / 2 ^ 1074 else rk (-2) / 2 ^ 1074 - 1.
Proof.
  apply (fast_floor_spec int_of_double_x86 (-2)).
  - reflexivity.
  - split; [apply Z.ltb_lt|apply Z.leb_le]; vm_compute; reflexivity.
Defined.

Lemma simplex_noise_1d_lattice_witness :
  zero64 (fst (simplex_noise_1d int_of_double_x86 0 engine_12345 3)) = true.
Proof.
  apply (simplex_noise_1d_lattice int_of_double_x86 0 engine_12345 3).
  - reflexivity.
  - exists 3. vm_compute. reflexivity.
  - split; [apply Z.ltb_lt|apply Z.leb_le]; vm_compute; reflexivity.
Defined.

Lemma merge_config_default_witness :
  simplex_merge_config
    [set_seed simplex_get_default_config 777; simplex_get_default_config;
     set_octaves simplex_get_default_config 6]
    (Some 0%nat) (Some 1%nat) (Some 2%nat)
  = (0, [set_seed simplex_get_default_config 777; simplex_get_default_config;
         set_seed simplex_get_default_config 777]) /\
  simplex_merge_config
    [set_seed simplex_get_default_config 777; simplex_get_default_config;
     set_octaves simplex_get_default_config 6]
    (Some 0%nat) (Some 2%nat) (Some 2%nat)
  = (0, [set_seed simplex_get_default_config 777; simplex_get_default_config;
         set_seed simplex_get_default_config 777]).
Proof.
  split.
  - destruct (merge_config_default
                [set_seed simplex_get_default_config 777;
                 simplex_get_default_config;
                 set_octaves simplex_get_default_config 6]
                0 1 2 (set_seed simplex_get_default_config 777)
                simplex_get_default_config) as (Hdefault & _ & _).
    + reflexivity.
    + reflexivity.
    + simpl. lia.
    + apply Hdefault; [lia|reflexivity].
  - destruct (merge_config_default
                [set_seed simplex_get_default_config 777;
                 simplex_get_default_config;
                 set_octaves simplex_get_default_config 6]
                0 2 2 (set_seed simplex_get_default_config 777)
                (set_octaves simplex_get_default_config 6))
      as (_ & _ & Halias).
    + reflexivity.
    + reflexivity.
    + simpl. lia.
    + apply Halias; reflexivity.
Defined.

Lemma merge_config_compose_witness :
  snd (simplex_merge_config
         (snd (simplex_merge_config
                 [simplex_get_default_config;
                  set_seed simplex_get_default_config 777;
                  set_octaves simplex_get_default_config 6;
                  simplex_get_default_config; simplex_get_default_config]
                 (Some 0%nat) (Some 1%nat) (Some 4%nat)))
         (Some 4%nat) (Some 2%nat) (Some 4%nat)) !! 4%nat
  = snd (simplex_merge_config
           (snd (simplex_merge_config
                   [simplex_get_default_config;
                    set_seed simplex_get_default_config 777;
                    set_octaves simplex_get_default_config 6;
                    simplex_get_default_config; simplex_get_default_config]
                   (Some 1%nat) (Some 2%nat) (Some 3%nat)))
           (Some 0%nat) (Some 3%nat) (Some 4%nat)) !! 4%nat /\
  simplex_merge_config
    (snd (simplex_merge_config
            [simplex_get_default_config;
             set_seed simplex_get_default_config 777;
             set_octaves simplex_get_default_config 6;
             simplex_get_default_config; simplex_get_default_config]
            (Some 0%nat) (Some 1%nat) (Some 4%nat)))
    (Some 4%nat) (Some 1%nat) (Some 4%nat)
  = simplex_merge_config
      [simplex_get_default_config;
       set_seed simplex_get_default_config 777;
       set_octaves simplex_get_default_config 6;
       simplex_get_default_config; simplex_get_default_config]
      (Some 0%nat) (Some 1%nat) (Some 4%nat).
Proof.
  apply (merge_config_compose
           [simplex_get_default_config;
            set_seed simplex_get_default_config 777;
            set_octaves simplex_get_default_config 6;
            simplex_get_default_config; simplex_get_default_config]
           0 1 2 3 4); simpl; lia.
Defined.
